(** * A shallow embedding of the IRC client core (irc.go) and of the
      event handling of the terminal front end (main.go).

    Layout:
    - [GoStrings]: the functions of Go's [strings] package the program calls,
      on byte strings, with slicing that can fail the way Go's does;
    - [IRC]: [Line], [Conn], [parseLine], [dispatch], [sendRaw], the outbound
      commands, [readLoop], [Connect] and [Quit];
    - [App]: [handleNames] and [handleEndOfNames] of the front end;
    - [Front]: more of main.go: the string helpers, the model with its
      channel list and chat, the other event handlers, [handleIRCMessage]
      and the events [setupIRCHandlers] sends for a line;
    - [Calls]: series of calls on a connection.
    The modules after these hold the facts.

    Effects are explicit.  A [Conn] is a record that is threaded through every
    operation; everything the program does to the outside world (writes,
    flushes, goroutine launches, channel closes) is appended to the [trace]
    of the connection in program order.  Handlers and the debug hook are
    opaque Go functions: the model records that they are launched or called,
    not what they do, and takes a call of the hook or of the writer to
    return, but in [Quit], where the call that sends can also block for
    ever.  The read loop runs on a list of what it reads; what it does
    while [Quit] waits, and whether the send of [Quit] returns, are
    parameters of [Quit]. *)

From Stdlib Require Import ZArith Ascii String Lia.
From stdpp Require Import base option list strings gmap.

(* ===================================================================== *)
(** * Go's [strings] package and string slicing *)
(* ===================================================================== *)

Module GoStrings.

(** A Go string is an immutable sequence of bytes: Rocq's [string], whose
    characters are the 8-bit [ascii]. *)

(** [s[i:]].  Go panics ("slice bounds out of range") when [i > len(s)];
    the panic is [None]. *)
Fixpoint sliceFrom (s : string) (i : nat) : option string :=
  match i, s with
  | O, _ => Some s
  | S _, EmptyString => None
  | S i', String _ s' => sliceFrom s' i'
  end.

(** [s[:j]], with the same panic when [j > len(s)]. *)
Fixpoint sliceTo (s : string) (j : nat) : option string :=
  match j, s with
  | O, _ => Some EmptyString
  | S _, EmptyString => None
  | S j', String c s' => String c <$> sliceTo s' j'
  end.

(** [l[i:]] on a slice of strings. *)
Fixpoint sliceListFrom {A : Type} (l : list A) (i : nat) : option (list A) :=
  match i, l with
  | O, _ => Some l
  | S _, [] => None
  | S i', _ :: l' => sliceListFrom l' i'
  end.

(** [strings.HasPrefix(s, prefix)]. *)
Fixpoint HasPrefix (s prefix : string) : bool :=
  match prefix, s with
  | EmptyString, _ => true
  | String _ _, EmptyString => false
  | String b prefix', String a s' =>
      if decide (a = b) then HasPrefix s' prefix' else false
  end.

(** Does byte [c] occur in [s]?  ([strings.IndexByte(s, c) >= 0].) *)
Fixpoint hasByte (c : ascii) (s : string) : bool :=
  match s with
  | EmptyString => false
  | String a s' => if decide (a = c) then true else hasByte c s'
  end.

(** [strings.Index(s, sep)] for a one-byte [sep] (the program only searches
    for "!"): the offset of the first occurrence, or -1. *)
Fixpoint Index (s : string) (sep : ascii) : Z :=
  match s with
  | EmptyString => (-1)%Z
  | String a s' =>
      if decide (a = sep) then 0%Z
      else let i := Index s' sep in
           if (i =? -1)%Z then (-1)%Z else (i + 1)%Z
  end.

(** [strings.Split(s, sep)] for a one-byte [sep] (the program only splits on
    " ").  The result is never empty: [Split("", " ")] is [[""]]. *)
Fixpoint Split (s : string) (sep : ascii) : list string :=
  match s with
  | EmptyString => [EmptyString]
  | String a s' =>
      if decide (a = sep) then EmptyString :: Split s' sep
      else match Split s' sep with
           | [] => [String a EmptyString]
           | w :: ws => String a w :: ws
           end
  end.

(** [strings.SplitN(s, sep, n)] for a one-byte [sep] and [n >= 0]: at most
    [n] pieces, the last one holding the unsplit rest; [n = 0] gives nil. *)
Fixpoint SplitN (s : string) (sep : ascii) (n : nat) {struct s} : list string :=
  match n with
  | 0 => []
  | 1 => [s]
  | S n' =>
      match s with
      | EmptyString => [EmptyString]
      | String a s' =>
          if decide (a = sep) then EmptyString :: SplitN s' sep n'
          else match SplitN s' sep n with
               | [] => [String a EmptyString]
               | w :: ws => String a w :: ws
               end
      end
  end.

(** [strings.Join(elems, sep)]. *)
Fixpoint Join (elems : list string) (sep : string) : string :=
  match elems with
  | [] => EmptyString
  | e :: rest =>
      match rest with
      | [] => e
      | _ :: _ => e +:+ sep +:+ Join rest sep
      end
  end.

(** [strings.TrimLeft(s, cutset)] for a cutset of ASCII bytes (the program
    passes "@+%~&"); Go then works byte by byte. *)
Fixpoint TrimLeft (s cutset : string) : string :=
  match s with
  | EmptyString => EmptyString
  | String a s' => if hasByte a cutset then TrimLeft s' cutset else s
  end.

(** What the program takes from Go's Unicode tables: [strings.ToUpper] on a
    string with a byte above 0x7F, and [strings.TrimSpace]. *)
Class UnicodeTables := {
  mapToUpper : string -> string;
  TrimSpace : string -> string
}.

Fixpoint isASCII (s : string) : bool :=
  match s with
  | EmptyString => true
  | String a s' => (nat_of_ascii a <? 128) && isASCII s'
  end.

Definition upperByte (a : ascii) : ascii :=
  let n := nat_of_ascii a in
  if (97 <=? n) && (n <=? 122) then ascii_of_nat (n - 32) else a.

Fixpoint mapBytes (f : ascii -> ascii) (s : string) : string :=
  match s with
  | EmptyString => EmptyString
  | String a s' => String (f a) (mapBytes f s')
  end.

(** [strings.ToUpper]: ASCII-only strings are upper-cased byte by byte,
    anything else goes through the Unicode tables. *)
Definition ToUpper `{UnicodeTables} (s : string) : string :=
  if isASCII s then mapBytes upperByte s else mapToUpper s.

(** An instance to run the program on ASCII input: white space is the six
    ASCII space bytes, and a string with a byte above 0x7F, which the
    examples below never contain, is left as it is. *)
Definition isSpaceByte (a : ascii) : bool :=
  let n := nat_of_ascii a in (n =? 32) || ((9 <=? n) && (n <=? 13)).

Fixpoint trimLeftSpace (s : string) : string :=
  match s with
  | EmptyString => EmptyString
  | String a s' => if isSpaceByte a then trimLeftSpace s' else s
  end.

Fixpoint trimRightSpace (s : string) : string :=
  match s with
  | EmptyString => EmptyString
  | String a s' =>
      match trimRightSpace s' with
      | EmptyString => if isSpaceByte a then EmptyString else String a EmptyString
      | t => String a t
      end
  end.

Definition asciiTables : UnicodeTables :=
  {| mapToUpper := fun s => s;
     TrimSpace := fun s => trimRightSpace (trimLeftSpace s) |}.

(** [fmt.Sprintf] with [%s] verbs only is concatenation, written [+:+]. *)

(** ** More of the [strings] package and of slicing, for main.go *)

(** [len(s)] as a Go [int]. *)
Definition len (s : string) : Z := Z.of_nat (String.length s).

(** [s[:j]] for a Go [int] [j]: a negative bound panics as well. *)
Definition sliceToInt (s : string) (j : Z) : option string :=
  if (j <? 0)%Z then None else sliceTo s (Z.to_nat j).

(** [strings.Repeat(s, count)] for [count >= 0]. *)
Fixpoint Repeat (s : string) (count : nat) : string :=
  match count with
  | O => EmptyString
  | S n => s +:+ Repeat s n
  end.

(** [strings.ReplaceAll(s, old, new)] for one-byte [old] and [new] (the
    program replaces "/" by ":"). *)
Definition ReplaceAll (s : string) (old new : ascii) : string :=
  mapBytes (fun a => if decide (a = old) then new else a) s.

(** [strings.Contains(s, substr)]. *)
Fixpoint Contains (s substr : string) : bool :=
  HasPrefix s substr ||
  match s with
  | EmptyString => false
  | String _ s' => Contains s' substr
  end.

End GoStrings.


(* ===================================================================== *)
(** * irc.go: the line codec *)
(* ===================================================================== *)

Module IRC.
Import GoStrings.

(** [type Line struct]. *)
Record Line := mkLine {
  Nick : string;
  Src : string;
  Cmd : string;
  Args : list string
}.

#[global] Instance Line_eq_dec : EqDecision Line.
Proof. solve_decision. Defined.

Definition withNick (l : Line) (v : string) : Line := mkLine v (Src l) (Cmd l) (Args l).
Definition withSrc (l : Line) (v : string) : Line := mkLine (Nick l) v (Cmd l) (Args l).
Definition withCmd (l : Line) (v : string) : Line := mkLine (Nick l) (Src l) v (Args l).
Definition withArgs (l : Line) (v : list string) : Line := mkLine (Nick l) (Src l) (Cmd l) v.

Section Codec.
Context `{UnicodeTables}.

(** The argument loop of [parseLine].  [parts] is [parts[i:]] at the current
    index [i], [args] is [line.Args] so far. *)
Fixpoint parseArgs (parts : list string) (args : list string) : option (list string) :=
  match parts with
  | [] => Some args
  | p :: rest =>
      if HasPrefix p ":" then
        (* line.Args = append(line.Args, strings.Join(parts[i:], " ")[1:]); break *)
        trailing ← sliceFrom (Join parts " ") 1;
        Some (args ++ [trailing])
      else parseArgs rest (args ++ [p])
  end.

(** The second half of [parseLine], from "Parse command and parameters". *)
Definition parseCommand (line : Line) (raw : string) : option Line :=
  let parts := Split raw " " in
  if length parts =? 0 then Some line
  else
    p0 ← parts !! 0;
    let line := withCmd line (ToUpper p0) in
    parts ← sliceListFrom parts 1;
    args ← parseArgs parts (Args line);
    Some (withArgs line args).

(** [func (c) parseLine(raw string) *Line].  The receiver is unused.
    [None] is a runtime panic of a slice or index expression. *)
Definition parseLine (raw : string) : option Line :=
  let line := mkLine "" "" "" [] in
  if HasPrefix raw ":" then
    rest ← sliceFrom raw 1;
    let parts := SplitN rest " " 2 in
    if length parts <? 2 then Some line
    else
      src ← parts !! 0;
      let line := withSrc line src in
      let idx := Index (Src line) "!" in
      line ← (if decide (idx ≠ (-1)%Z)
              then nick ← sliceTo (Src line) (Z.to_nat idx); Some (withNick line nick)
              else Some line);
      raw ← parts !! 1;
      parseCommand line raw
  else parseCommand line raw.

(** A parameter the argument loop copies as it is: no space inside (it is one
    piece of the split) and no leading colon. *)
Definition plainParam (p : string) : Prop :=
  hasByte " " p = false ∧ HasPrefix p ":" = false.

End Codec.

(* ===================================================================== *)
(** * irc.go: the connection *)
(* ===================================================================== *)

(** A Go [error], by the text of its [Error()]. *)
Definition error := string.

(** A registered handler function, of Go type func(Conn, Line) on pointers.  Go closures are opaque and cannot be
    compared; each registration is told apart by an identifier. *)
Inductive handler := Handler (id : nat).

#[global] Instance handler_eq_dec : EqDecision handler.
Proof. solve_decision. Defined.

(** The callback of [SetDebugSend]. *)
Inductive debugHook := DebugHook (id : nat).

#[global] Instance debugHook_eq_dec : EqDecision debugHook.
Proof. solve_decision. Defined.

(** The state of the [net.Conn] behind [c.conn]. *)
Inductive socket := SockOpen | SockClosed.

#[global] Instance socket_eq_dec : EqDecision socket.
Proof. solve_decision. Defined.

(** What a connection does, in program order. *)
Inductive event :=
| EvDebugSend (hook : debugHook) (cmd : string)  (* c.debugSendFn(cmd) *)
| EvWriteString (data : string)                  (* c.writer.WriteString(data) *)
| EvFlush                                        (* c.writer.Flush() *)
| EvStderr (text : string)                       (* fmt.Fprintf(os.Stderr, ...) *)
| EvGo (h : handler) (line : Line)               (* go handler(c, line) *)
| EvGoReadLoop                                   (* go c.readLoop() *)
| EvSetConnected (b : bool)                      (* c.connected = b, under c.mu *)
| EvCloseQuit                                    (* close(c.quit) *)
| EvCloseDone                                    (* close(c.done) *)
| EvConnClose.                                   (* c.conn.Close() *)

#[global] Instance event_eq_dec : EqDecision event.
Proof. solve_decision. Defined.

(** The buffered writer over the socket ([*bufio.Writer]): each call gives
    the next state of the writer and the error it returns, if any. *)
Class Transport (W : Type) := {
  WriteString : W -> string -> W * option error;
  Flush : W -> W * option error
}.

(** [type Config struct], without the TLS settings. *)
Record Config := mkConfig {
  cfg_Nick : string;
  cfg_User : string;
  cfg_RealName : string;
  cfg_Server : string;
  cfg_SSL : bool;
  cfg_NewNick : string -> string
}.

(** [func NewConfig(nick string)]. *)
Definition NewConfig (nick : string) : Config :=
  mkConfig nick nick nick "" false (fun n => n +:+ "_").

(** The data of the [WriteString] calls in a trace, and the goroutines it
    launches for handlers. *)
Definition writesOf (evs : list event) : list string :=
  omap (fun e => match e with EvWriteString d => Some d | _ => None end) evs.

Definition gosOf (evs : list event) : list (handler * Line) :=
  omap (fun e => match e with EvGo h l => Some (h, l) | _ => None end) evs.

(** The events [sendRaw] and [dispatch] can add to a trace. *)
Definition sendEvent (e : event) : Prop :=
  match e with
  | EvDebugSend _ _ | EvWriteString _ | EvFlush => True
  | _ => False
  end.

Definition dispatchEvent (e : event) : Prop :=
  match e with
  | EvDebugSend _ _ | EvWriteString _ | EvFlush | EvStderr _ | EvGo _ _ => True
  | _ => False
  end.

Definition CRLF : string := String "013" (String "010" EmptyString).
Definition LF : string := String "010" EmptyString.

Section Connection.
Context {W : Type} `{Transport W} `{UnicodeTables}.

(** [type Conn struct].  [quit] and [done] say whether the channel of that
    name has been closed.  The mutex [mu] is not a field: every operation
    below is one critical section or a sequence of them.  [reader] is not a
    field either: what it reads is an input of [readLoop].  Two fields are
    not in the source: [reading] (a [readLoop] goroutine is running) and
    [trace]. *)
Record Conn := mkConn {
  cfg : Config;
  conn : option socket;
  connected : bool;
  handlers : gmap string (list handler);
  writer : option W;
  quit : bool;
  done : bool;
  debugSendFn : option debugHook;
  reading : bool;
  trace : list event
}.

Definition withConn (c : Conn) (v : option socket) : Conn :=
  mkConn (cfg c) v (connected c) (handlers c) (writer c) (quit c) (done c)
         (debugSendFn c) (reading c) (trace c).
Definition withConnected (c : Conn) (v : bool) : Conn :=
  mkConn (cfg c) (conn c) v (handlers c) (writer c) (quit c) (done c)
         (debugSendFn c) (reading c) (trace c).
Definition withHandlers (c : Conn) (v : gmap string (list handler)) : Conn :=
  mkConn (cfg c) (conn c) (connected c) v (writer c) (quit c) (done c)
         (debugSendFn c) (reading c) (trace c).
Definition withWriter (c : Conn) (v : option W) : Conn :=
  mkConn (cfg c) (conn c) (connected c) (handlers c) v (quit c) (done c)
         (debugSendFn c) (reading c) (trace c).
Definition withQuit (c : Conn) (v : bool) : Conn :=
  mkConn (cfg c) (conn c) (connected c) (handlers c) (writer c) v (done c)
         (debugSendFn c) (reading c) (trace c).
Definition withDone (c : Conn) (v : bool) : Conn :=
  mkConn (cfg c) (conn c) (connected c) (handlers c) (writer c) (quit c) v
         (debugSendFn c) (reading c) (trace c).
Definition withDebugSendFn (c : Conn) (v : option debugHook) : Conn :=
  mkConn (cfg c) (conn c) (connected c) (handlers c) (writer c) (quit c) (done c)
         v (reading c) (trace c).
Definition withReading (c : Conn) (v : bool) : Conn :=
  mkConn (cfg c) (conn c) (connected c) (handlers c) (writer c) (quit c) (done c)
         (debugSendFn c) v (trace c).
Definition withTrace (c : Conn) (v : list event) : Conn :=
  mkConn (cfg c) (conn c) (connected c) (handlers c) (writer c) (quit c) (done c)
         (debugSendFn c) (reading c) v.

(** ** Computations on a connection *)

(** A method either returns a value and the connection as it left it, or
    panics, leaving the connection as it was at the panic. *)
Inductive result (A : Type) : Type :=
| Ok (a : A) (c : Conn)
| Panic (why : string) (c : Conn).
Arguments Ok {A} a c.
Arguments Panic {A} why c.

Definition stateOf {A} (r : result A) : Conn :=
  match r with Ok _ c => c | Panic _ c => c end.

Definition M (A : Type) : Type := Conn -> result A.

Definition ret {A} (a : A) : M A := fun c => Ok a c.

Definition bind {A B} (m : M A) (k : A -> M B) : M B :=
  fun c => match m c with
           | Ok a c' => k a c'
           | Panic why c' => Panic why c'
           end.

Notation "'let*' x ':=' m 'in' k" := (bind m (fun x => k))
  (at level 10, x name, m at level 100, k at level 200).

Definition get : M Conn := fun c => Ok c c.
Definition modify (f : Conn -> Conn) : M unit := fun c => Ok tt (f c).
Definition panic {A} (why : string) : M A := fun c => Panic why c.
Definition emit (e : event) : M unit :=
  modify (fun c => withTrace c (trace c ++ [e])).

(** [func Client(cfg) Conn]: both channels open, nothing else set. *)
Definition Client (cfg : Config) : Conn :=
  mkConn cfg None false ∅ None false false None false [].

(** [func (c) HandleFunc(event string, handler)]:
    [c.handlers[event] = append(c.handlers[event], handler)]. *)
Definition HandleFunc (event : string) (h : handler) : M unit :=
  modify (fun c =>
    withHandlers c (<[event := default [] (handlers c !! event) ++ [h]]> (handlers c))).

(** [func (c) SetDebugSend(fn func(string))]. *)
Definition SetDebugSend (fn : option debugHook) : M unit :=
  modify (fun c => withDebugSendFn c fn).

(** [func (c) Connected() bool]. *)
Definition Connected (c : Conn) : bool := connected c.

(** [c.connected = b] between [c.mu.Lock()] and [c.mu.Unlock()]. *)
Definition setConnected (b : bool) : M unit :=
  let* _ := modify (fun c => withConnected c b) in
  emit (EvSetConnected b).

(** [c.writer.WriteString(data)]; a nil writer is a nil dereference. *)
Definition writerWriteString (data : string) : M (option error) :=
  fun c =>
    match writer c with
    | None => Panic "invalid memory address or nil pointer dereference" c
    | Some w =>
        let r := WriteString w data in
        Ok (snd r) (withTrace (withWriter c (Some (fst r)))
                              (trace c ++ [EvWriteString data]))
    end.

(** [c.writer.Flush()]. *)
Definition writerFlush : M (option error) :=
  fun c =>
    match writer c with
    | None => Panic "invalid memory address or nil pointer dereference" c
    | Some w =>
        let r := Flush w in
        Ok (snd r) (withTrace (withWriter c (Some (fst r))) (trace c ++ [EvFlush]))
    end.

(** [func (c) sendRaw(cmd string) error]. *)
Definition sendRaw (cmd : string) : M (option error) :=
  let* c := get in
  if negb (connected c) then ret (Some "not connected")
  else
    let* _ := match debugSendFn c with
              | Some hook => emit (EvDebugSend hook cmd)
              | None => ret tt
              end in
    let* err := writerWriteString (cmd +:+ CRLF) in
    match err with
    | Some e => ret (Some e)
    | None => writerFlush
    end.

(** [for _, handler := range hs { go handler(c, line) }]. *)
Fixpoint goEach (hs : list handler) (line : Line) : M unit :=
  match hs with
  | [] => ret tt
  | h :: hs' => let* _ := emit (EvGo h line) in goEach hs' line
  end.

(** The reply [dispatch] builds for a PING line. *)
Definition pongCmd (line : Line) : string :=
  match Args line with
  | arg0 :: _ => "PONG :" +:+ arg0
  | [] => "PONG"
  end.

(** [func (c) dispatch(event string, line *Line)]. *)
Definition dispatch (event : string) (line : Line) : M unit :=
  let* _ := (if decide (event = "PING") then
               let* err := sendRaw (pongCmd line) in
               match err with
               | Some e => emit (EvStderr ("Failed to send PONG: " +:+ e +:+ LF))
               | None => ret tt
               end
             else ret tt) in
  let* c := get in
  let specific := default [] (handlers c !! event) in
  let wildcardHandlers := default [] (handlers c !! "*") in
  let* _ := goEach specific line in
  goEach wildcardHandlers line.

(** [Raw], [Join], [Part], [Privmsg]: each calls [sendRaw] once and has no
    result of its own.  ([Join] is written [Join_]: the name is taken by
    [strings.Join].) *)
Definition Raw (cmd : string) : M unit :=
  let* _ := sendRaw cmd in ret tt.

Definition Join_ (channel : string) : M unit :=
  let* _ := sendRaw ("JOIN " +:+ channel) in ret tt.

Definition Part (channel : string) : M unit :=
  let* _ := sendRaw ("PART " +:+ channel) in ret tt.

Definition Privmsg (target message : string) : M unit :=
  let* _ := sendRaw ("PRIVMSG " +:+ target +:+ " :" +:+ message) in ret tt.

(** [func (c) Connect() error].  [dial] is what [tls.Dial] or
    [net.Dial] gave: an error, or the writer over a fresh socket. *)
Definition Connect (dial : error + W) : M (option error) :=
  match dial with
  | inl err => ret (Some ("failed to connect: " +:+ err))
  | inr w =>
      let* _ := modify (fun c => withWriter (withConn c (Some SockOpen)) (Some w)) in
      let* _ := setConnected true in
      let* c := get in
      let* _ := sendRaw ("NICK " +:+ cfg_Nick (cfg c)) in
      let* _ := sendRaw ("USER " +:+ cfg_User (cfg c) +:+ " 0 * :" +:+ cfg_RealName (cfg c)) in
      let* _ := modify (fun c => withReading c true) in
      let* _ := emit EvGoReadLoop in
      ret None
  end.

(** ** The read loop *)

(** What one [c.reader.ReadString('\n')] under the one-second deadline
    gives: a line, a timeout, or any other error. *)
Inductive readResult :=
| ReadLine (s : string)
| ReadTimeout
| ReadFailed.

(** What reaches a running read loop: a concurrent [Quit] closing [c.quit],
    or the outcome of the next read. *)
Inductive stimulus :=
| Cancel
| Read (r : readResult).

(** [close(c.quit)] and [close(c.done)]; closing a closed channel panics. *)
Definition closeQuit : M unit :=
  let* c := get in
  if quit c then panic "close of closed channel"
  else let* _ := modify (fun c => withQuit c true) in emit EvCloseQuit.

Definition closeDone : M unit :=
  let* c := get in
  if done c then panic "close of closed channel"
  else let* _ := modify (fun c => withDone c true) in emit EvCloseDone.

(** The [for { select { ... } }] of [readLoop]: [Some] when the loop returns
    (or panics), [None] while it is still waiting for input.  Setting the
    read deadline leaves no event. *)
Fixpoint readLoopBody (ins : list stimulus) (c : Conn) : option (result unit) :=
  if quit c then Some (Ok tt c)                      (* case <-c.quit: return *)
  else
    match ins with
    | [] => None
    | Cancel :: ins' => readLoopBody ins' (withQuit c true)
    | Read ReadTimeout :: ins' => readLoopBody ins' c      (* continue *)
    | Read ReadFailed :: _ => Some (Ok tt c)               (* return *)
    | Read (ReadLine s) :: ins' =>
        let line := TrimSpace s in
        if decide (line = "") then readLoopBody ins' c
        else
          match parseLine line with
          | None => Some (Panic "slice bounds out of range" c)
          | Some parsed =>
              match dispatch (Cmd parsed) parsed c with
              | Ok _ c' => readLoopBody ins' c'
              | Panic why c' => Some (Panic why c')
              end
          end
    end.

(** The line of the synthetic event: [&Line{Cmd: "DISCONNECTED"}]. *)
Definition disconnectedLine : Line := mkLine "" "" "DISCONNECTED" [].

(** The two deferred calls of [readLoop], in the order Go runs them: the
    function literal deferred last goes first, [close(c.done)] after it. *)
Definition readLoopDeferred : M unit :=
  let* _ := setConnected false in
  let* _ := dispatch "DISCONNECTED" disconnectedLine in
  let* _ := modify (fun c => withReading c false) in
  closeDone.

(** [func (c) readLoop()].  The deferred calls run when the loop
    returns and when it panics; a panic of the loop goes on after them. *)
Definition readLoop (ins : list stimulus) (c : Conn) : option (result unit) :=
  match readLoopBody ins c with
  | None => None
  | Some (Ok _ c') => Some (readLoopDeferred c')
  | Some (Panic why c') => Some (Panic why (stateOf (readLoopDeferred c')))
  end.

(** ** Quit *)

(** What the read loop does while [Quit] waits in its [select]: it comes to
    its next poll of [c.quit] and leaves before the two seconds are over, or
    it does not. *)
Inductive schedule := LoopExitsInTime | LoopStalls.

(** The [select] of [Quit].  With [c.done] closed the first case is taken.
    Otherwise a running read loop that is scheduled in time runs its exit
    sequence, which closes [c.done]; in every other case the timer fires. *)
Definition awaitDone (sched : schedule) : M unit :=
  let* c := get in
  if done c then ret tt
  else if reading c then
    match sched with
    | LoopExitsInTime => readLoopDeferred
    | LoopStalls => ret tt
    end
  else ret tt.

(** [if c.conn != nil { c.conn.Close() }]. *)
Definition closeConn : M unit :=
  let* c := get in
  match conn c with
  | None => ret tt
  | Some _ =>
      let* _ := modify (fun c => withConn c (Some SockClosed)) in
      emit EvConnClose
  end.

(** The command [Quit] sends. *)
Definition quitCmd (message : string) : string :=
  if decide (message = "") then "QUIT" else "QUIT :" +:+ message.

(** What becomes of the one [sendRaw] call of [Quit] on a connected
    [Conn].  The program sets a deadline for reads only: the write to the
    socket has none, and with verbose on the debug hook first sends on a
    bounded channel.  So the call returns, with an error or without, or it
    blocks for ever. *)
Inductive sendFate := SendReturns | SendBlocks.

(** The statements of [Quit], on the run in which its [sendRaw] call
    returns. *)
Definition quitSteps (sched : schedule) (message : string) : M unit :=
  let* _ := sendRaw (quitCmd message) in
  let* _ := closeQuit in
  let* _ := awaitDone sched in
  closeConn.

(** [func (c) Quit(message string)].  [None]: the call never returns; it
    is then blocked in [sendRaw], before [close(c.quit)], and does nothing
    of what follows.  On a [Conn] that is not connected [sendRaw] returns at
    its first test, before the hook and the writer, and cannot block. *)
Definition Quit (fate : sendFate) (sched : schedule) (message : string) (c : Conn)
    : option (result unit) :=
  match fate with
  | SendReturns => Some (quitSteps sched message c)
  | SendBlocks => if connected c then None else Some (quitSteps sched message c)
  end.

(** [c'] differs from [c] at most in its writer, its trace and [quit]. *)
Definition sameControl (c c' : Conn) : Prop :=
  cfg c' = cfg c ∧ conn c' = conn c ∧ connected c' = connected c ∧
  handlers c' = handlers c ∧ done c' = done c ∧
  debugSendFn c' = debugSendFn c ∧ reading c' = reading c.

(** The trace of [c'] is the trace of [c] and then events that satisfy [P]. *)
Definition extends (P : event -> Prop) (c c' : Conn) : Prop :=
  ∃ evs, trace c' = trace c ++ evs ∧ Forall P evs.

(** The goroutines [dispatch] launches for [line]: the handlers of the
    event, then the handlers of "*". *)
Definition launches (c : Conn) (tag : string) (line : Line) : list event :=
  map (fun h => EvGo h line)
      (default [] (handlers c !! tag) ++ default [] (handlers c !! "*")).

(** What [dispatch] prints when the PONG could not be sent. *)
Definition pongFailure (err : option error) : list event :=
  match err with
  | Some e => [EvStderr ("Failed to send PONG: " +:+ e +:+ LF)]
  | None => []
  end.

(** The handlers a series of registrations puts under [tag], in order. *)
Fixpoint registeredUnder (tag : string) (regs : list (string * handler)) : list handler :=
  match regs with
  | [] => []
  | (e, h) :: regs' =>
      if decide (e = tag) then h :: registeredUnder tag regs'
      else registeredUnder tag regs'
  end.

(** A series of [HandleFunc] calls. *)
Fixpoint registerAll (regs : list (string * handler)) : M unit :=
  match regs with
  | [] => ret tt
  | (event, h) :: regs' => let* _ := HandleFunc event h in registerAll regs'
  end.

(** The invariant that makes [sendRaw] safe: a connected [Conn] has a
    writer.  [Connect] sets the writer before it sets the flag. *)
Definition wf (c : Conn) : Prop := connected c = true -> is_Some (writer c).

(** The calls a user of the package can make on a connection, on the runs
    in which they return or panic: [CallQuit] is a [Quit] whose [sendRaw]
    returns. *)
Inductive call :=
| CallHandleFunc (tag : string) (h : handler)
| CallSetDebugSend (fn : option debugHook)
| CallConnect (dial : error + W)
| CallRaw (cmd : string)
| CallJoin (channel : string)
| CallPart (channel : string)
| CallPrivmsg (target message : string)
| CallQuit (sched : schedule) (message : string).

Definition run (k : call) : M unit :=
  match k with
  | CallHandleFunc tag h => HandleFunc tag h
  | CallSetDebugSend fn => SetDebugSend fn
  | CallConnect dial => let* _ := Connect dial in ret tt
  | CallRaw cmd => Raw cmd
  | CallJoin channel => Join_ channel
  | CallPart channel => Part channel
  | CallPrivmsg target message => Privmsg target message
  | CallQuit sched message => quitSteps sched message
  end.

(** The connections a program can come to: it starts from [Client], makes
    calls, and its read loops dispatch lines and end. *)
Inductive reachable : Conn -> Prop :=
| reachable_Client cfg : reachable (Client cfg)
| reachable_call c k : reachable c -> reachable (stateOf (run k c))
| reachable_dispatch c tag line :
    reachable c -> reachable (stateOf (dispatch tag line c))
| reachable_readLoop c ins r :
    reachable c -> readLoop ins c = Some r -> reachable (stateOf r).

(** A computation that keeps the invariant, whether it returns or panics. *)
Definition keeps {A} (m : M A) : Prop := ∀ c, wf c -> wf (stateOf (m c)).

End Connection.

Arguments Conn W : clear implicits.
Arguments result W A : clear implicits.
Arguments M W A : clear implicits.
Arguments Ok {W A} a c.
Arguments Panic {W A} why c.

Arguments wf {W} c.
Arguments sameControl {W} c c'.
Arguments extends {W} P c c'.
Arguments call W : clear implicits.

(** ** Two writers to run the program on *)

(** A writer that keeps what it is given in a buffer until it is flushed to
    the wire, and never fails. *)
Record wire := mkWire { buffered : string; sent : string }.

#[global] Instance wire_transport : Transport wire :=
  {| WriteString := fun w data => (mkWire (buffered w +:+ data) (sent w), None);
     Flush := fun w => (mkWire "" (sent w +:+ buffered w), None) |}.

(** A writer whose socket is gone: every write fails. *)
Inductive brokenPipe := BrokenPipe.

#[global] Instance brokenPipe_transport : Transport brokenPipe :=
  {| WriteString := fun w _ => (w, Some "write: broken pipe");
     Flush := fun w => (w, Some "write: broken pipe") |}.


(** A connection to run the program on: a client for the nick "me" with
    one handler for PING and one for every event, connected over [wire]. *)
Definition exampleClient : Conn wire :=
  stateOf (registerAll [("PING", Handler 1); ("*", Handler 2)]
                       (Client (NewConfig "me"))).

Definition exampleConn : Conn wire :=
  stateOf (Connect (inr (mkWire "" "")) exampleClient).

(** The same client connected over a socket that is gone. *)
Definition exampleBroken : Conn brokenPipe :=
  stateOf (Connect (inr BrokenPipe)
             (stateOf (registerAll [("PING", Handler 1); ("*", Handler 2)]
                                   (Client (NewConfig "me"))))).

(** The line "PING :server.example", parsed. *)
Definition examplePing : Line := mkLine "" "" "PING" ["server.example"].

(** A run of the read loop: a PING line, a timeout, then a [Quit] elsewhere;
    and the result of the loop on it. *)
Definition exampleInput : list stimulus :=
  [Read (ReadLine ("PING :server.example" +:+ CRLF)); Read ReadTimeout; Cancel].

Definition exampleExit : result wire unit :=
  default (Panic "" exampleConn)
          (readLoop (H0 := asciiTables) exampleInput exampleConn).

(** The example connection after its read loop ended on a failed read, and
    after a second [Connect] on the same connection. *)
Definition exampleDropped : Conn wire :=
  stateOf (default (Panic "" exampleConn)
             (readLoop (H0 := asciiTables) [Read ReadFailed] exampleConn)).

Definition exampleReconnected : Conn wire :=
  stateOf (Connect (inr (mkWire "" "")) exampleDropped).

(** The connection after a [Quit] during which the read loop finished, and
    after a [Quit] during which it did not. *)
Definition afterQuit : Conn wire :=
  stateOf (quitSteps LoopExitsInTime "bye" exampleConn).

Definition afterStalledQuit : Conn wire :=
  stateOf (quitSteps LoopStalls "bye" exampleConn).

(** A client with two handlers under "*", and a client with one handler
    under the empty tag. *)
Definition starClient : Conn wire :=
  stateOf (registerAll [("*", Handler 1); ("*", Handler 2)] (Client (NewConfig "me"))).

Definition emptyTagClient : Conn wire :=
  stateOf (registerAll [("", Handler 7)] (Client (NewConfig "me"))).

End IRC.

(* ===================================================================== *)
(** * main.go: the NAMES bookkeeping of the front end *)
(* ===================================================================== *)

Module App.
Import GoStrings.

(** [type model struct], the fields the two handlers below and their
    neighbours ([handleJoin], [handlePart], [handleQuit]) keep: the users of
    each channel, the joined channels and the current one.  The other fields
    are the widgets, which [updateSidebars] redraws from these. *)
Record model := mkModel {
  channelUsers : gmap string (list string);
  channels : list string;
  channel : string
}.

Definition withChannelUsers (m : model) (v : gmap string (list string)) : model :=
  mkModel v (channels m) (channel m).

(** [m.updateSidebars()] writes widget geometry and content only. *)
Definition updateSidebars (m : model) : model := m.

(** [data[key]] on a [map[string]string]: the empty string when absent. *)
Definition field (data : gmap string string) (key : string) : string :=
  default "" (data !! key).

(** [func handleNames(m *model, eventType string, data map[string]string)]. *)
Definition handleNames (m : model) (eventType : string) (data : gmap string string) : model :=
  let channel := field data "channel" in
  let names := Split (field data "users") " " in
  match channelUsers m !! channel with
  | Some existing =>
      withChannelUsers m (<[channel := existing ++ names]> (channelUsers m))
  | None =>
      withChannelUsers m (<[channel := names]> (channelUsers m))
  end.

(** The loop of [handleEndOfNames]: [users] is what is left of the range,
    [cleaned] the [map[string]bool] of names seen, [cleanedList] the result
    so far. *)
Fixpoint cleanLoop (users : list string) (cleaned : gmap string bool)
    (cleanedList : list string) : list string :=
  match users with
  | [] => cleanedList
  | user :: rest =>
      let cleanUser := TrimLeft user "@+%~&" in
      if bool_decide (cleanUser ≠ "") && negb (default false (cleaned !! cleanUser))
      then cleanLoop rest (<[cleanUser := true]> cleaned) (cleanedList ++ [cleanUser])
      else cleanLoop rest cleaned cleanedList
  end.

Definition cleanUsers (users : list string) : list string :=
  cleanLoop users ∅ [].

(** [func handleEndOfNames(m *model, eventType string, data map[string]string)]. *)
Definition handleEndOfNames (m : model) (eventType : string) (data : gmap string string) : model :=
  let channel := field data "channel" in
  let m := match channelUsers m !! channel with
           | Some users =>
               withChannelUsers m (<[channel := cleanUsers users]> (channelUsers m))
           | None => m
           end in
  updateSidebars m.

(** The payload of a NAMES event, as the 353 handler of [setupIRCHandlers]
    builds it, and of an ENDOFNAMES event, as the 366 handler does. *)
Definition namesData (channel users : string) : gmap string string :=
  <["channel" := channel]> (<["users" := users]> ∅).

Definition endOfNamesData (channel : string) : gmap string string :=
  <["channel" := channel]> ∅.

(** A cleaned name: not empty, and no mode prefix left in front. *)
Definition cleanName (u : string) : Prop :=
  u ≠ "" ∧ TrimLeft u "@+%~&" = u.

(** The map of seen names holds exactly the names of the list built so far. *)
Definition tracks (cleaned : gmap string bool) (l : list string) : Prop :=
  ∀ x, default false (cleaned !! x) = true ↔ x ∈ l.

End App.

(* ===================================================================== *)
(** * main.go: helpers, channel bookkeeping and the event bridge *)
(* ===================================================================== *)

Module Front.
Import GoStrings IRC App.

(** ** Helpers without state *)

(** [func truncateString(s string, maxLen int) string]; [None] is the panic
    of a slice expression. *)
Definition truncateString (s : string) (maxLen : Z) : option string :=
  if (len s <=? maxLen)%Z then Some s
  else if (maxLen <=? 3)%Z then sliceToInt s maxLen
  else t ← sliceToInt s (maxLen - 3); Some (t +:+ "...").

(** The last step of [truncateAndPad]: pad with spaces up to [width]. *)
Definition padTo (s : string) (width : Z) : string :=
  if (len s <? width)%Z then s +:+ Repeat " " (Z.to_nat (width - len s)) else s.

(** [func truncateAndPad(s string, width int) string]. *)
Definition truncateAndPad (s : string) (width : Z) : option string :=
  if (width <? len s)%Z then
    if (width <=? 3)%Z then sliceToInt s width
    else t ← sliceToInt s (width - 3); Some (padTo (t +:+ "...") width)
  else Some (padTo s width).

(** [func parseServerAddress(addr string) (server, port string)]. *)
Definition parseServerAddress (addr : string) : string * string :=
  let addr := ReplaceAll addr "/" ":" in
  match Split addr ":" with
  | [server; port] => (server, port)
  | _ => (addr, "6667")
  end.

(** The [useTLS] of [initialModel]: TLS on the usual TLS ports. *)
Definition useTLS (port : string) : bool :=
  bool_decide (port = "6697") || bool_decide (port = "7000")
  || bool_decide (port = "7001") || bool_decide (port = "9999").

(** [func contains(slice []string, item string) bool]. *)
Fixpoint contains (slice : list string) (item : string) : bool :=
  match slice with
  | [] => false
  | s :: rest => if decide (s = item) then true else contains rest item
  end.

(** The loop that [handlePart], [handleQuit] and [removeChannel] each write
    out: the elements of [slice] other than [item], in order. *)
Fixpoint without (slice : list string) (item : string) : list string :=
  match slice with
  | [] => []
  | s :: rest => if decide (s ≠ item) then s :: without rest item else without rest item
  end.

(** The loop of [findChannelIndex], from index [i] on. *)
Fixpoint indexFrom (i : Z) (slice : list string) (item : string) : Z :=
  match slice with
  | [] => (-1)%Z
  | s :: rest => if decide (s = item) then i else indexFrom (i + 1)%Z rest item
  end.

(** ** The model and its handlers *)

(** More of [type model struct], around the fields of [App.model]: our own
    nick, the chat lines, the selected row of the channel list and the TLS
    flag. *)
Record ui := mkUi {
  base : model;
  nick : string;
  messages : list string;
  selectedChanIdx : Z;
  tls : bool
}.

Definition withBase (u : ui) (v : model) : ui :=
  mkUi v (nick u) (messages u) (selectedChanIdx u) (tls u).
Definition withMessages (u : ui) (v : list string) : ui :=
  mkUi (base u) (nick u) v (selectedChanIdx u) (tls u).
Definition withSelectedChanIdx (u : ui) (v : Z) : ui :=
  mkUi (base u) (nick u) (messages u) v (tls u).
Definition withChannels (m : model) (v : list string) : model :=
  mkModel (channelUsers m) v (channel m).
Definition withChannel (m : model) (v : string) : model :=
  mkModel (channelUsers m) (channels m) v.

(** [func (m *model) findChannelIndex(channel string) int]. *)
Definition findChannelIndex (u : ui) (ch : string) : Z :=
  indexFrom 0 (channels (base u)) ch.

(** The renderings of a chat line ([fmtSys], [fmtErr], [fmtMsg] and the
    styles used in place by [handleMOTD], [handleNotice], [handleList] and
    [handleDebug]).  They are built with the terminal styling library from
    the state of the widgets; here each takes the model it is called on and
    is otherwise unknown. *)
Class Renderer := {
  fmtSys : ui -> string -> string -> string;
  fmtErr : ui -> string -> string -> string;
  fmtDebug : ui -> string -> string -> string;
  fmtMsg : ui -> string -> string -> string -> string -> string;
  fmtMotd : ui -> string -> string -> string;
  fmtNotice : ui -> string -> string -> string -> string;
  fmtList : ui -> string -> string -> string -> string -> string
}.

Section Handlers.
Context `{Renderer}.

(** [func (m *model) addMessage(msg string)]: keep the last 500 lines. *)
Definition addMessage (u : ui) (msg : string) : ui :=
  let ms := messages u ++ [msg] in
  let ms := if 500 <? length ms then drop (length ms - 500) ms else ms in
  withMessages u ms.

(** [func handleSystemMessage]: one chat line.  [ts] is the clock reading
    the handler takes, here and below. *)
Definition handleSystemMessage (u : ui) (ts : string) (data : gmap string string) : ui :=
  addMessage u (fmtSys u ts (field data "message")).

(** [func handleJoin(m *model, eventType string, data map[string]string)]. *)
Definition handleJoin (u : ui) (ts : string) (data : gmap string string) : ui :=
  let nick_ := field data "nick" in
  let ch := field data "channel" in
  let m := base u in
  let m :=
    if decide (nick_ = nick u) then
      let m := withChannel m ch in
      if negb (contains (channels m) ch) then withChannels m (channels m ++ [ch]) else m
    else
      match channelUsers m !! ch with
      | Some users =>
          if negb (contains users nick_)
          then withChannelUsers m (<[ch := users ++ [nick_]]> (channelUsers m))
          else m
      | None => withChannelUsers m (<[ch := [nick_]]> (channelUsers m))
      end in
  let u := withBase u (updateSidebars m) in
  addMessage u (fmtSys u ts (nick_ +:+ " joined " +:+ ch)).

(** [func handleQuit]: the user leaves every channel. *)
Definition handleQuit (u : ui) (ts : string) (data : gmap string string) : ui :=
  let nick_ := field data "nick" in
  let reason := field data "reason" in
  let m := base u in
  let m := withChannelUsers m ((fun users => without users nick_) <$> channelUsers m) in
  let u := withBase u (updateSidebars m) in
  if decide (reason ≠ "")
  then addMessage u (fmtSys u ts (nick_ +:+ " has quit (" +:+ reason +:+ ")"))
  else addMessage u (fmtSys u ts (nick_ +:+ " has quit")).

(** [func handlePart]. *)
Definition handlePart (u : ui) (ts : string) (data : gmap string string) : ui :=
  let nick_ := field data "nick" in
  let ch := field data "channel" in
  let m := base u in
  let '(m, sel) :=
    if decide (nick_ = nick u) then
      let m := withChannels m (without (channels m) ch) in
      let '(m, sel) :=
        if decide (channel m = ch) then
          match channels m with
          | first :: _ => (withChannel m first, 0%Z)
          | [] => (withChannel m "", selectedChanIdx u)
          end
        else (m, selectedChanIdx u) in
      (withChannelUsers m (delete ch (channelUsers m)), sel)
    else
      match channelUsers m !! ch with
      | Some users =>
          (withChannelUsers m (<[ch := without users nick_]> (channelUsers m)),
           selectedChanIdx u)
      | None => (m, selectedChanIdx u)
      end in
  let u := withSelectedChanIdx (withBase u (updateSidebars m)) sel in
  addMessage u (fmtSys u ts (nick_ +:+ " left " +:+ ch)).

(** [func handlePrivmsg]. *)
Definition handlePrivmsg (u : ui) (ts : string) (data : gmap string string) : ui :=
  let nick_ := field data "nick" in
  let target := field data "target" in
  let message := field data "message" in
  let m := base u in
  let '(m, displayTarget) :=
    if decide (target = nick u) then
      (if negb (contains (channels m) nick_)
       then updateSidebars (withChannels m (channels m ++ [nick_])) else m,
       nick_)
    else if HasPrefix target "#" then
      (match channelUsers m !! target with
       | Some users =>
           if negb (contains users nick_)
           then withChannelUsers m (<[target := users ++ [nick_]]> (channelUsers m))
           else m
       | None => withChannelUsers m (<[target := [nick_]]> (channelUsers m))
       end,
       target)
    else
      (if negb (contains (channels m) target)
       then updateSidebars (withChannels m (channels m ++ [target])) else m,
       target) in
  let u := withBase u m in
  addMessage u (fmtMsg u ts displayTarget nick_ message).

(** [func (m *model) removeChannel(channel string)]. *)
Definition removeChannel (u : ui) (ch : string) : ui :=
  let m := base u in
  let m := withChannels m (without (channels m) ch) in
  let m := withChannelUsers m (delete ch (channelUsers m)) in
  let '(m, sel) :=
    if decide (channel m = ch) then
      match channels m with
      | first :: _ => (withChannel m first, 0%Z)
      | [] => (withChannel m "", selectedChanIdx u)
      end
    else (m, selectedChanIdx u) in
  let n := Z.of_nat (length (channels m)) in
  let sel := if (n <=? sel)%Z && (0 <? n)%Z then (n - 1)%Z else sel in
  withSelectedChanIdx (withBase u (updateSidebars m)) sel.

(** [func handleError]. *)
Definition handleError (u : ui) (ts : string) (data : gmap string string) : ui :=
  let message := field data "message" in
  let u := addMessage u (fmtErr u ts message) in
  if decide (field data "remove_channel" = "true") then
    if decide (field data "channel" ≠ "") then removeChannel u (field data "channel")
    else u
  else u.

(** [handleNames] and [handleEndOfNames] on the larger record. *)
Definition handleNames (u : ui) (data : gmap string string) : ui :=
  withBase u (App.handleNames (base u) "NAMES" data).

Definition handleEndOfNames (u : ui) (data : gmap string string) : ui :=
  withBase u (App.handleEndOfNames (base u) "ENDOFNAMES" data).

(** [func handleMOTD], [func handleNotice], [func handleDebug]: one chat
    line each. *)
Definition handleMOTD (u : ui) (ts : string) (data : gmap string string) : ui :=
  addMessage u (fmtMotd u ts (field data "message")).

Definition handleNotice (u : ui) (ts : string) (data : gmap string string) : ui :=
  addMessage u (fmtNotice u ts (field data "sender") (field data "message")).

Definition handleDebug (u : ui) (ts : string) (data : gmap string string) : ui :=
  addMessage u (fmtDebug u ts (field data "message")).

(** [func handleList]: one line of the channel list, in three columns.
    [chatWidth] is [m.chat.Width]. *)
Definition handleList (u : ui) (ts : string) (chatWidth : Z)
    (data : gmap string string) : option ui :=
  let chatWidth := if (chatWidth <=? 0)%Z then 80%Z else chatWidth in
  let availableWidth := (chatWidth - 5 - 20 - 8 - 4)%Z in
  let availableWidth := if (availableWidth <? 10)%Z then 10%Z else availableWidth in
  channelPadded ← truncateAndPad (field data "channel") 20;
  usersPadded ← truncateAndPad ("[" +:+ field data "users" +:+ "]") 8;
  topicTruncated ← truncateString (field data "topic") availableWidth;
  Some (addMessage u (fmtList u ts channelPadded usersPadded topicTruncated)).

End Handlers.

(** ** The event bridge of [setupIRCHandlers] *)

(** [type ircMessage struct], without the time stamp [send] puts on it. *)
Record ircMessage := mkMsg {
  msgType : string;
  msgData : gmap string string
}.

(** [sendError]: an ERROR event with a message only. *)
Definition sendError (message : string) : ircMessage :=
  mkMsg "ERROR" (<["message" := message]> ∅).

(** [permanentErrors[errorCode]]. *)
Definition permanentErrors (errorCode : string) : bool :=
  bool_decide (errorCode = "401") || bool_decide (errorCode = "403").

(** [sendChannelError]. *)
Definition sendChannelError (errorCode message channel : string) : ircMessage :=
  let data := <["message" := message]> (<["channel" := channel]> ∅) in
  let data := if permanentErrors errorCode
              then <["remove_channel" := "true"]> data else data in
  mkMsg "ERROR" data.

(** [sendServerInfo] and [sendMOTD]. *)
Definition sendServerInfo (line : Line) : option ircMessage :=
  if 0 <? length (Args line)
  then Some (mkMsg "SERVER_INFO" (<["message" := Join (Args line) " "]> ∅))
  else None.

Definition sendMOTD (line : Line) : option ircMessage :=
  if 0 <? length (Args line)
  then Some (mkMsg "MOTD" (<["message" := Join (Args line) " "]> ∅))
  else None.

(** The handler of a code of [errorHandlers] that names a channel or nick:
    [format] is the text before the name. *)
Definition channelErrorHandler (code format : string) (line : Line) : option ircMessage :=
  match Args line with
  | _ :: target :: _ => Some (sendChannelError code (format +:+ target) target)
  | _ => None
  end.

(** The handlers [setupIRCHandlers] registers, each as the event it sends
    for a line ([None]: it sends nothing), in the order of the source; the
    ten of the [errorHandlers] map come last, in the order they are
    written. *)
Definition setupIRCHandlers (verbose : bool) : list (string * (Line -> option ircMessage)) :=
  (if verbose then
     [("*", fun line =>
         Some (mkMsg "DEBUG" (<["message" :=
           "RECV CMD=" +:+ Cmd line +:+ " NICK=" +:+ Nick line +:+ " SRC=" +:+ Src line
           +:+ " ARGS=[" +:+ Join (Args line) " " +:+ "]"]> ∅)))]
   else []) ++
  [ ("001", fun _ => Some (mkMsg "CONNECTED" (<["message" := "Connected to server"]> ∅)));
    ("PRIVMSG", fun line =>
       match Args line with
       | a0 :: a1 :: _ =>
           Some (mkMsg "PRIVMSG"
                   (<["nick" := Nick line]> (<["target" := a0]> (<["message" := a1]> ∅))))
       | _ => None
       end);
    ("JOIN", fun line =>
       match Args line with
       | a0 :: _ => Some (mkMsg "JOIN" (<["nick" := Nick line]> (<["channel" := a0]> ∅)))
       | _ => None
       end);
    ("PART", fun line =>
       match Args line with
       | a0 :: _ => Some (mkMsg "PART" (<["nick" := Nick line]> (<["channel" := a0]> ∅)))
       | _ => None
       end);
    ("QUIT", fun line =>
       let data := <["nick" := Nick line]> ∅ in
       Some (mkMsg "QUIT" (match Args line with
                           | a0 :: _ => <["reason" := a0]> data
                           | [] => data
                           end)));
    ("353", fun line =>
       match Args line with
       | _ :: _ :: a2 :: a3 :: _ => Some (mkMsg "NAMES" (namesData a2 a3))
       | _ => None
       end);
    ("366", fun line =>
       match Args line with
       | _ :: a1 :: _ => Some (mkMsg "ENDOFNAMES" (endOfNamesData a1))
       | _ => None
       end);
    ("322", fun line =>
       match Args line with
       | _ :: a1 :: a2 :: a3 :: _ =>
           Some (mkMsg "LIST"
                   (<["channel" := a1]> (<["users" := a2]> (<["topic" := a3]> ∅))))
       | _ => None
       end);
    ("323", fun _ => Some (mkMsg "LISTEND" (<["message" := "End of channel list"]> ∅)));
    ("321", fun _ => Some (mkMsg "LISTSTART" (<["message" := "Channel list:"]> ∅)));
    ("001", fun line =>
       if 0 <? length (Args line)
       then Some (mkMsg "WELCOME" (<["message" := Join (Args line) " "]> ∅))
       else None);
    ("002", sendServerInfo); ("003", sendServerInfo);
    ("004", sendServerInfo); ("005", sendServerInfo);
    ("375", sendMOTD); ("372", sendMOTD); ("376", sendMOTD);
    ("251", sendServerInfo); ("255", sendServerInfo);
    ("265", sendServerInfo); ("266", sendServerInfo);
    ("NOTICE", fun line =>
       match Args line with
       | _ :: a1 :: _ =>
           let sender := Nick line in
           let sender := if bool_decide (sender = "") && bool_decide (Src line ≠ "")
                         then Src line else sender in
           Some (mkMsg "NOTICE" (<["sender" := sender]> (<["message" := a1]> ∅)))
       | _ => None
       end);
    ("DISCONNECTED", fun _ => Some (sendError "Disconnected from server"));
    ("ERROR", fun line =>
       let errMsg := if 0 <? length (Args line) then Join (Args line) " "
                     else "Unknown error" in
       if Contains errMsg "TLS" || Contains errMsg "SSL"
       then Some (mkMsg "TLS_ERROR" (<["message" := errMsg]> ∅))
       else Some (sendError errMsg)) ] ++
  map (fun code => (code, fun line : Line =>
         match Args line with
         | _ :: rest => match rest with
                        | _ :: _ => Some (sendError (Join rest " "))
                        | [] => None
                        end
         | [] => None
         end))
      ["477"; "489"; "520"] ++
  [ ("401", channelErrorHandler "401" "No such nick: ");
    ("403", channelErrorHandler "403" "No such channel: ");
    ("404", channelErrorHandler "404" "Cannot send to channel: ");
    ("415", fun line =>
       match Args line with
       | _ :: ch :: rest => Some (sendChannelError "415" (Join (ch :: rest) " ") ch)
       | _ => None
       end);
    ("433", fun line =>
       match Args line with
       | _ :: a1 :: _ => Some (sendError ("Nickname already in use: " +:+ a1))
       | _ => None
       end);
    ("451", fun line =>
       if 1 <=? length (Args line) then Some (sendError (Join (Args line) " "))
       else Some (sendError "You have not registered"));
    ("471", channelErrorHandler "471" "Channel is full: ");
    ("473", channelErrorHandler "473" "Channel is invite-only: ");
    ("474", channelErrorHandler "474" "Banned from channel: ");
    ("475", channelErrorHandler "475" "Bad channel key: ") ].

(** The closures registered under [tag], in order. *)
Fixpoint closuresUnder {A} (tag : string) (regs : list (string * A)) : list A :=
  match regs with
  | [] => []
  | (e, h) :: regs' =>
      if decide (e = tag) then h :: closuresUnder tag regs' else closuresUnder tag regs'
  end.

(** The events that reach the queue when [dispatch] launches the handlers
    of a line: those of the handlers of its command, then those of the
    handlers of "*".  (The goroutines may deliver them in any order.) *)
Definition emitted (verbose : bool) (line : Line) : list ircMessage :=
  omap (fun h => h line)
       (closuresUnder (Cmd line) (setupIRCHandlers verbose)
        ++ closuresUnder "*" (setupIRCHandlers verbose)).

Section Update.
Context `{Renderer}.

(** [func handleTLSError]: the error line, and with TLS in use the notice
    and the RECONNECT event its goroutine queues half a second later. *)
Definition handleTLSError (u : ui) (ts : string) (data : gmap string string)
    : ui * list ircMessage :=
  let u := addMessage u (fmtErr u ts (field data "message")) in
  if tls u
  then (addMessage u (fmtSys u ts "Attempting to reconnect without TLS..."),
        [mkMsg "RECONNECT" ∅])
  else (u, []).

(** [func (m *model) handleIRCMessage(msg ircMessage)] over the table of
    [registerIRCEventHandlers]: the model afterwards and the events queued
    for later; [None] is a panic.  An event of a type without a handler is
    dropped. *)
Definition handleIRCMessage (u : ui) (ts : string) (chatWidth : Z) (msg : ircMessage)
    : option (ui * list ircMessage) :=
  let t := msgType msg in
  let data := msgData msg in
  if bool_decide (t ∈ ["CONNECTED"; "WELCOME"; "SERVER_INFO"; "LISTSTART"; "LISTEND";
                        "RECONNECTED"])
  then Some (handleSystemMessage u ts data, [])
  else if decide (t = "MOTD") then Some (handleMOTD u ts data, [])
  else if decide (t = "NOTICE") then Some (handleNotice u ts data, [])
  else if decide (t = "PRIVMSG") then Some (handlePrivmsg u ts data, [])
  else if decide (t = "JOIN") then Some (handleJoin u ts data, [])
  else if decide (t = "PART") then Some (handlePart u ts data, [])
  else if decide (t = "QUIT") then Some (handleQuit u ts data, [])
  else if decide (t = "NAMES") then Some (handleNames u data, [])
  else if decide (t = "ENDOFNAMES") then Some (handleEndOfNames u data, [])
  else if decide (t = "LIST") then u' ← handleList u ts chatWidth data; Some (u', [])
  else if decide (t = "ERROR") then Some (handleError u ts data, [])
  else if decide (t = "TLS_ERROR") then Some (handleTLSError u ts data)
  else if decide (t = "RECONNECT") then Some (u, [])
  else if decide (t = "DEBUG") then Some (handleDebug u ts data, [])
  else Some (u, []).

End Update.

(** A renderer without styling, to run the handlers on. *)
Definition plainRenderer : Renderer :=
  {| fmtSys := fun _ ts body => ts +:+ " " +:+ body;
     fmtErr := fun _ ts body => ts +:+ " ! " +:+ body;
     fmtDebug := fun _ ts body => ts +:+ " [debug] " +:+ body;
     fmtMsg := fun _ ts ch user body => ts +:+ " " +:+ ch +:+ " " +:+ user +:+ " " +:+ body;
     fmtMotd := fun _ ts body => ts +:+ " " +:+ body;
     fmtNotice := fun _ ts sender body => ts +:+ " [" +:+ sender +:+ "] " +:+ body;
     fmtList := fun _ ts ch users topic => ts +:+ " " +:+ ch +:+ " " +:+ users +:+ " " +:+ topic |}.

(** The fields of [initialModel(server, port, nick, verbose)] kept here. *)
Definition initialModel (port nick_ : string) : ui :=
  mkUi (mkModel ∅ [] "") nick_ [] 0 (useTLS port).

(** ** What the handlers keep in order *)

(** The channel list has no repetition, the current channel is in it unless
    it is the empty string, and there are at most 500 chat lines. *)
Definition tidy (u : ui) : Prop :=
  NoDup (channels (base u))
  ∧ (channel (base u) = "" ∨ channel (base u) ∈ channels (base u))
  ∧ length (messages u) ≤ 500.

(** No user appears twice in the list of a channel. *)
Definition usersTidy (u : ui) : Prop :=
  ∀ ch users, channelUsers (base u) !! ch = Some users -> NoDup users.

End Front.

(* ===================================================================== *)
(** * irc.go: series of calls *)
(* ===================================================================== *)

Module Calls.
Import GoStrings IRC.

Section Calls.
Context {W : Type} `{Transport W} `{UnicodeTables}.

(** A series of calls on one connection; a panic ends it. *)
Fixpoint runAll (ks : list (call W)) : M W unit :=
  match ks with
  | [] => ret tt
  | k :: ks' => bind (run k) (fun _ => runAll ks')
  end.

(** The reads that the loop passes over: a timeout, and a line that is
    empty once trimmed. *)
Definition skipped (i : stimulus) : bool :=
  match i with
  | Read ReadTimeout => true
  | Read (ReadLine s) => bool_decide (TrimSpace s = "")
  | _ => false
  end.

(** A computation that leaves an aspect [f] of the connection as it was. *)
Definition leaves {A X} (f : Conn W -> X) (m : M W A) : Prop :=
  ∀ c, f (stateOf (m c)) = f c.

End Calls.

(** All the bytes a [wire] was given, in order: those on the wire and those
    still in the buffer. *)
Definition accepted (w : wire) : string := sent w +:+ buffered w.

End Calls.

(* ===================================================================== *)
(** * Facts about the string functions *)
(* ===================================================================== *)

Module GoStringsFacts.
Import GoStrings.

Lemma Split_nonempty s sep : Split s sep <> [].
Proof.
  destruct s as [|a s]; simpl; [discriminate|].
  destruct (decide (a = sep)); [discriminate|].
  destruct (Split s sep); discriminate.
Qed.

Lemma Split_no_sep s sep : hasByte sep s = false -> Split s sep = [s].
Proof.
  induction s as [|a s IH]; simpl; [reflexivity|].
  destruct (decide (a = sep)); [discriminate|].
  intros Hs. rewrite (IH Hs). reflexivity.
Qed.

Lemma Split_app_sep a b sep :
  hasByte sep a = false ->
  Split (a +:+ String sep b) sep = a :: Split b sep.
Proof.
  induction a as [|c a IH]; simpl.
  - intros _. destruct (decide (sep = sep)); [reflexivity|congruence].
  - destruct (decide (c = sep)); [discriminate|].
    intros Ha. rewrite (IH Ha). reflexivity.
Qed.

Lemma SplitN2_app_sep a b sep :
  hasByte sep a = false ->
  SplitN (a +:+ String sep b) sep 2 = [a; b].
Proof.
  induction a as [|c a IH]; simpl.
  - intros _. destruct (decide (sep = sep)); [|congruence].
    destruct b; reflexivity.
  - destruct (decide (c = sep)); [discriminate|].
    intros Ha. rewrite (IH Ha). reflexivity.
Qed.

Lemma SplitN2_no_sep s sep : hasByte sep s = false -> SplitN s sep 2 = [s].
Proof.
  induction s as [|a s IH]; simpl; [reflexivity|].
  destruct (decide (a = sep)); [discriminate|].
  intros Hs. rewrite (IH Hs). reflexivity.
Qed.

(** Joining what was split gives the string back. *)
Lemma Join_Split s sep : Join (Split s sep) (String sep EmptyString) = s.
Proof.
  induction s as [|a s IH]; simpl; [reflexivity|].
  destruct (decide (a = sep)) as [->|Hne].
  - destruct (Split s sep) as [|w ws] eqn:E.
    + exfalso. exact (Split_nonempty _ _ E).
    + simpl. simpl in IH. rewrite IH. reflexivity.
  - destruct (Split s sep) as [|w ws] eqn:E.
    + exfalso. exact (Split_nonempty _ _ E).
    + simpl. simpl in IH. destruct ws as [|w' ws'].
      * congruence.
      * simpl. rewrite <- IH. reflexivity.
Qed.

(** The first piece of a split starts with the first byte of the string,
    unless that byte is the separator. *)
Lemma Split_head a s sep :
  a <> sep -> exists w ws, Split (String a s) sep = String a w :: ws.
Proof.
  intros Hne. simpl. destruct (decide (a = sep)); [congruence|].
  destruct (Split s sep) as [|w ws]; eauto.
Qed.

Lemma Join_cons e rest sep :
  rest <> [] -> Join (e :: rest) sep = e +:+ sep +:+ Join rest sep.
Proof. destruct rest; [congruence|reflexivity]. Qed.

Lemma append_cons x (a b : string) : String x a +:+ b = String x (a +:+ b).
Proof. reflexivity. Qed.

Lemma append_assoc (a b c : string) : (a +:+ b) +:+ c = a +:+ (b +:+ c).
Proof.
  induction a as [|x a IH]; [reflexivity|].
  rewrite !append_cons, IH. reflexivity.
Qed.

End GoStringsFacts.

(* ===================================================================== *)
(** * The line codec *)
(* ===================================================================== *)

Module CodecFacts.
Import GoStrings GoStringsFacts IRC.

Section Codec.
Context `{UnicodeTables}.

Lemma HasPrefix_colon_cons a s : HasPrefix (String a s) ":" = bool_decide (a = ":"%char).
Proof.
  cbn [HasPrefix].
  destruct (decide (a = ":"%char)) as [->|Hne].
  - rewrite bool_decide_eq_true_2 by reflexivity. destruct s; reflexivity.
  - rewrite bool_decide_eq_false_2 by congruence. reflexivity.
Qed.

Lemma HasPrefix_colon_nil : HasPrefix "" ":" = false.
Proof. reflexivity. Qed.

Lemma sliceFrom_0 s : sliceFrom s 0 = Some s.
Proof. destruct s; reflexivity. Qed.

Lemma sliceFrom_1_cons a s : sliceFrom (String a s) 1 = Some s.
Proof. simpl. apply sliceFrom_0. Qed.

(** A string that starts with ":" can always be sliced from 1. *)
Lemma sliceFrom_1_colon s : HasPrefix s ":" = true -> is_Some (sliceFrom s 1).
Proof.
  destruct s as [|a s]; [discriminate|].
  intros _. rewrite sliceFrom_1_cons. eauto.
Qed.

Lemma Join_starts_with p rest sep :
  HasPrefix p ":" = true -> HasPrefix (Join (p :: rest) sep) ":" = true.
Proof.
  destruct p as [|a p]; [discriminate|].
  rewrite HasPrefix_colon_cons. intros Ha.
  destruct rest as [|q rest]; cbn [Join].
  - rewrite HasPrefix_colon_cons. exact Ha.
  - rewrite append_cons, HasPrefix_colon_cons. exact Ha.
Qed.

(** The argument loop never panics. *)
Lemma parseArgs_total parts args : is_Some (parseArgs parts args).
Proof.
  revert args. induction parts as [|p rest IH]; intros args; cbn [parseArgs]; [eauto|].
  destruct (HasPrefix p ":") eqn:Hp; [|apply IH].
  destruct (sliceFrom_1_colon _ (Join_starts_with p rest " " Hp)) as [t Ht].
  rewrite Ht. simpl. eauto.
Qed.

Lemma sliceListFrom_0 {A} (l : list A) : sliceListFrom l 0 = Some l.
Proof. destruct l; reflexivity. Qed.

(** [parseCommand] once the split of the remainder is known. *)
Lemma parseCommand_split line raw p0 ps :
  Split raw " " = p0 :: ps ->
  parseCommand line raw =
    (args ← parseArgs ps (Args line);
     Some (mkLine (Nick line) (Src line) (ToUpper p0) args)).
Proof.
  intros E. unfold parseCommand. rewrite E. cbn.
  rewrite sliceListFrom_0. reflexivity.
Qed.

Lemma parseCommand_total line raw : is_Some (parseCommand line raw).
Proof.
  destruct (Split raw " ") as [|p0 ps] eqn:E; [exfalso; exact (Split_nonempty _ _ E)|].
  rewrite (parseCommand_split _ _ _ _ E).
  destruct (parseArgs_total ps (Args line)) as [args ->]. cbn. eauto.
Qed.

Lemma Index_range s c :
  Index s c = (-1)%Z ∨ (0 ≤ Index s c < Z.of_nat (String.length s))%Z.
Proof.
  induction s as [|a s IH]; cbn [Index String.length]; [by left|].
  destruct (decide (a = c)); [right; lia|].
  destruct (Z.eqb_spec (Index s c) (-1)); [by left|].
  right. destruct IH as [IH|IH]; [contradiction|lia].
Qed.

Lemma sliceTo_total s j : j ≤ String.length s -> is_Some (sliceTo s j).
Proof.
  revert s. induction j as [|j IH]; intros s Hj; [destruct s; cbn; eauto|].
  destruct s as [|a s]; cbn [String.length] in Hj; [lia|].
  cbn [sliceTo]. destruct (IH s) as [t Ht]; [lia|]. rewrite Ht. cbn. eauto.
Qed.

(** The nick extraction of [parseLine] never panics. *)
Lemma nick_total (line : Line) :
  is_Some (if decide (Index (Src line) "!" ≠ (-1)%Z)
           then nick ← sliceTo (Src line) (Z.to_nat (Index (Src line) "!"));
                Some (withNick line nick)
           else Some line).
Proof.
  destruct (decide _) as [Hidx|_]; [|eauto].
  destruct (Index_range (Src line) "!") as [?|Hr]; [contradiction|].
  destruct (sliceTo_total (Src line) (Z.to_nat (Index (Src line) "!"))) as [t Ht]; [lia|].
  rewrite Ht. cbn. eauto.
Qed.

Lemma SplitN2_shape s sep :
  (∃ a, SplitN s sep 2 = [a]) ∨ (∃ a b, SplitN s sep 2 = [a; b]).
Proof.
  induction s as [|c s IH]; cbn [SplitN]; [left; eauto|].
  destruct (decide (c = sep)).
  - right. destruct s; cbn; eauto.
  - destruct IH as [[a ->]|[a [b ->]]]; [left|right]; eauto.
Qed.

(** [parseLine] returns a [Line] on every input: no slice or index expression
    in it can go out of range. *)
Lemma parseLine_total raw : is_Some (parseLine raw).
Proof.
  unfold parseLine. destruct (HasPrefix raw ":") eqn:Hp; [|apply parseCommand_total].
  destruct raw as [|a raw]; [discriminate|]. rewrite sliceFrom_1_cons. cbn [mbind option_bind].
  destruct (SplitN2_shape raw " ") as [[x ->]|[x [y ->]]]; [cbn; eauto|].
  cbn [length Nat.ltb Nat.leb lookup list_lookup mbind option_bind].
  destruct (nick_total (withSrc (mkLine "" "" "" []) x)) as [l Hl].
  rewrite Hl. cbn [mbind option_bind].
  apply parseCommand_total.
Qed.

(** A line that is only a prefix (a colon and no space after it) parses to
    the empty [Line]. *)
Lemma parseLine_prefix_only p :
  hasByte " " p = false -> parseLine (String ":" p) = Some (mkLine "" "" "" []).
Proof.
  intros Hp. unfold parseLine. rewrite HasPrefix_colon_cons.
  rewrite bool_decide_eq_true_2 by reflexivity.
  rewrite sliceFrom_1_cons. cbn [mbind option_bind].
  rewrite (SplitN2_no_sep _ _ Hp). reflexivity.
Qed.

(** Plain parameters are copied one by one. *)
Lemma parseArgs_plain pre rest args :
  Forall plainParam pre -> parseArgs (pre ++ rest) args = parseArgs rest (args ++ pre).
Proof.
  intros Hpre. revert args. induction Hpre as [|p pre [_ Hp] _ IH]; intros args.
  - by rewrite app_nil_r.
  - cbn [app parseArgs]. rewrite Hp, IH, <- app_assoc. reflexivity.
Qed.

(** The pieces of [":" ++ trailing] are glued back into one argument. *)
Lemma parseArgs_trailing trailing args :
  parseArgs (Split (String ":" trailing) " ") args = Some (args ++ [trailing]).
Proof.
  destruct (Split_head ":" trailing " ") as [w [ws E]]; [discriminate|].
  pose proof (Join_Split (String ":" trailing) " ") as HJ.
  rewrite E in *. cbn [parseArgs]. rewrite HasPrefix_colon_cons.
  rewrite bool_decide_eq_true_2 by reflexivity.
  change (String " " EmptyString) with " " in HJ.
  rewrite HJ, sliceFrom_1_cons. reflexivity.
Qed.

Lemma Split_params cmd pre tail :
  hasByte " " cmd = false ->
  Forall plainParam pre ->
  Split (Join (cmd :: pre) " " +:+ String " " tail) " " = cmd :: pre ++ Split tail " ".
Proof.
  intros Hcmd Hpre. revert cmd Hcmd.
  induction Hpre as [|p pre [Hp _] _ IH]; intros cmd Hcmd.
  - cbn [Join app]. by apply Split_app_sep.
  - rewrite Join_cons by discriminate.
    rewrite !append_assoc. change (" " +:+ ?x) with (String " " x).
    rewrite Split_app_sep by done. rewrite IH by done. reflexivity.
Qed.

Lemma Split_params_only cmd pre :
  hasByte " " cmd = false ->
  Forall plainParam pre ->
  Split (Join (cmd :: pre) " ") " " = cmd :: pre.
Proof.
  intros Hcmd Hpre. revert cmd Hcmd.
  induction Hpre as [|p pre [Hp _] _ IH]; intros cmd Hcmd.
  - cbn [Join]. by apply Split_no_sep.
  - rewrite Join_cons by discriminate.
    change (" " +:+ ?x) with (String " " x).
    rewrite Split_app_sep by done. rewrite IH by done. reflexivity.
Qed.

(** The remainder [cmd p1 ... pk :trailing]: the command is upper-cased, the
    plain parameters are kept, and everything after the first " :" is the
    last argument. *)
Lemma parseCommand_trailing line cmd pre trailing :
  hasByte " " cmd = false ->
  Forall plainParam pre ->
  parseCommand line (Join (cmd :: pre) " " +:+ " :" +:+ trailing) =
    Some (mkLine (Nick line) (Src line) (ToUpper cmd) (Args line ++ pre ++ [trailing])).
Proof.
  intros Hcmd Hpre.
  change (" :" +:+ trailing) with (String " " (String ":" trailing)).
  rewrite (parseCommand_split _ _ cmd (pre ++ Split (String ":" trailing) " "))
    by (by apply Split_params).
  rewrite parseArgs_plain by done. rewrite parseArgs_trailing.
  cbn. by rewrite <- app_assoc.
Qed.

(** Without a colon parameter every piece is an argument of its own. *)
Lemma parseCommand_plain line cmd pre :
  hasByte " " cmd = false ->
  Forall plainParam pre ->
  parseCommand line (Join (cmd :: pre) " ") =
    Some (mkLine (Nick line) (Src line) (ToUpper cmd) (Args line ++ pre)).
Proof.
  intros Hcmd Hpre.
  rewrite (parseCommand_split _ _ cmd pre) by (by apply Split_params_only).
  rewrite <- (app_nil_r pre) at 1. rewrite parseArgs_plain by done. reflexivity.
Qed.

Lemma HasPrefix_append_space a b :
  HasPrefix (a +:+ String " " b) ":" = HasPrefix a ":".
Proof.
  destruct a as [|x a]; [reflexivity|].
  rewrite append_cons, !HasPrefix_colon_cons. reflexivity.
Qed.

Lemma Join_cmd_space cmd pre tail :
  ∃ b, Join (cmd :: pre) " " +:+ String " " tail = cmd +:+ String " " b.
Proof.
  destruct pre as [|p pre]; [by eexists|].
  rewrite Join_cons by discriminate. rewrite !append_assoc.
  change (" " +:+ ?x) with (String " " x). by eexists.
Qed.

(** C1.  The line ":nick!user@host PRIVMSG #chan :hello world" parses to
    Nick "nick", Src "nick!user@host", Cmd "PRIVMSG" and Args
    ["#chan"; "hello world"].  In general, with or without a prefix, the
    parameters before the first one that starts with a colon are kept one by
    one, in order, and everything of the remainder after that colon is the
    one last argument. *)
Theorem parseLine_trailing_rule :
  parseLine ":nick!user@host PRIVMSG #chan :hello world"
    = Some (mkLine "nick" "nick!user@host" "PRIVMSG" ["#chan"; "hello world"])
  ∧ (∀ cmd pre trailing,
       hasByte " " cmd = false -> HasPrefix cmd ":" = false ->
       Forall plainParam pre ->
       parseLine (Join (cmd :: pre) " " +:+ " :" +:+ trailing)
         = Some (mkLine "" "" (ToUpper cmd) (pre ++ [trailing])))
  ∧ (∀ src cmd pre trailing,
       hasByte " " src = false -> hasByte " " cmd = false ->
       Forall plainParam pre ->
       ∃ nick,
         parseLine (":" +:+ src +:+ " " +:+ Join (cmd :: pre) " " +:+ " :" +:+ trailing)
           = Some (mkLine nick src (ToUpper cmd) (pre ++ [trailing]))).
Proof.
  split; [vm_compute; reflexivity|]. split.
  - intros cmd pre trailing Hcmd Hcolon Hpre. unfold parseLine.
    change (" :" +:+ trailing) with (String " " (String ":" trailing)).
    destruct (Join_cmd_space cmd pre (String ":" trailing)) as [b Hb].
    rewrite Hb, HasPrefix_append_space, Hcolon, <- Hb.
    apply (parseCommand_trailing (mkLine "" "" "" [])); assumption.
  - intros src cmd pre trailing Hsrc Hcmd Hpre. unfold parseLine.
    change (":" +:+ ?x) with (String ":" x).
    rewrite HasPrefix_colon_cons, bool_decide_eq_true_2 by reflexivity.
    rewrite sliceFrom_1_cons. cbn [mbind option_bind].
    change (" " +:+ ?x) with (String " " x).
    rewrite (SplitN2_app_sep _ _ _ Hsrc).
    cbn [length Nat.ltb Nat.leb lookup list_lookup mbind option_bind].
    destruct (nick_total (withSrc (mkLine "" "" "" []) src)) as [l Hl].
    rewrite Hl. cbn [mbind option_bind].
    assert (Hsrcl : Src l = src ∧ Args l = []).
    { destruct (decide _) in Hl; [|by inversion Hl].
      destruct (sliceTo _ _) in Hl; [|discriminate]. by inversion Hl. }
    destruct Hsrcl as [Hs Ha]. exists (Nick l).
    change (String ":" trailing) with (":" +:+ trailing).
    change (String " " (":" +:+ trailing)) with (" :" +:+ trailing).
    rewrite parseCommand_trailing by assumption. by rewrite Hs, Ha.
Qed.

End Codec.

(** The rule of C1 at the line "JOIN #a :x y". *)
Lemma parseLine_trailing_rule_witness :
  parseLine (H := asciiTables) "JOIN #a :x y"
    = Some (mkLine "" "" "JOIN" ["#a"; "x y"]).
Proof.
  apply (proj1 (proj2 (parseLine_trailing_rule (H := asciiTables))) "JOIN" ["#a"] "x y").
  - reflexivity.
  - reflexivity.
  - repeat constructor.
Defined.


End CodecFacts.

(* ===================================================================== *)
(** * The NAMES bookkeeping *)
(* ===================================================================== *)

Module NamesFacts.
Import GoStrings GoStringsFacts App.

Lemma TrimLeft_idem s cutset : TrimLeft (TrimLeft s cutset) cutset = TrimLeft s cutset.
Proof.
  induction s as [|a s IH]; cbn [TrimLeft]; [reflexivity|].
  destruct (hasByte a cutset) eqn:E; [exact IH|].
  cbn [TrimLeft]. rewrite E. reflexivity.
Qed.

Lemma TrimLeft_length s cutset : String.length (TrimLeft s cutset) ≤ String.length s.
Proof.
  induction s as [|a s IH]; cbn [TrimLeft]; [reflexivity|].
  destruct (hasByte a cutset); cbn [String.length]; lia.
Qed.

(** A string that trimming leaves alone does not start with a cutset byte. *)
Lemma TrimLeft_fixed_head a s cutset :
  TrimLeft (String a s) cutset = String a s -> hasByte a cutset = false.
Proof.
  cbn [TrimLeft]. destruct (hasByte a cutset); [|reflexivity].
  intros E. pose proof (TrimLeft_length s cutset) as Hl.
  rewrite E in Hl. cbn [String.length] in Hl. lia.
Qed.

Lemma tracks_empty : tracks ∅ [].
Proof.
  intros x. rewrite lookup_empty. cbn. split; [discriminate|].
  intros Hx. by apply not_elem_of_nil in Hx.
Qed.

Lemma tracks_insert cleaned l x :
  tracks cleaned l -> tracks (<[x := true]> cleaned) (l ++ [x]).
Proof.
  intros Ht y. rewrite elem_of_app, list_elem_of_singleton.
  destruct (decide (x = y)) as [->|Hne].
  - rewrite lookup_insert_eq. cbn. tauto.
  - rewrite lookup_insert_ne by done. rewrite (Ht y). split; [tauto|].
    intros [?|?]; [done|congruence].
Qed.

Lemma cleanLoop_inv users : ∀ cleaned acc,
  tracks cleaned acc -> NoDup acc -> Forall cleanName acc ->
  NoDup (cleanLoop users cleaned acc) ∧ Forall cleanName (cleanLoop users cleaned acc).
Proof.
  induction users as [|u rest IH]; intros cleaned acc Ht Hnd Hcl; cbn [cleanLoop]; [done|].
  destruct (bool_decide (TrimLeft u "@+%~&" ≠ "")) eqn:Hne; cbn [andb]; [|by apply IH].
  destruct (default false (cleaned !! TrimLeft u "@+%~&")) eqn:Hseen; cbn [negb]; [by apply IH|].
  apply bool_decide_eq_true_1 in Hne.
  apply IH.
  - by apply tracks_insert.
  - apply NoDup_app. split; [done|]. split; [|apply NoDup_singleton].
    intros x Hx Hx'. apply list_elem_of_singleton in Hx'. subst x.
    apply Ht in Hx. congruence.
  - apply Forall_app. split; [done|]. apply Forall_singleton.
    split; [done|apply TrimLeft_idem].
Qed.

Lemma cleanLoop_fixed users : ∀ cleaned acc,
  tracks cleaned acc -> NoDup (acc ++ users) -> Forall cleanName users ->
  cleanLoop users cleaned acc = acc ++ users.
Proof.
  induction users as [|u rest IH]; intros cleaned acc Ht Hnd Hcl; cbn [cleanLoop].
  - by rewrite app_nil_r.
  - apply Forall_cons in Hcl as [[Hne Hfix] Hcl]. rewrite Hfix.
    rewrite bool_decide_eq_true_2 by done. cbn [andb].
    assert (u ∉ acc) as Hfresh.
    { apply NoDup_app in Hnd as (_ & Hdisj & _). intros Hu.
      apply (Hdisj u Hu). by left. }
    destruct (default false (cleaned !! u)) eqn:Hseen.
    { apply Ht in Hseen. contradiction. }
    cbn [negb]. rewrite IH.
    + by rewrite <- app_assoc.
    + by apply tracks_insert.
    + by rewrite <- app_assoc.
    + done.
Qed.

Lemma cleanUsers_clean users :
  NoDup (cleanUsers users) ∧ Forall cleanName (cleanUsers users).
Proof.
  apply cleanLoop_inv; [apply tracks_empty|apply NoDup_nil_2|apply Forall_nil_2].
Qed.

Lemma cleanUsers_idem users : cleanUsers (cleanUsers users) = cleanUsers users.
Proof.
  destruct (cleanUsers_clean users) as [Hnd Hcl].
  unfold cleanUsers at 1. by rewrite cleanLoop_fixed; [|apply tracks_empty|..].
Qed.

Lemma field_channel_names ch us : field (namesData ch us) "channel" = ch.
Proof. unfold field, namesData. by rewrite lookup_insert_eq. Qed.

Lemma field_users_names ch us : field (namesData ch us) "users" = us.
Proof.
  unfold field, namesData. rewrite lookup_insert_ne by discriminate.
  by rewrite lookup_insert_eq.
Qed.

Lemma field_channel_end ch : field (endOfNamesData ch) "channel" = ch.
Proof. unfold field, endOfNamesData. by rewrite lookup_insert_eq. Qed.

(** One NAMES event appends the names of its payload to the list of the
    channel. *)
Lemma handleNames_lookup m e ch us :
  channelUsers (handleNames m e (namesData ch us)) !! ch
    = Some (default [] (channelUsers m !! ch) ++ Split us " ").
Proof.
  unfold handleNames. rewrite field_channel_names, field_users_names.
  destruct (channelUsers m !! ch) as [existing|]; cbn; by rewrite lookup_insert_eq.
Qed.

Lemma handleEndOfNames_lookup m e ch users :
  channelUsers m !! ch = Some users ->
  channelUsers (handleEndOfNames m e (endOfNamesData ch)) !! ch = Some (cleanUsers users).
Proof.
  intros Hm. unfold handleEndOfNames, updateSidebars. rewrite field_channel_end, Hm.
  cbn. by rewrite lookup_insert_eq.
Qed.

(** C9.  From a state with no users recorded for a channel, the NAMES events
    "alice bob" and "carol" followed by ENDOFNAMES leave the list
    ["alice"; "bob"; "carol"] for that channel.  Whatever the two payloads
    are, the list left is the clean-up of their names one after the other;
    a clean-up strips the leading @, +, %, ~ and & of every name, drops the
    names that repeat, and leaves no empty name. *)
Theorem names_accumulate_then_clean :
  (∀ m ch, default [] (channelUsers m !! ch) = [] ->
     channelUsers
       (handleEndOfNames
          (handleNames (handleNames m "NAMES" (namesData ch "alice bob"))
                       "NAMES" (namesData ch "carol"))
          "ENDOFNAMES" (endOfNamesData ch)) !! ch
     = Some ["alice"; "bob"; "carol"])
  ∧ (∀ m ch u1 u2, default [] (channelUsers m !! ch) = [] ->
     channelUsers
       (handleEndOfNames
          (handleNames (handleNames m "NAMES" (namesData ch u1))
                       "NAMES" (namesData ch u2))
          "ENDOFNAMES" (endOfNamesData ch)) !! ch
     = Some (cleanUsers (Split u1 " " ++ Split u2 " ")))
  ∧ cleanUsers (Split "@alice +bob" " " ++ Split "alice %carol ~&dave" " ")
     = ["alice"; "bob"; "carol"; "dave"]
  ∧ (∀ users, NoDup (cleanUsers users) ∧ Forall cleanName (cleanUsers users)).
Proof.
  assert (Hgen : ∀ m ch u1 u2, default [] (channelUsers m !! ch) = [] ->
     channelUsers
       (handleEndOfNames
          (handleNames (handleNames m "NAMES" (namesData ch u1))
                       "NAMES" (namesData ch u2))
          "ENDOFNAMES" (endOfNamesData ch)) !! ch
     = Some (cleanUsers (Split u1 " " ++ Split u2 " "))).
  { intros m ch u1 u2 Hm.
    erewrite handleEndOfNames_lookup; [reflexivity|].
    rewrite handleNames_lookup, handleNames_lookup, Hm. reflexivity. }
  split; [|split; [exact Hgen|split; [vm_compute; reflexivity|apply cleanUsers_clean]]].
  intros m ch Hm. rewrite (Hgen m ch "alice bob" "carol" Hm).
  vm_compute. reflexivity.
Qed.

(** C9 on the model with no channel at all and the channel "#go". *)
Lemma names_accumulate_then_clean_witness :
  channelUsers
    (handleEndOfNames
       (handleNames (handleNames (mkModel ∅ [] "") "NAMES" (namesData "#go" "alice bob"))
                    "NAMES" (namesData "#go" "carol"))
       "ENDOFNAMES" (endOfNamesData "#go")) !! "#go"
  = Some ["alice"; "bob"; "carol"].
Proof.
  apply (proj1 names_accumulate_then_clean (mkModel ∅ [] "") "#go").
  reflexivity.
Defined.

(** C10.  The clean-up of ENDOFNAMES is idempotent: a second ENDOFNAMES for
    the same channel changes nothing, because cleaning a cleaned list gives
    it back; a cleaned list has no duplicates, no empty name and no name that
    starts with @, +, %, ~ or &. *)
Theorem handleEndOfNames_idempotent :
  (∀ m e d, handleEndOfNames (handleEndOfNames m e d) e d = handleEndOfNames m e d)
  ∧ (∀ users, cleanUsers (cleanUsers users) = cleanUsers users)
  ∧ (∀ users,
       NoDup (cleanUsers users)
       ∧ ("" ∉ cleanUsers users)
       ∧ (∀ a rest, String a rest ∈ cleanUsers users -> hasByte a "@+%~&" = false)).
Proof.
  split; [|split; [apply cleanUsers_idem|]].
  - intros m e d. unfold handleEndOfNames, updateSidebars.
    destruct (channelUsers m !! field d "channel") as [users|] eqn:Hm.
    + cbn. rewrite lookup_insert_eq. unfold withChannelUsers. cbn.
      by rewrite insert_insert_eq, cleanUsers_idem.
    + by rewrite Hm.
  - intros users. destruct (cleanUsers_clean users) as [Hnd Hcl].
    rewrite Forall_forall in Hcl. split; [done|]. split.
    + intros Hin. by destruct (Hcl _ Hin).
    + intros a rest Hin. destruct (Hcl _ Hin) as [_ Hfix].
      by apply TrimLeft_fixed_head in Hfix.
Qed.

(** C10 on a list with prefixes and a repeated name. *)
Lemma handleEndOfNames_idempotent_witness :
  cleanUsers (cleanUsers ["@alice"; "+bob"; "alice"]) = cleanUsers ["@alice"; "+bob"; "alice"]
  ∧ hasByte "a" "@+%~&" = false.
Proof.
  split.
  - apply (proj1 (proj2 handleEndOfNames_idempotent)).
  - apply (proj2 (proj2 (proj2 (proj2 handleEndOfNames_idempotent)
                                ["@alice"; "+bob"; "alice"])) "a"%char "lice").
    vm_compute. apply list_elem_of_here.
Defined.

End NamesFacts.

(* ===================================================================== *)
(** * The connection *)
(* ===================================================================== *)

Module ConnFacts.
Import GoStrings GoStringsFacts IRC CodecFacts.

Section Connection.
Context {W : Type} `{Transport W} `{UnicodeTables}.

Implicit Types (c : Conn W) (line : Line) (cmd : string).
Implicit Types (regs : list (string * handler)) (h : handler).

Lemma withTrace_id c : withTrace c (trace c) = c.
Proof. by destruct c. Qed.

Lemma sameControl_refl c : sameControl c c.
Proof. by repeat split. Qed.

Lemma sameControl_trans c1 c2 c3 :
  sameControl c1 c2 -> sameControl c2 c3 -> sameControl c1 c3.
Proof.
  unfold sameControl. intros (?&?&?&?&?&?&?) (?&?&?&?&?&?&?).
  repeat split; congruence.
Qed.

Lemma extends_refl P c : extends P c c.
Proof. exists []. by rewrite app_nil_r. Qed.

Lemma extends_trans P c1 c2 c3 :
  extends P c1 c2 -> extends P c2 c3 -> extends P c1 c3.
Proof.
  intros (e1 & H1 & F1) (e2 & H2 & F2). exists (e1 ++ e2).
  split; [by rewrite H2, H1, app_assoc|by apply Forall_app].
Qed.

Lemma extends_weaken (P Q : event -> Prop) c c' :
  (∀ e, P e -> Q e) -> extends P c c' -> extends Q c c'.
Proof.
  intros HPQ (evs & Ht & Hf). exists evs. split; [done|].
  eapply Forall_impl; eauto.
Qed.

Lemma sendEvent_dispatchEvent e : sendEvent e -> dispatchEvent e.
Proof. by destruct e. Qed.

(** The goroutines are launched in the order of the list. *)
Lemma goEach_run hs line c :
  goEach hs line c = Ok tt (withTrace c (trace c ++ map (fun h => EvGo h line) hs)).
Proof.
  revert c. induction hs as [|h hs IH]; intros c; cbn [goEach map].
  - unfold ret. by rewrite app_nil_r, withTrace_id.
  - unfold bind, emit, modify. rewrite IH. destruct c; cbn.
    by rewrite <- app_assoc.
Qed.

(** ** [sendRaw] *)

Lemma sendRaw_disconnected cmd c :
  connected c = false -> sendRaw cmd c = Ok (Some "not connected") c.
Proof. intros Hc. unfold sendRaw, bind, get, ret. by rewrite Hc. Qed.

(** The events of the debug hook for one command. *)
Lemma sendRaw_connected cmd c w :
  connected c = true -> writer c = Some w ->
  let dbg := match debugSendFn c with
             | Some hook => [EvDebugSend hook cmd]
             | None => []
             end in
  let r := WriteString w (cmd +:+ CRLF) in
  sendRaw cmd c =
    match snd r with
    | Some e =>
        Ok (Some e) (withTrace (withWriter c (Some (fst r)))
                               (trace c ++ dbg ++ [EvWriteString (cmd +:+ CRLF)]))
    | None =>
        let r2 := Flush (fst r) in
        Ok (snd r2) (withTrace (withWriter c (Some (fst r2)))
                               (trace c ++ dbg ++ [EvWriteString (cmd +:+ CRLF); EvFlush]))
    end.
Proof.
  intros Hc Hw. unfold sendRaw, bind, get, ret, emit, modify. rewrite Hc. cbn [negb].
  destruct c as [cf cn cd hs wr q d dbg rd tr]; cbn in *. subst.
  destruct dbg as [hook|]; unfold writerWriteString, writerFlush; cbn;
    destruct (WriteString w (cmd +:+ CRLF)) as [w1 [e|]]; cbn;
    rewrite <- ?app_assoc; cbn; try reflexivity;
    destruct (Flush w1) as [w2 e2]; cbn; rewrite <- ?app_assoc; reflexivity.
Qed.

Lemma sendRaw_nil_writer cmd c :
  connected c = true -> writer c = None ->
  ∃ c', sendRaw cmd c = Panic "invalid memory address or nil pointer dereference" c'
        ∧ sameControl c c' ∧ quit c' = quit c ∧ extends sendEvent c c'.
Proof.
  intros Hc Hw. unfold sendRaw, bind, get, ret, emit, modify. rewrite Hc. cbn [negb].
  destruct c as [cf cn cd hs wr q d dbg rd tr]; cbn in *. subst.
  destruct dbg as [hook|]; unfold writerWriteString; cbn; eexists; (split; [reflexivity|]);
    (split; [by repeat split|]); (split; [done|]).
  - exists [EvDebugSend hook cmd]. split; [done|]. by repeat constructor.
  - apply extends_refl.
Qed.

(** Whatever happens, [sendRaw] touches the writer and the trace only, and
    what it adds to the trace are its own events. *)
Lemma sendRaw_frame cmd c :
  sameControl c (stateOf (sendRaw cmd c))
  ∧ quit (stateOf (sendRaw cmd c)) = quit c
  ∧ extends sendEvent c (stateOf (sendRaw cmd c)).
Proof.
  destruct (connected c) eqn:Hc.
  - destruct (writer c) as [w|] eqn:Hw.
    + rewrite (sendRaw_connected cmd c w Hc Hw). cbn zeta.
      destruct (snd (WriteString w (cmd +:+ CRLF))); cbn [stateOf];
        (split; [by destruct c; repeat split|]); (split; [by destruct c|]);
        eexists; (split; [by destruct c|]);
        destruct (debugSendFn c); by repeat constructor.
    + destruct (sendRaw_nil_writer cmd c Hc Hw) as (c' & -> & ? & ? & ?). by cbn.
  - rewrite (sendRaw_disconnected cmd c Hc). cbn.
    split; [apply sameControl_refl|]. split; [done|apply extends_refl].
Qed.

(** On a well-formed connection [sendRaw] returns. *)
Lemma sendRaw_returns cmd c :
  wf c -> ∃ err c', sendRaw cmd c = Ok err c' ∧ wf c'.
Proof.
  intros Hwf. destruct (connected c) eqn:Hc.
  - destruct (Hwf Hc) as [w Hw]. rewrite (sendRaw_connected cmd c w Hc Hw). cbn zeta.
    destruct (snd (WriteString w (cmd +:+ CRLF))); eexists _, _; (split; [reflexivity|]);
      intros _; by destruct c; cbn; eauto.
  - rewrite (sendRaw_disconnected cmd c Hc). eexists _, _. split; [reflexivity|done].
Qed.

(** What [sendRaw] writes: the command and CRLF, once, when connected;
    nothing otherwise. *)
Lemma sendRaw_writes cmd c err c' evs :
  sendRaw cmd c = Ok err c' -> trace c' = trace c ++ evs ->
  writesOf evs = if connected c then [cmd +:+ CRLF] else [].
Proof.
  intros Hs Ht. destruct (connected c) eqn:Hc.
  - destruct (writer c) as [w|] eqn:Hw.
    + rewrite (sendRaw_connected cmd c w Hc Hw) in Hs. cbn zeta in Hs.
      destruct (snd (WriteString w (cmd +:+ CRLF))); inversion Hs; subst; clear Hs;
        destruct c; cbn in Ht; apply app_inv_head in Ht; subst evs;
        destruct debugSendFn0; reflexivity.
    + destruct (sendRaw_nil_writer cmd c Hc Hw) as (c'' & Hp & _). congruence.
  - rewrite (sendRaw_disconnected cmd c Hc) in Hs. inversion Hs; subst.
    rewrite <- (app_nil_r (trace c')) in Ht at 1. apply app_inv_head in Ht.
    by subst.
Qed.

(** ** [dispatch] *)

Lemma launches_sameControl c c' tag line :
  sameControl c c' -> launches c' tag line = launches c tag line.
Proof. intros (_&_&_&Hh&_). unfold launches. by rewrite Hh. Qed.

Lemma handlers_withTrace c t : handlers (withTrace c t) = handlers c.
Proof. by destruct c. Qed.

(** The fan-out at the end of [dispatch]. *)
Lemma fanout_run c tag line :
  bind get (fun c0 =>
    bind (goEach (default [] (handlers c0 !! tag)) line) (fun _ =>
      goEach (default [] (handlers c0 !! "*")) line)) c
  = Ok tt (withTrace c (trace c ++ launches c tag line)).
Proof.
  unfold bind, get. rewrite !goEach_run. unfold launches.
  destruct c; cbn. by rewrite map_app, <- app_assoc.
Qed.

Lemma dispatch_other tag line c :
  tag ≠ "PING" ->
  dispatch tag line c = Ok tt (withTrace c (trace c ++ launches c tag line)).
Proof.
  intros Hne. unfold dispatch. destruct (decide (tag = "PING")); [done|].
  unfold bind at 1. unfold ret at 1. apply fanout_run.
Qed.

Lemma dispatch_ping_sent line c err c1 :
  sendRaw (pongCmd line) c = Ok err c1 ->
  dispatch "PING" line c
    = Ok tt (withTrace c1 (trace c1 ++ pongFailure err ++ launches c "PING" line)).
Proof.
  intros Hs. unfold dispatch. destruct (decide ("PING" = "PING")); [|done].
  pose proof (sendRaw_frame (pongCmd line) c) as [Hsame _]. rewrite Hs in Hsame.
  cbn [stateOf] in Hsame. rewrite <- (launches_sameControl _ _ _ _ Hsame).
  unfold bind at 1. unfold bind at 1. rewrite Hs.
  destruct err as [msg|]; cbn [pongFailure].
  - unfold emit, modify. rewrite fanout_run. unfold launches.
    rewrite handlers_withTrace. destruct c1; cbn. by rewrite <- app_assoc.
  - unfold ret at 1. by rewrite fanout_run.
Qed.

Lemma dispatch_ping_panic line c why c1 :
  sendRaw (pongCmd line) c = Panic why c1 ->
  dispatch "PING" line c = Panic why c1.
Proof.
  intros Hs. unfold dispatch. destruct (decide ("PING" = "PING")); [|done].
  unfold bind at 1. unfold bind at 1. by rewrite Hs.
Qed.

Lemma sameControl_withTrace c t : sameControl c (withTrace c t).
Proof. by destruct c. Qed.

Lemma Forall_launches c tag line : Forall dispatchEvent (launches c tag line).
Proof. unfold launches. apply Forall_map. by apply Forall_true. Qed.

(** [dispatch] touches the writer and the trace only. *)
Lemma dispatch_frame tag line c :
  sameControl c (stateOf (dispatch tag line c))
  ∧ quit (stateOf (dispatch tag line c)) = quit c
  ∧ extends dispatchEvent c (stateOf (dispatch tag line c)).
Proof.
  destruct (decide (tag = "PING")) as [->|Hne].
  - pose proof (sendRaw_frame (pongCmd line) c) as (Hsame & Hq & Hext).
    apply (extends_weaken _ _ _ _ sendEvent_dispatchEvent) in Hext.
    destruct (sendRaw (pongCmd line) c) as [err c1|why c1] eqn:Hs; cbn [stateOf] in *.
    + rewrite (dispatch_ping_sent _ _ _ _ Hs). cbn [stateOf].
      split; [exact (sameControl_trans _ _ _ Hsame (sameControl_withTrace _ _))|].
      split; [by destruct c1|].
      apply (extends_trans _ _ _ _ Hext). eexists. split; [by destruct c1|].
      apply Forall_app. split; [by destruct err; repeat constructor|apply Forall_launches].
    + by rewrite (dispatch_ping_panic _ _ _ _ Hs).
  - rewrite (dispatch_other _ _ _ Hne). cbn [stateOf].
    split; [apply sameControl_withTrace|]. split; [by destruct c|].
    eexists. split; [by destruct c|apply Forall_launches].
Qed.

Lemma dispatch_returns tag line c :
  wf c -> ∃ c', dispatch tag line c = Ok tt c' ∧ wf c'.
Proof.
  intros Hwf. destruct (decide (tag = "PING")) as [->|Hne].
  - destruct (sendRaw_returns (pongCmd line) c Hwf) as (err & c1 & Hs & Hwf1).
    rewrite (dispatch_ping_sent _ _ _ _ Hs). eexists. split; [reflexivity|].
    intros Hc. destruct c1; cbn in *. by apply Hwf1.
  - rewrite (dispatch_other _ _ _ Hne). eexists. split; [reflexivity|].
    intros Hc. destruct c; cbn in *. by apply Hwf.
Qed.

Lemma gosOf_sendEvents sends : Forall sendEvent sends -> gosOf sends = [].
Proof.
  induction 1 as [|ev l Hev _ IH]; [done|]. destruct ev; cbn in *; done.
Qed.

(** The goroutines of one [dispatch] are its launches, whatever the tag. *)
Lemma dispatch_gos tag line c c' evs :
  dispatch tag line c = Ok tt c' -> trace c' = trace c ++ evs ->
  gosOf evs = gosOf (launches c tag line).
Proof.
  intros Hd Ht. destruct (decide (tag = "PING")) as [->|Hne].
  - pose proof (sendRaw_frame (pongCmd line) c) as (_ & _ & (sends & Hts & Hf)).
    destruct (sendRaw (pongCmd line) c) as [err c1|why c1] eqn:Hs; cbn [stateOf] in Hts.
    + rewrite (dispatch_ping_sent _ _ _ _ Hs) in Hd. inversion Hd; subst c'.
      replace (trace (withTrace c1 (trace c1 ++ pongFailure err ++ launches c "PING" line)))
        with (trace c1 ++ pongFailure err ++ launches c "PING" line) in Ht
        by (by destruct c1).
      rewrite Hts, <- app_assoc in Ht. apply app_inv_head in Ht. subst evs.
      unfold gosOf. rewrite !omap_app. fold (gosOf sends).
      rewrite (gosOf_sendEvents _ Hf). by destruct err.
    + rewrite (dispatch_ping_panic _ _ _ _ Hs) in Hd. discriminate.
  - rewrite (dispatch_other _ _ _ Hne) in Hd. inversion Hd; subst c'.
    destruct c; cbn in Ht. apply app_inv_head in Ht. by subst evs.
Qed.

(** C2.  When a PING line is dispatched on a connection that is in order,
    [dispatch] makes one call of [sendRaw], with "PONG :" and the first
    argument when there is one and with "PONG" when there is none.  On a
    connected [Conn] whose write succeeds this call writes the reply and
    CRLF to the writer and then flushes the writer, which is what sends the
    reply: these two are the last things it does, after the debug hook if
    one is set, and the writer is left as the flush leaves it.  When the
    write fails there is no flush; when the [Conn] is not connected nothing
    is written.  Everything the call does comes before the launch of any
    handler of the line; and whether the call fails or not, the handlers of
    PING and of "*" are launched after it. *)
Theorem dispatch_ping_replies_first c line :
  wf c -> Cmd line = "PING" ->
  let reply := match Args line with
               | arg0 :: _ => "PONG :" +:+ arg0 +:+ CRLF
               | [] => "PONG" +:+ CRLF
               end in
  ∃ c1 c' sends err,
    sendRaw (pongCmd line) c = Ok err c1
    ∧ trace c1 = trace c ++ sends
    ∧ Forall sendEvent sends
    ∧ writesOf sends = (if connected c then [reply] else [])
    ∧ dispatch (Cmd line) line c = Ok tt c'
    ∧ trace c' = trace c ++ sends ++ pongFailure err ++ launches c "PING" line
    ∧ gosOf (sends ++ pongFailure err) = []
    ∧ (∀ w, connected c = true -> writer c = Some w ->
         let dbg := match debugSendFn c with
                    | Some hook => [EvDebugSend hook (pongCmd line)]
                    | None => []
                    end in
         match snd (WriteString w reply) with
         | None =>
             sends = dbg ++ [EvWriteString reply; EvFlush]
             ∧ writer c' = Some (fst (Flush (fst (WriteString w reply))))
             ∧ err = snd (Flush (fst (WriteString w reply)))
         | Some e =>
             sends = dbg ++ [EvWriteString reply]
             ∧ writer c' = Some (fst (WriteString w reply))
             ∧ err = Some e
         end)
    ∧ (connected c = false ->
         sends = [] ∧ err = Some "not connected" ∧ writer c' = writer c).
Proof.
  intros Hwf -> reply.
  assert (Hreply : pongCmd line +:+ CRLF = reply).
  { unfold reply, pongCmd. destruct (Args line); [done|]. by rewrite append_assoc. }
  destruct (sendRaw_returns (pongCmd line) c Hwf) as (err & c1 & Hs & _).
  pose proof (sendRaw_frame (pongCmd line) c) as (_ & _ & (sends & Ht & Hf)).
  rewrite Hs in Ht. cbn [stateOf] in Ht.
  exists c1, (withTrace c1 (trace c1 ++ pongFailure err ++ launches c "PING" line)),
    sends, err.
  split; [done|]. split; [done|]. split; [done|]. split.
  { rewrite (sendRaw_writes _ _ _ _ _ Hs Ht). destruct (connected c); [|done].
    by rewrite Hreply. }
  split; [by apply dispatch_ping_sent|]. split.
  { destruct c1; cbn in *. by rewrite Ht, <- app_assoc. }
  split.
  { unfold gosOf. rewrite omap_app. fold (gosOf sends).
    rewrite (gosOf_sendEvents _ Hf). by destruct err. }
  split.
  - intros w Hc Hw dbg. rewrite <- Hreply.
    rewrite (sendRaw_connected (pongCmd line) c w Hc Hw) in Hs.
    cbv zeta in Hs. fold dbg in Hs.
    destruct (snd (WriteString w (pongCmd line +:+ CRLF))) as [e|];
      injection Hs as <- <-; cbn [trace withTrace withWriter writer] in Ht |- *;
      apply app_inv_head in Ht; by subst sends.
  - intros Hc. rewrite (sendRaw_disconnected _ _ Hc) in Hs. injection Hs as <- <-.
    split; [|done]. rewrite <- (app_nil_r (trace c)) in Ht at 1.
    apply app_inv_head in Ht. by subst sends.
Qed.

(** C7.  On a connection whose flag is false, [sendRaw] returns the error
    "not connected" and leaves the connection as it was: the writer is not
    written to or flushed, the debug hook is not called, the trace does not
    grow. *)
Theorem sendRaw_not_connected cmd c :
  connected c = false ->
  sendRaw cmd c = Ok (Some "not connected") c
  ∧ writer (stateOf (sendRaw cmd c)) = writer c
  ∧ trace (stateOf (sendRaw cmd c)) = trace c.
Proof.
  intros Hc. rewrite (sendRaw_disconnected cmd c Hc). by cbn.
Qed.

(** ** The outbound commands *)

Lemma discard_run cmd c :
  wf c -> bind (sendRaw cmd) (fun _ => ret tt) c = Ok tt (stateOf (sendRaw cmd c)).
Proof.
  intros Hwf. destruct (sendRaw_returns cmd c Hwf) as (err & c' & Hs & _).
  unfold bind. by rewrite Hs.
Qed.

(** C6, as the code has it.  [sendRaw] reports a failure to its caller at
    once: "not connected" when the flag is false, the error of the write when
    the write fails (the flush is then not tried), the error of the flush when
    the flush fails; and it hands the command to the writer at most once.
    [Raw], [Join], [Part] and [Privmsg] call [sendRaw] once with their line
    and return nothing: the error stops there. *)
Theorem outbound_commands_drop_error c :
  wf c ->
  (∀ cmd, ∃ err c' evs,
      sendRaw cmd c = Ok err c'
      ∧ trace c' = trace c ++ evs
      ∧ writesOf evs = (if connected c then [cmd +:+ CRLF] else [])
      ∧ (connected c = false -> err = Some "not connected")
      ∧ (∀ w e, connected c = true -> writer c = Some w ->
           snd (WriteString w (cmd +:+ CRLF)) = Some e ->
           err = Some e ∧ EvFlush ∉ evs)
      ∧ (∀ w, connected c = true -> writer c = Some w ->
           snd (WriteString w (cmd +:+ CRLF)) = None ->
           err = snd (Flush (fst (WriteString w (cmd +:+ CRLF)))))
      ∧ Raw cmd c = Ok tt c')
  ∧ (∀ channel, Join_ channel c = Ok tt (stateOf (sendRaw ("JOIN " +:+ channel) c)))
  ∧ (∀ channel, Part channel c = Ok tt (stateOf (sendRaw ("PART " +:+ channel) c)))
  ∧ (∀ target message,
       Privmsg target message c
         = Ok tt (stateOf (sendRaw ("PRIVMSG " +:+ target +:+ " :" +:+ message) c))).
Proof.
  intros Hwf. split; [|by repeat split; intros; apply discard_run].
  intros cmd.
  destruct (sendRaw_returns cmd c Hwf) as (err & c' & Hs & _).
  pose proof (sendRaw_frame cmd c) as (_ & _ & (evs & Ht & _)).
  rewrite Hs in Ht. cbn [stateOf] in Ht.
  exists err, c', evs. split; [done|]. split; [done|].
  split; [by apply (sendRaw_writes _ _ _ _ _ Hs Ht)|]. split.
  { intros Hc. rewrite (sendRaw_disconnected _ _ Hc) in Hs. by inversion Hs. }
  split.
  { intros w e Hc Hw He. rewrite (sendRaw_connected cmd c w Hc Hw) in Hs.
    cbn zeta in Hs. rewrite He in Hs. inversion Hs; subst; clear Hs.
    split; [done|]. destruct c; cbn in Ht. apply app_inv_head in Ht. subst evs.
    destruct debugSendFn0; intros Hin;
      repeat (apply elem_of_cons in Hin as [Hin|Hin]; [discriminate|]);
      by apply not_elem_of_nil in Hin. }
  split.
  { intros w Hc Hw He. rewrite (sendRaw_connected cmd c w Hc Hw) in Hs.
    cbn zeta in Hs. rewrite He in Hs. by inversion Hs. }
  unfold Raw. rewrite (discard_run _ _ Hwf), Hs. done.
Qed.

(** ** Registration and fan-out *)

Lemma withHandlers_twice c (m1 m2 : gmap string (list handler)) :
  withHandlers (withHandlers c m1) m2 = withHandlers c m2.
Proof. by destruct c. Qed.

Lemma registerAll_run regs : ∀ c,
  ∃ c', registerAll regs c = Ok tt c'
        ∧ c' = withHandlers c (handlers c')
        ∧ ∀ tag, default [] (handlers c' !! tag)
                 = default [] (handlers c !! tag) ++ registeredUnder tag regs.
Proof.
  induction regs as [|[e h] regs IH]; intros c; cbn [registerAll registeredUnder].
  - exists c. split; [done|]. split; [by destruct c|].
    intros tag. by rewrite app_nil_r.
  - unfold bind at 1. unfold HandleFunc, modify.
    destruct (IH (withHandlers c
      (<[e := default [] (handlers c !! e) ++ [h]]> (handlers c)))) as (c' & -> & Hc' & Hl).
    exists c'. split; [done|]. split.
    { rewrite Hc' at 1. apply withHandlers_twice. }
    intros tag. rewrite Hl. destruct c; cbn.
    destruct (decide (e = tag)) as [->|Hne].
    + rewrite lookup_insert_eq. cbn. by rewrite <- app_assoc.
    + by rewrite lookup_insert_ne.
Qed.

Lemma elem_of_registeredUnder tag regs h :
  h ∈ registeredUnder tag regs ↔ (tag, h) ∈ regs.
Proof.
  induction regs as [|[e h'] regs IH]; cbn [registeredUnder].
  - split; intros Hin; by apply not_elem_of_nil in Hin.
  - destruct (decide (e = tag)) as [->|Hne]; rewrite ?elem_of_cons, IH.
    + split; (intros [?|?]; [left; congruence|by right]).
    + split; [by right|]. intros [?|?]; [congruence|done].
Qed.

Lemma NoDup_registeredUnder tag regs :
  NoDup (map snd regs) -> NoDup (registeredUnder tag regs).
Proof.
  induction regs as [|[e h] regs IH]; cbn [registeredUnder map snd]; [done|].
  intros Hnd. apply NoDup_cons in Hnd as [Hh Hnd].
  destruct (decide (e = tag)); [|by apply IH].
  apply NoDup_cons. split; [|by apply IH].
  intros Hin. apply elem_of_registeredUnder in Hin. apply Hh.
  apply list_elem_of_fmap. by exists (tag, h).
Qed.

(** A handler that is registered once is registered under one tag. *)
Lemma registered_one_tag regs t1 t2 h :
  NoDup (map snd regs) -> (t1, h) ∈ regs -> (t2, h) ∈ regs -> t1 = t2.
Proof.
  induction regs as [|[e h'] regs IH]; cbn [map snd].
  - intros _ Hin. by apply not_elem_of_nil in Hin.
  - intros Hnd H1 H2. apply NoDup_cons in Hnd as [Hh Hnd].
    apply elem_of_cons in H1 as [H1|H1]; apply elem_of_cons in H2 as [H2|H2].
    + congruence.
    + inversion H1; subst. exfalso. apply Hh. apply list_elem_of_fmap.
      eexists. split; [|exact H2]. done.
    + inversion H2; subst. exfalso. apply Hh. apply list_elem_of_fmap.
      eexists. split; [|exact H1]. done.
    + by apply IH.
Qed.

Lemma gosOf_launch line hs :
  gosOf (map (fun h => EvGo h line) hs) = map (fun h => (h, line)) hs.
Proof. induction hs as [|h hs IH]; [done|]. cbn. by f_equal. Qed.

(** C4, for every tag but "*".  Register any handlers, each once, on a
    connection with an empty registry, then dispatch one line under a tag
    other than "*": the goroutines launched are, without repetition, the
    handlers registered under the tag and the handlers registered under "*",
    each with that line.  So each of the N handlers of the tag and the
    wildcard handler run once, and with no handler under the tag the
    wildcard handler still runs once. *)
Theorem dispatch_each_handler_once c0 regs tag line :
  wf c0 -> handlers c0 = ∅ -> NoDup (map snd regs) -> tag ≠ "*" ->
  ∃ c1 c2 evs,
    registerAll regs c0 = Ok tt c1
    ∧ dispatch tag line c1 = Ok tt c2
    ∧ trace c2 = trace c1 ++ evs
    ∧ gosOf evs
        = map (fun h => (h, line)) (registeredUnder tag regs ++ registeredUnder "*" regs)
    ∧ NoDup (registeredUnder tag regs ++ registeredUnder "*" regs)
    ∧ (∀ h, h ∈ registeredUnder tag regs ++ registeredUnder "*" regs
            ↔ (tag, h) ∈ regs ∨ ("*", h) ∈ regs)
    ∧ (registeredUnder tag regs = [] ->
         gosOf evs = map (fun h => (h, line)) (registeredUnder "*" regs)).
Proof.
  intros Hwf Hempty Hnd Hstar.
  destruct (registerAll_run regs c0) as (c1 & Hreg & Hc1 & Hl).
  assert (Hlook : ∀ t, default [] (handlers c1 !! t) = registeredUnder t regs).
  { intros t. by rewrite Hl, Hempty, lookup_empty. }
  assert (Hwf1 : wf c1).
  { rewrite Hc1. intros Hc. destruct c0; cbn in *. by apply Hwf. }
  assert (Hgos : ∀ c2 evs, dispatch tag line c1 = Ok tt c2 -> trace c2 = trace c1 ++ evs ->
            gosOf evs = map (fun h => (h, line))
                          (registeredUnder tag regs ++ registeredUnder "*" regs)).
  { intros c2 evs Hd Ht. rewrite (dispatch_gos _ _ _ _ _ Hd Ht).
    unfold launches. rewrite !Hlook. apply gosOf_launch. }
  destruct (dispatch_returns tag line c1 Hwf1) as (c2 & Hd & _).
  pose proof (dispatch_frame tag line c1) as (_ & _ & (evs & Ht & _)).
  rewrite Hd in Ht. cbn [stateOf] in Ht.
  exists c1, c2, evs. split; [done|]. split; [done|]. split; [done|].
  split; [by eapply Hgos|]. split.
  { apply NoDup_app. split; [by apply NoDup_registeredUnder|].
    split; [|by apply NoDup_registeredUnder].
    intros h H1 H2. apply elem_of_registeredUnder in H1, H2.
    by apply Hstar, (registered_one_tag regs tag "*" h). }
  split.
  { intros h. by rewrite elem_of_app, !elem_of_registeredUnder. }
  intros Hnone. rewrite (Hgos c2 evs Hd Ht), Hnone. done.
Qed.

(** For the tag "*" the two buckets [dispatch] reads are one and the same:
    every handler registered under "*" is launched twice. *)
Lemma dispatch_star_launches_twice line c :
  dispatch "*" line c
    = Ok tt (withTrace c (trace c ++
        map (fun h => EvGo h line)
            (default [] (handlers c !! "*") ++ default [] (handlers c !! "*")))).
Proof. by rewrite dispatch_other. Qed.

(** C8, as the code has it.  [parseLine] returns a [Line] on every input.  A
    line that is only a colon and a prefix with no space gives the empty
    [Line], whose command is the empty string.  Dispatching a line with an
    empty command launches the handlers registered under the empty tag and
    the handlers registered under "*", and nothing else; with no handler
    under the empty tag, the wildcard handlers alone. *)
Theorem parseLine_total_degrades c :
  (∀ raw, is_Some (parseLine raw))
  ∧ (∀ p, hasByte " " p = false ->
       parseLine (":" +:+ p) = Some (mkLine "" "" "" []))
  ∧ (∀ line, Cmd line = "" ->
       dispatch (Cmd line) line c
         = Ok tt (withTrace c (trace c ++
             map (fun h => EvGo h line)
                 (default [] (handlers c !! "") ++ default [] (handlers c !! "*")))))
  ∧ (∀ line, Cmd line = "" -> handlers c !! "" = None ->
       dispatch (Cmd line) line c
         = Ok tt (withTrace c (trace c ++
             map (fun h => EvGo h line) (default [] (handlers c !! "*"))))).
Proof.
  split; [apply parseLine_total|]. split; [apply parseLine_prefix_only|].
  split.
  - intros line ->. by rewrite dispatch_other.
  - intros line -> Hnone. rewrite dispatch_other by done.
    unfold launches. by rewrite Hnone.
Qed.

(** ** The read loop *)

(** The exit sequence on a connection whose [done] is still open. *)
Lemma readLoopDeferred_run c :
  done c = false ->
  readLoopDeferred c
    = Ok tt (mkConn (cfg c) (conn c) false (handlers c) (writer c) (quit c) true
               (debugSendFn c) false
               (trace c ++ [EvSetConnected false]
                  ++ launches c "DISCONNECTED" disconnectedLine ++ [EvCloseDone])).
Proof.
  intros Hd. unfold readLoopDeferred, setConnected, closeDone.
  unfold bind at 1. unfold bind at 1. unfold modify at 1. unfold emit at 1, modify at 1.
  unfold bind at 1. rewrite dispatch_other by discriminate.
  unfold bind, modify, get, emit, modify, launches.
  destruct c; cbn in *. subst. cbn. by rewrite <- !app_assoc.
Qed.

(** The exit sequence on a connection whose [done] is closed already: the
    last step panics. *)
Lemma readLoopDeferred_closed c :
  done c = true ->
  readLoopDeferred c
    = Panic "close of closed channel"
        (mkConn (cfg c) (conn c) false (handlers c) (writer c) (quit c) true
           (debugSendFn c) false
           (trace c ++ [EvSetConnected false]
              ++ launches c "DISCONNECTED" disconnectedLine)).
Proof.
  intros Hd. unfold readLoopDeferred, setConnected, closeDone.
  unfold bind at 1. unfold bind at 1. unfold modify at 1. unfold emit at 1, modify at 1.
  unfold bind at 1. rewrite dispatch_other by discriminate.
  unfold bind, modify, get, panic, launches.
  destruct c; cbn in *. subst. cbn. by rewrite <- !app_assoc.
Qed.

Lemma sameControl_withQuit c q : sameControl c (withQuit c q).
Proof. by destruct c. Qed.

(** The loop itself changes the writer, the trace and [quit] only, and what
    it adds to the trace comes from [dispatch]. *)
Lemma readLoopBody_frame ins : ∀ c r,
  readLoopBody ins c = Some r ->
  sameControl c (stateOf r) ∧ extends dispatchEvent c (stateOf r).
Proof.
  induction ins as [|i ins IH]; intros c r; cbn [readLoopBody].
  - destruct (quit c); [|discriminate]. intros [= <-]. cbn.
    split; [apply sameControl_refl|apply extends_refl].
  - destruct (quit c).
    { intros [= <-]. cbn. split; [apply sameControl_refl|apply extends_refl]. }
    destruct i as [|[s| |]].
    + intros Hr. destruct (IH _ _ Hr) as [Hs He].
      split; [exact (sameControl_trans _ _ _ (sameControl_withQuit c true) Hs)|].
      destruct He as (evs & Ht & Hf). exists evs. split; [|done].
      rewrite Ht. by destruct c.
    + destruct (decide (TrimSpace s = "")); [apply IH|].
      destruct (parseLine (TrimSpace s)) as [parsed|].
      2:{ intros [= <-]. cbn. split; [apply sameControl_refl|apply extends_refl]. }
      pose proof (dispatch_frame (Cmd parsed) parsed c) as (Hs & _ & He).
      destruct (dispatch (Cmd parsed) parsed c) as [[] c'|why c']; cbn [stateOf] in *.
      * intros Hr. destruct (IH _ _ Hr) as [Hs' He'].
        split; [exact (sameControl_trans _ _ _ Hs Hs')|exact (extends_trans _ _ _ _ He He')].
      * intros [= <-]. by cbn.
    + apply IH.
    + intros [= <-]. cbn. split; [apply sameControl_refl|apply extends_refl].
Qed.

(** A read error ends the loop, and so does a cancellation. *)
Lemma readLoopBody_exits ins : ∀ c,
  is_Some (readLoopBody (ins ++ [Read ReadFailed]) c)
  ∧ is_Some (readLoopBody (ins ++ [Cancel]) c).
Proof.
  induction ins as [|i ins IH]; intros c; cbn [app readLoopBody].
  - destruct (quit c); [by eauto|]. split; [by eauto|].
    destruct c; cbn. by eauto.
  - destruct (quit c); [by eauto|].
    destruct i as [|[s| |]]; [apply IH| |apply IH|by eauto].
    destruct (decide (TrimSpace s = "")); [apply IH|].
    destruct (parseLine (TrimSpace s)) as [parsed|]; [|by eauto].
    destruct (dispatch (Cmd parsed) parsed c) as [[] c'|why c']; [apply IH|by eauto].
Qed.

Lemma readLoop_is_Some ins c : is_Some (readLoopBody ins c) -> is_Some (readLoop ins c).
Proof.
  intros [r Hr]. unfold readLoop. rewrite Hr. destruct r; eauto.
Qed.

Lemma leaves_bind {A B X} (f : Conn W -> X) (m : M W A) (k : A -> M W B) :
  Calls.leaves f m -> (∀ a, Calls.leaves f (k a)) -> Calls.leaves f (bind m k).
Proof.
  intros Hm Hk c. unfold bind. specialize (Hm c).
  destruct (m c) as [a c'|why c']; cbn [stateOf] in *; [by rewrite Hk|done].
Qed.

Lemma leaves_get {B X} (f : Conn W -> X) (k : Conn W -> M W B) :
  (∀ c, Calls.leaves f (k c)) -> Calls.leaves f (bind get k).
Proof. intros Hk c. unfold bind, get. apply Hk. Qed.

(** The calls before any [Quit] leave [done] as it is: open, from
    [Client] on. *)
Lemma leaves_done_sendRaw cmd : Calls.leaves done (sendRaw cmd).
Proof. intros c. by destruct (sendRaw_frame cmd c) as ((_ & _ & _ & _ & -> & _) & _). Qed.

Lemma leaves_done_Connect dial : Calls.leaves done (Connect dial).
Proof.
  destruct dial as [err|w]; cbn [Connect]; [done|].
  apply leaves_bind; [intros c; by destruct c|intros _].
  apply leaves_bind; [intros c; by destruct c|intros _].
  apply leaves_get. intros c0.
  apply leaves_bind; [apply leaves_done_sendRaw|intros _].
  apply leaves_bind; [apply leaves_done_sendRaw|intros _].
  apply leaves_bind; [intros c; by destruct c|intros _].
  apply leaves_bind; [intros c; by destruct c|done].
Qed.

Lemma leaves_done_run (k : call W) :
  (∀ sched message, k ≠ CallQuit sched message) -> Calls.leaves done (run k).
Proof.
  intros Hk.
  destruct k as [tag h|fn|dial|cmd|channel|channel|target message|sched message];
    cbn [run].
  - intros c. by destruct c.
  - intros c. by destruct c.
  - apply leaves_bind; [apply leaves_done_Connect|done].
  - apply leaves_bind; [apply leaves_done_sendRaw|done].
  - apply leaves_bind; [apply leaves_done_sendRaw|done].
  - apply leaves_bind; [apply leaves_done_sendRaw|done].
  - apply leaves_bind; [apply leaves_done_sendRaw|done].
  - by destruct (Hk sched message).
Qed.

Lemma leaves_done_runAll (ks : list (call W)) :
  (∀ k, k ∈ ks -> ∀ sched message, k ≠ CallQuit sched message) ->
  Calls.leaves done (Calls.runAll ks).
Proof.
  induction ks as [|k ks IH]; intros Hks; cbn [Calls.runAll]; [done|].
  apply leaves_bind.
  - apply leaves_done_run, Hks. by left.
  - intros _. apply IH. intros k' Hk'. apply Hks. by right.
Qed.

(** C5, as the code has it.  A connection built from [Client] by calls
    other than [Quit] has its [done] open: so it is when its first read loop
    runs.  A read loop ends on a read error and on a cancellation.  Whenever
    the read loop of a connection whose completion signal is not yet raised
    ends, its trace ends with: the flag set to false, then the launch of the
    handlers of DISCONNECTED and of "*" on the synthetic line, then the close
    of [done].  Before these the trace only has what [dispatch] did for the
    lines read, so the flag is not cleared and [done] is not closed earlier.
    Afterwards [Connected()] is false and [done] is closed. *)
Theorem readLoop_exit_order ins c r :
  done c = false ->
  readLoop ins c = Some r ->
  (∀ cfg0 (ks : list (call W)),
     (∀ k, k ∈ ks -> ∀ sched message, k ≠ CallQuit sched message) ->
     done (stateOf (Calls.runAll ks (Client cfg0))) = false)
  ∧ (∀ ins', is_Some (readLoop (ins' ++ [Read ReadFailed]) c)
             ∧ is_Some (readLoop (ins' ++ [Cancel]) c))
  ∧ ∃ body,
      trace (stateOf r)
        = trace c ++ body ++ [EvSetConnected false]
            ++ launches c "DISCONNECTED" disconnectedLine ++ [EvCloseDone]
      ∧ Forall dispatchEvent body
      ∧ Connected (stateOf r) = false
      ∧ done (stateOf r) = true.
Proof.
  intros Hd Hr. split.
  { intros cfg0 ks Hks. by rewrite (leaves_done_runAll ks Hks (Client cfg0)). }
  split.
  { intros ins'. destruct (readLoopBody_exits ins' c).
    split; by apply readLoop_is_Some. }
  unfold readLoop in Hr.
  destruct (readLoopBody ins c) as [rb|] eqn:Hb; [|discriminate].
  destruct (readLoopBody_frame _ _ _ Hb) as [Hs (body & Ht & Hf)].
  assert (Hd' : done (stateOf rb) = false).
  { destruct Hs as (_&_&_&_&Hdone&_). by rewrite Hdone. }
  assert (Hl : launches (stateOf rb) "DISCONNECTED" disconnectedLine
               = launches c "DISCONNECTED" disconnectedLine)
    by (by apply launches_sameControl).
  exists body.
  destruct rb as [[] cb|why cb]; cbn [stateOf] in *;
    rewrite (readLoopDeferred_run cb Hd') in Hr; inversion Hr; subst r; clear Hr;
    cbn [stateOf trace connected done Connected]; unfold Connected; cbn;
    rewrite Ht, Hl, <- !app_assoc; done.
Qed.

(** ** Quit *)

Lemma closeQuit_run c :
  quit c = false ->
  closeQuit c = Ok tt (withTrace (withQuit c true) (trace c ++ [EvCloseQuit])).
Proof.
  intros Hq. unfold closeQuit, bind, get, modify, emit, modify. rewrite Hq.
  by destruct c.
Qed.

Lemma closeQuit_panic c :
  quit c = true -> closeQuit c = Panic "close of closed channel" c.
Proof. intros Hq. unfold closeQuit, bind, get, panic. by rewrite Hq. Qed.

(** A second [Quit] on a connection panics when it closes [quit] again. *)
Lemma Quit_again_panics sched message c :
  wf c -> quit c = true ->
  ∃ c', quitSteps sched message c = Panic "close of closed channel" c'.
Proof.
  intros Hwf Hq. destruct (sendRaw_returns (quitCmd message) c Hwf) as (err & c1 & Hs & _).
  pose proof (sendRaw_frame (quitCmd message) c) as (_ & Hq1 & _).
  rewrite Hs in Hq1. cbn [stateOf] in Hq1.
  exists c1. unfold quitSteps. unfold bind at 1. rewrite Hs.
  unfold bind at 1. rewrite closeQuit_panic; [done|congruence].
Qed.

Lemma closeConn_run c :
  closeConn c
    = Ok tt (match conn c with
             | None => c
             | Some _ => withTrace (withConn c (Some SockClosed)) (trace c ++ [EvConnClose])
             end).
Proof.
  unfold closeConn, bind, get, ret, modify, emit, modify.
  destruct c as [cf [sk|] cd hs wr q d dbg rd tr]; by cbn.
Qed.

(** What the wait of [Quit] adds to the trace. *)
Lemma awaitDone_run sched c :
  ∃ c' exit,
    awaitDone sched c = Ok tt c'
    ∧ trace c' = trace c ++ exit
    ∧ (EvCloseQuit ∉ exit) ∧ (EvConnClose ∉ exit)
    ∧ conn c' = conn c ∧ quit c' = quit c
    ∧ (connected c = false -> connected c' = false)
    ∧ (done c = false -> reading c = true -> sched = LoopExitsInTime ->
         connected c' = false ∧ done c' = true).
Proof.
  unfold awaitDone, bind at 1, get. 
  assert (Hstay : ∃ c' exit, ret tt c = Ok tt c'
    ∧ trace c' = trace c ++ exit
    ∧ (EvCloseQuit ∉ exit) ∧ (EvConnClose ∉ exit)
    ∧ conn c' = conn c ∧ quit c' = quit c
    ∧ (connected c = false -> connected c' = false)).
  { exists c, []. rewrite app_nil_r. repeat split; try done; apply not_elem_of_nil. }
  destruct (done c) eqn:Hd.
  { destruct Hstay as (c' & exit & ? & ? & ? & ? & ? & ? & ?).
    exists c', exit. repeat split; try done. }
  destruct (reading c) eqn:Hr.
  2:{ destruct Hstay as (c' & exit & ? & ? & ? & ? & ? & ? & ?).
      exists c', exit. repeat split; try done. }
  destruct sched.
  2:{ destruct Hstay as (c' & exit & ? & ? & ? & ? & ? & ? & ?).
      exists c', exit. repeat split; try done. }
  rewrite (readLoopDeferred_run c Hd). eexists _, _. split; [reflexivity|].
  cbn [trace conn quit connected done]. split; [reflexivity|].
  assert (Hno : ∀ e, e = EvCloseQuit ∨ e = EvConnClose ->
     e ∉ [EvSetConnected false] ++ launches c "DISCONNECTED" disconnectedLine
          ++ [EvCloseDone]).
  { intros e He Hin. unfold launches in Hin.
    rewrite !elem_of_app, list_elem_of_fmap, !list_elem_of_singleton in Hin.
    destruct Hin as [Hin|[(h & Hin & _)|Hin]]; subst e; by destruct He. }
  split; [apply Hno; by left|]. split; [apply Hno; by right|]. done.
Qed.

(** C3, as the code has it.  On a connection whose [quit] is still open,
    that is on the first call, [Quit] makes one call of [sendRaw], with
    "QUIT", or "QUIT :" and the reason when there is one.  On a connected
    [Conn] that call can block, and then [Quit] never returns.  When the
    call returns, with or without an error, [Quit] closes [quit], once;
    waits; closes the socket when there is one, whether the read loop
    finished or the timer fired; and returns.  [Connected()] is false
    afterwards when the connection was not connected to begin with, or when
    its read loop ran its exit sequence during the wait. *)
Theorem Quit_first_call sched message c :
  wf c -> quit c = false ->
  (connected c = true -> Quit SendBlocks sched message c = None)
  ∧ ∃ err c1 c' exit close,
    sendRaw (if decide (message = "") then "QUIT" else "QUIT :" +:+ message) c
      = Ok err c1
    ∧ extends sendEvent c c1
    ∧ Quit SendReturns sched message c = Some (Ok tt c')
    ∧ (connected c = false -> Quit SendBlocks sched message c = Some (Ok tt c'))
    ∧ trace c' = trace c1 ++ [EvCloseQuit] ++ exit ++ close
    ∧ (EvCloseQuit ∉ exit ++ close)
    ∧ quit c' = true
    ∧ close = match conn c with Some _ => [EvConnClose] | None => [] end
    ∧ conn c' = match conn c with Some _ => Some SockClosed | None => None end
    ∧ (connected c = false -> Connected c' = false)
    ∧ (done c = false -> reading c = true -> sched = LoopExitsInTime ->
         Connected c' = false).
Proof.
  intros Hwf Hq. split; [intros Hc; cbn [Quit]; by rewrite Hc|].
  destruct (sendRaw_returns (quitCmd message) c Hwf) as (err & c1 & Hs & _).
  pose proof (sendRaw_frame (quitCmd message) c) as (Hsame & Hq1 & Hsends).
  rewrite Hs in Hsame, Hq1, Hsends. cbn [stateOf] in Hsame, Hq1, Hsends.
  destruct Hsame as (_ & Hconn & Hcd & _ & Hdone & _ & Hrd).
  pose (c2 := withTrace (withQuit c1 true) (trace c1 ++ [EvCloseQuit])).
  destruct (awaitDone_run sched c2)
    as (c3 & exit & Hw & Ht3 & Hno1 & Hno2 & Hconn3 & Hq3 & Hcd3 & Hexit).
  exists err, c1.
  exists (match conn c3 with
          | None => c3
          | Some _ => withTrace (withConn c3 (Some SockClosed)) (trace c3 ++ [EvConnClose])
          end), exit, (match conn c with Some _ => [EvConnClose] | None => [] end).
  assert (Hsteps : quitSteps sched message c
            = Ok tt (match conn c3 with
                     | None => c3
                     | Some _ => withTrace (withConn c3 (Some SockClosed))
                                           (trace c3 ++ [EvConnClose])
                     end)).
  { unfold quitSteps. unfold bind at 1. rewrite Hs. unfold bind at 1.
    rewrite closeQuit_run by congruence. unfold bind at 1. fold c2. rewrite Hw.
    apply closeConn_run. }
  split; [exact Hs|]. split; [exact Hsends|].
  split; [cbn [Quit]; by rewrite Hsteps|].
  split; [intros Hc; cbn [Quit]; by rewrite Hc, Hsteps|].
  assert (Hc2 : conn c2 = conn c) by (by destruct c1).
  assert (Ht2 : trace c2 = trace c1 ++ [EvCloseQuit]) by (by destruct c1).
  assert (Hq2 : quit c2 = true) by (by destruct c1).
  assert (Hcd2 : connected c2 = connected c) by (by destruct c1).
  assert (Hd2 : done c2 = done c) by (by destruct c1).
  assert (Hr2 : reading c2 = reading c) by (by destruct c1).
  rewrite Hconn3, Hc2.
  destruct (conn c) as [sk|] eqn:Hsk.
  - split.
    { replace (trace (withTrace (withConn c3 (Some SockClosed)) (trace c3 ++ [EvConnClose])))
        with (trace c3 ++ [EvConnClose]) by (by destruct c3).
      rewrite Ht3, Ht2. by rewrite <- !app_assoc. }
    split.
    { rewrite elem_of_app, list_elem_of_singleton. by intros [?|?]. }
    split; [destruct c3; cbn in *; congruence|].
    split; [done|]. split; [by destruct c3|].
    unfold Connected. split.
    + intros Hc. destruct c3; cbn in *. apply Hcd3. congruence.
    + intros Hd Hr Hsch. destruct c3; cbn in *. apply Hexit; congruence.
  - split; [by rewrite Ht3, Ht2, app_nil_r, <- !app_assoc|].
    split; [by rewrite app_nil_r|].
    split; [congruence|]. split; [done|]. split; [by rewrite Hconn3, Hc2|].
    unfold Connected. split.
    + intros Hc. apply Hcd3. congruence.
    + intros Hd Hr Hsch. apply Hexit; congruence.
Qed.

(** ** The invariant *)

Lemma keeps_ret {A} (a : A) : keeps (ret a : M W A).
Proof. by intros c Hwf. Qed.

Lemma keeps_panic {A} why : keeps (panic (W := W) (A := A) why).
Proof. by intros c Hwf. Qed.

Lemma keeps_bind {A B} (m : M W A) (k : A -> M W B) :
  keeps m -> (∀ a, keeps (k a)) -> keeps (bind m k).
Proof.
  intros Hm Hk c Hwf. unfold bind. specialize (Hm c Hwf).
  destruct (m c) as [a c'|why c']; [by apply Hk|done].
Qed.

Lemma keeps_get {B} (k : Conn W -> M W B) :
  (∀ c, keeps (k c)) -> keeps (bind get k).
Proof. intros Hk c Hwf. unfold bind, get. by apply Hk. Qed.

Lemma keeps_modify (f : Conn W -> Conn W) :
  (∀ c, wf c -> wf (f c)) -> keeps (modify f).
Proof. intros Hf c Hwf. by apply Hf. Qed.

Lemma keeps_emit e : keeps (emit (W := W) e).
Proof. apply keeps_modify. intros c Hwf Hc. destruct c; cbn in *. by apply Hwf. Qed.

Lemma keeps_sendRaw cmd : keeps (sendRaw cmd).
Proof.
  intros c Hwf. destruct (sendRaw_returns cmd c Hwf) as (err & c' & -> & Hwf'). done.
Qed.

Lemma keeps_dispatch tag line : keeps (dispatch tag line).
Proof.
  intros c Hwf. destruct (dispatch_returns tag line c Hwf) as (c' & -> & Hwf'). done.
Qed.

Lemma keeps_setConnected_false : keeps (setConnected (W := W) false).
Proof.
  apply keeps_bind; [|intros; apply keeps_emit].
  apply keeps_modify. intros c _ Hc. by destruct c.
Qed.

Lemma keeps_readLoopDeferred : keeps readLoopDeferred.
Proof.
  unfold readLoopDeferred.
  apply keeps_bind; [apply keeps_setConnected_false|intros _].
  apply keeps_bind; [apply keeps_dispatch|intros _].
  apply keeps_bind.
  { apply keeps_modify. intros c Hwf Hc. destruct c; cbn in *. by apply Hwf. }
  intros _. unfold closeDone. apply keeps_get. intros c.
  destruct (done c); [apply keeps_panic|].
  apply keeps_bind; [|intros; apply keeps_emit].
  apply keeps_modify. intros c' Hwf Hc. destruct c'; cbn in *. by apply Hwf.
Qed.

Lemma keeps_Connect dial : keeps (Connect dial).
Proof.
  destruct dial as [err|w]; cbn [Connect]; [apply keeps_ret|].
  intros c _. unfold bind at 1. unfold modify at 1.
  unfold bind at 1. unfold setConnected, bind at 1, modify at 1, emit at 1, modify at 1.
  match goal with |- wf (stateOf (bind _ _ ?c1)) => set (cc := c1) end.
  assert (Hcc : wf cc) by (intros _; subst cc; destruct c; cbn; eauto).
  revert Hcc. generalize cc. clear cc. intros cc Hcc.
  revert cc Hcc. apply keeps_get. intros c0.
  apply keeps_bind; [apply keeps_sendRaw|intros _].
  apply keeps_bind; [apply keeps_sendRaw|intros _].
  apply keeps_bind.
  { apply keeps_modify. intros c' Hwf Hc. destruct c'; cbn in *. by apply Hwf. }
  intros _. apply keeps_bind; [apply keeps_emit|intros; apply keeps_ret].
Qed.

Lemma keeps_Quit sched message : keeps (quitSteps sched message).
Proof.
  unfold quitSteps.
  apply keeps_bind; [apply keeps_sendRaw|intros _].
  apply keeps_bind.
  { unfold closeQuit. apply keeps_get. intros c.
    destruct (quit c); [apply keeps_panic|].
    apply keeps_bind; [|intros; apply keeps_emit].
    apply keeps_modify. intros c' Hwf Hc. destruct c'; cbn in *. by apply Hwf. }
  intros _. apply keeps_bind.
  { unfold awaitDone. apply keeps_get. intros c.
    destruct (done c); [apply keeps_ret|].
    destruct (reading c); [|apply keeps_ret].
    destruct sched; [apply keeps_readLoopDeferred|apply keeps_ret]. }
  intros _. unfold closeConn. apply keeps_get. intros c.
  destruct (conn c); [|apply keeps_ret].
  apply keeps_bind; [|intros; apply keeps_emit].
  apply keeps_modify. intros c' Hwf Hc. destruct c'; cbn in *. by apply Hwf.
Qed.

Lemma keeps_run (k : call W) : keeps (run k).
Proof.
  destruct k; cbn [run].
  - apply keeps_modify. intros c Hwf Hc. destruct c; cbn in *. by apply Hwf.
  - apply keeps_modify. intros c Hwf Hc. destruct c; cbn in *. by apply Hwf.
  - apply keeps_bind; [apply keeps_Connect|intros; apply keeps_ret].
  - apply keeps_bind; [apply keeps_sendRaw|intros; apply keeps_ret].
  - apply keeps_bind; [apply keeps_sendRaw|intros; apply keeps_ret].
  - apply keeps_bind; [apply keeps_sendRaw|intros; apply keeps_ret].
  - apply keeps_bind; [apply keeps_sendRaw|intros; apply keeps_ret].
  - apply keeps_Quit.
Qed.

Lemma readLoopBody_wf ins : ∀ c r,
  wf c -> readLoopBody ins c = Some r -> wf (stateOf r).
Proof.
  induction ins as [|i ins IH]; intros c r Hwf; cbn [readLoopBody].
  - destruct (quit c); [|discriminate]. by intros [= <-].
  - destruct (quit c); [by intros [= <-]|].
    destruct i as [|[s| |]].
    + apply IH. intros Hc. destruct c; cbn in *. by apply Hwf.
    + destruct (decide (TrimSpace s = "")); [by apply IH|].
      destruct (parseLine (TrimSpace s)) as [parsed|]; [|by intros [= <-]].
      pose proof (keeps_dispatch (Cmd parsed) parsed c Hwf) as Hd.
      destruct (dispatch (Cmd parsed) parsed c) as [[] c'|why c']; cbn [stateOf] in Hd.
      * by apply IH.
      * by intros [= <-].
    + by apply IH.
    + by intros [= <-].
Qed.

(** Every connection a program can come to is in order: a connected [Conn]
    has its writer. *)
Lemma reachable_wf c : reachable c -> wf c.
Proof.
  induction 1 as [cfg|c k _ IH|c tag line _ IH|c ins r _ IH Hr].
  - intros Hc. discriminate.
  - by apply keeps_run.
  - by apply keeps_dispatch.
  - unfold readLoop in Hr.
    destruct (readLoopBody ins c) as [rb|] eqn:Hb; [|discriminate].
    pose proof (readLoopBody_wf _ _ _ IH Hb) as Hwf.
    pose proof (keeps_readLoopDeferred (stateOf rb) Hwf) as Hk.
    destruct rb as [[] cb|why cb]; cbn [stateOf] in *; inversion Hr; subst r; done.
Qed.

End Connection.

(** ** The theorems at concrete connections *)

Lemma wf_exampleConn : wf exampleConn.
Proof. intros _. vm_compute. eauto. Qed.

Lemma wf_exampleClient : wf exampleClient.
Proof. intros Hc. vm_compute in Hc. discriminate. Qed.

(** C2 at the line "PING :server.example" on the example connection: the
    reply is written and flushed before the two handlers are launched, and
    is on the wire after the handshake. *)
Lemma dispatch_ping_replies_first_witness :
  ∃ c1 c' sends err,
    sendRaw "PONG :server.example" exampleConn = Ok err c1
    ∧ trace c1 = trace exampleConn ++ sends
    ∧ Forall sendEvent sends
    ∧ writesOf sends = ["PONG :server.example" +:+ CRLF]
    ∧ dispatch "PING" examplePing exampleConn = Ok tt c'
    ∧ trace c' = trace exampleConn ++ sends ++ pongFailure err
                   ++ launches exampleConn "PING" examplePing
    ∧ gosOf (sends ++ pongFailure err) = []
    ∧ sends = [EvWriteString ("PONG :server.example" +:+ CRLF); EvFlush]
    ∧ err = None
    ∧ writer c'
      = Some (mkWire "" ("NICK me" +:+ CRLF +:+ "USER me 0 * :me" +:+ CRLF
                         +:+ "PONG :server.example" +:+ CRLF)).
Proof.
  destruct (dispatch_ping_replies_first exampleConn examplePing wf_exampleConn eq_refl)
    as (c1 & c' & sends & err & H1 & H2 & H3 & H4 & H5 & H6 & H7 & Hsent & _).
  specialize (Hsent (mkWire "" ("NICK me" +:+ CRLF +:+ "USER me 0 * :me" +:+ CRLF))
                eq_refl eq_refl).
  destruct Hsent as (Hs & Hw & He).
  exists c1, c', sends, err. repeat (split; [assumption|]). done.
Defined.

(** What is on the wire once "PING :server.example" and then a bare "PING"
    went through the read loop of the example connection: the handshake and
    the two replies. *)
Lemma example_wire_after_pings :
  (r ← readLoop (H0 := asciiTables)
         [Read (ReadLine ("PING :server.example" +:+ CRLF));
          Read (ReadLine ("ping" +:+ CRLF)); Read ReadFailed]
         exampleConn;
   w ← writer (stateOf r);
   Some (sent w))
  = Some ("NICK me" +:+ CRLF +:+ "USER me 0 * :me" +:+ CRLF
          +:+ "PONG :server.example" +:+ CRLF +:+ "PONG" +:+ CRLF).
Proof. vm_compute. reflexivity. Qed.

(** C7 on the client that was never connected. *)
Lemma sendRaw_not_connected_witness :
  sendRaw "JOIN #go" exampleClient = Ok (Some "not connected") exampleClient
  ∧ writer (stateOf (sendRaw "JOIN #go" exampleClient)) = writer exampleClient
  ∧ trace (stateOf (sendRaw "JOIN #go" exampleClient)) = trace exampleClient.
Proof.
  apply (sendRaw_not_connected "JOIN #go" exampleClient). reflexivity.
Defined.

(** C6 as stated fails: [Join] of "#go" returns the same nothing on a client
    that is not connected, where [sendRaw] reports "not connected", over a
    broken socket, where [sendRaw] reports the error of the write, and on a
    sound connection, where [sendRaw] reports no error. *)
Lemma commands_return_no_error :
  sendRaw "JOIN #go" exampleClient = Ok (Some "not connected") exampleClient
  ∧ Join_ "#go" exampleClient = Ok tt exampleClient
  ∧ sendRaw "JOIN #go" exampleBroken
      = Ok (Some "write: broken pipe") (stateOf (Join_ "#go" exampleBroken))
  ∧ Join_ "#go" exampleBroken = Ok tt (stateOf (Join_ "#go" exampleBroken))
  ∧ sendRaw "JOIN #go" exampleConn = Ok None (stateOf (Join_ "#go" exampleConn))
  ∧ Join_ "#go" exampleConn = Ok tt (stateOf (Join_ "#go" exampleConn)).
Proof.
  split; [vm_compute; reflexivity|]. split; [vm_compute; reflexivity|].
  split; [vm_compute; reflexivity|]. split; [vm_compute; reflexivity|].
  split; vm_compute; reflexivity.
Qed.

(** C6, as the code has it, on the example connection. *)
Lemma outbound_commands_drop_error_witness :
  Privmsg "#go" "hello" exampleConn
    = Ok tt (stateOf (sendRaw "PRIVMSG #go :hello" exampleConn)).
Proof.
  exact (proj2 (proj2 (proj2 (outbound_commands_drop_error exampleConn wf_exampleConn)))
           "#go" "hello").
Defined.

(** C4 as stated fails for the tag "*": "*" parses to a line whose command
    is "*", and dispatching it launches each of the two handlers registered
    under "*" twice. *)
Lemma dispatch_star_twice :
  parseLine (H := asciiTables) "*" = Some (mkLine "" "" "*" [])
  ∧ gosOf (trace (stateOf (dispatch "*" (mkLine "" "" "*" []) starClient)))
    = [(Handler 1, mkLine "" "" "*" []); (Handler 2, mkLine "" "" "*" []);
       (Handler 1, mkLine "" "" "*" []); (Handler 2, mkLine "" "" "*" [])].
Proof. split; vm_compute; reflexivity. Qed.

(** C4, for a tag other than "*", with two PRIVMSG handlers and one
    wildcard handler registered on a fresh client. *)
Lemma dispatch_each_handler_once_witness :
  ∃ c1 c2 evs,
    registerAll [("PRIVMSG", Handler 1); ("*", Handler 2); ("PRIVMSG", Handler 3)]
                (Client (W := wire) (NewConfig "me")) = Ok tt c1
    ∧ dispatch "PRIVMSG" (mkLine "" "" "PRIVMSG" ["#go"; "hi"]) c1 = Ok tt c2
    ∧ trace c2 = trace c1 ++ evs
    ∧ gosOf evs
        = [(Handler 1, mkLine "" "" "PRIVMSG" ["#go"; "hi"]);
           (Handler 3, mkLine "" "" "PRIVMSG" ["#go"; "hi"]);
           (Handler 2, mkLine "" "" "PRIVMSG" ["#go"; "hi"])].
Proof.
  destruct (dispatch_each_handler_once (Client (W := wire) (NewConfig "me"))
              [("PRIVMSG", Handler 1); ("*", Handler 2); ("PRIVMSG", Handler 3)]
              "PRIVMSG" (mkLine "" "" "PRIVMSG" ["#go"; "hi"]))
    as (c1 & c2 & evs & Hr & Hd & Ht & Hg & _).
  - intros Hc. vm_compute in Hc. discriminate.
  - reflexivity.
  - vm_compute. repeat constructor; rewrite ?elem_of_cons; intros Hin;
      repeat (destruct Hin as [Hin|Hin]; [discriminate|]);
      by apply not_elem_of_nil in Hin.
  - discriminate.
  - exists c1, c2, evs. repeat split; assumption.
Defined.

(** C8 as stated fails: ":irc.example.org" parses to the line with the empty
    command, and on a client with a handler under the empty tag and no
    wildcard handler, dispatching that line launches the handler. *)
Lemma empty_tag_handler_sees_malformed :
  parseLine (H := asciiTables) ":irc.example.org" = Some (mkLine "" "" "" [])
  ∧ handlers emptyTagClient !! "*" = None
  ∧ gosOf (trace (stateOf (dispatch "" (mkLine "" "" "" []) emptyTagClient)))
    = [(Handler 7, mkLine "" "" "" [])].
Proof.
  split; [vm_compute; reflexivity|]. split; vm_compute; reflexivity.
Qed.

(** C8, as the code has it, at ":irc.example.org" and the example
    connection. *)
Lemma parseLine_total_degrades_witness :
  parseLine (H := asciiTables) ":irc.example.org" = Some (mkLine "" "" "" []).
Proof.
  apply (proj1 (proj2 (parseLine_total_degrades (H0 := asciiTables) exampleConn))
           "irc.example.org").
  reflexivity.
Defined.

(** C5 as stated fails.  The example connection, whose read loop ended on
    a failed read, is connected again: a program can come to that, and the
    completion signal of the connection is raised already.  When the read
    loop of the second connection ends, on a failed read too, the flag is
    cleared and the handler of "*" is launched for DISCONNECTED, and then
    the loop panics where it closes [done]: the completion signal is not
    raised. *)
Lemma readLoop_second_exit_panics :
  reachable (H0 := asciiTables) exampleReconnected
  ∧ Connected exampleReconnected = true
  ∧ done exampleReconnected = true
  ∧ ∃ c', readLoop (H0 := asciiTables) [Read ReadFailed] exampleReconnected
            = Some (Panic "close of closed channel" c')
          ∧ trace c' = trace exampleReconnected
                         ++ [EvSetConnected false; EvGo (Handler 2) disconnectedLine]
          ∧ Connected c' = false.
Proof.
  assert (Hrun : ∀ dial (c : Conn wire),
            stateOf (run (CallConnect dial) c) = stateOf (Connect dial c)).
  { intros dial c. cbn [run]. unfold bind. by destruct (Connect dial c). }
  split.
  { assert (Hclient : reachable (H0 := asciiTables) exampleClient).
    { change exampleClient
        with (stateOf (run (CallHandleFunc "*" (Handler 2))
                (stateOf (run (CallHandleFunc "PING" (Handler 1))
                           (Client (W := wire) (NewConfig "me")))))).
      apply reachable_call, reachable_call, reachable_Client. }
    assert (Hconn : reachable (H0 := asciiTables) exampleConn).
    { unfold exampleConn. rewrite <- Hrun. by apply reachable_call. }
    assert (Hdrop : reachable (H0 := asciiTables) exampleDropped).
    { apply (reachable_readLoop exampleConn [Read ReadFailed]
               (Ok tt exampleDropped) Hconn).
      vm_compute. reflexivity. }
    unfold exampleReconnected. rewrite <- Hrun. by apply reachable_call. }
  split; [vm_compute; reflexivity|]. split; [vm_compute; reflexivity|].
  exists (stateOf (default (Panic "" exampleReconnected)
                     (readLoop (H0 := asciiTables) [Read ReadFailed] exampleReconnected))).
  split; [vm_compute; reflexivity|]. split; [vm_compute; reflexivity|].
  vm_compute. reflexivity.
Qed.

(** C5 on the example run: the loop answers the PING, sits through a
    timeout, sees the cancellation and leaves. *)
Lemma readLoop_exit_order_witness :
  readLoop (H0 := asciiTables) exampleInput exampleConn = Some exampleExit
  ∧ Connected (stateOf exampleExit) = false
  ∧ done (stateOf exampleExit) = true
  ∧ ∃ body,
      trace (stateOf exampleExit)
        = trace exampleConn ++ body ++ [EvSetConnected false]
            ++ launches exampleConn "DISCONNECTED" disconnectedLine ++ [EvCloseDone].
Proof.
  assert (Hrun : readLoop (H0 := asciiTables) exampleInput exampleConn = Some exampleExit)
    by (vm_compute; reflexivity).
  destruct (readLoop_exit_order (H0 := asciiTables) exampleInput exampleConn exampleExit
              eq_refl Hrun) as (_ & _ & body & Ht & _ & Hc & Hd).
  split; [exact Hrun|]. split; [exact Hc|]. split; [exact Hd|].
  exists body. exact Ht.
Defined.

(** C3 as stated fails.  A second [Quit] on the same connection panics when
    it closes [quit] again, so it does not return.  When the read loop does
    not finish within the wait, [Quit] returns with the flag still true.
    And when the write of the QUIT line blocks, [Quit] does not return. *)
Lemma Quit_twice_panics :
  Quit SendReturns LoopExitsInTime "bye" exampleConn = Some (Ok tt afterQuit)
  ∧ Quit SendReturns LoopExitsInTime "bye" afterQuit
    = Some (Panic "close of closed channel" afterQuit)
  ∧ Quit SendReturns LoopStalls "bye" exampleConn = Some (Ok tt afterStalledQuit)
  ∧ Connected afterStalledQuit = true
  ∧ Quit SendBlocks LoopExitsInTime "bye" exampleConn = None.
Proof.
  split; [vm_compute; reflexivity|]. split; [vm_compute; reflexivity|].
  split; [vm_compute; reflexivity|]. split; vm_compute; reflexivity.
Qed.

(** C3, as the code has it, on the example connection. *)
Lemma Quit_first_call_witness :
  Quit SendBlocks LoopExitsInTime "bye" exampleConn = None
  ∧ ∃ c', Quit SendReturns LoopExitsInTime "bye" exampleConn = Some (Ok tt c')
          ∧ quit c' = true
          ∧ conn c' = Some SockClosed
          ∧ Connected c' = false.
Proof.
  destruct (Quit_first_call LoopExitsInTime "bye" exampleConn wf_exampleConn eq_refl)
    as (Hblock & err & c1 & c' & exit & close & _ & _ & Hq & _ & _ & _ & Hquit & _
        & Hconn & _ & Hc).
  split; [by apply Hblock|].
  exists c'. split; [exact Hq|]. split; [exact Hquit|]. split; [exact Hconn|].
  apply Hc; reflexivity.
Defined.

End ConnFacts.

(* ===================================================================== *)
(** * The helpers of main.go *)
(* ===================================================================== *)

Module HelperFacts.
Import GoStrings GoStringsFacts IRC CodecFacts App Front.

Local Open Scope Z_scope.

Lemma length_append (a b : string) :
  String.length (a +:+ b) = (String.length a + String.length b)%nat.
Proof.
  induction a as [|x a IH]; [reflexivity|].
  rewrite append_cons. cbn [String.length]. by rewrite IH.
Qed.

Lemma len_append a b : len (a +:+ b) = len a + len b.
Proof. unfold len. rewrite length_append. lia. Qed.

Lemma len_nonneg s : 0 ≤ len s.
Proof. unfold len. lia. Qed.

Lemma length_Repeat_space n : String.length (Repeat " " n) = n.
Proof.
  induction n as [|n IH]; [reflexivity|].
  cbn [Repeat]. rewrite length_append, IH. reflexivity.
Qed.

(** A slice that does not panic is the first [j] bytes. *)
Lemma sliceTo_Some s : ∀ j t,
  sliceTo s j = Some t -> String.length t = j ∧ ∃ rest, s = t +:+ rest.
Proof.
  induction s as [|a s IH]; intros [|j] t; cbn [sliceTo]; try discriminate.
  - intros [= <-]. split; [done|]. by exists "".
  - intros [= <-]. split; [done|]. by exists (String a s).
  - destruct (sliceTo s j) as [t'|] eqn:E; [|discriminate].
    cbn. intros [= <-]. destruct (IH _ _ E) as [Hl [rest ->]].
    split; [cbn; by rewrite Hl|]. by exists rest.
Qed.

Lemma sliceToInt_Some s j :
  0 ≤ j ≤ len s ->
  ∃ t rest, sliceToInt s j = Some t ∧ len t = j ∧ s = t +:+ rest.
Proof.
  intros Hj. unfold sliceToInt. destruct (Z.ltb_spec j 0); [lia|].
  destruct (sliceTo_total s (Z.to_nat j)) as [t Ht]; [unfold len in Hj; lia|].
  destruct (sliceTo_Some _ _ _ Ht) as [Hl [rest ->]].
  exists t, rest. split; [done|]. split; [unfold len; lia|done].
Qed.

Lemma sliceToInt_negative s j : j < 0 -> sliceToInt s j = None.
Proof. intros Hj. unfold sliceToInt. by destruct (Z.ltb_spec j 0); [|lia]. Qed.

(** X1.  [truncateString].  For a bound that is not negative the call returns,
    its result is as long as the shorter of the string and the bound, a
    string that fits is returned as it is, and a longer one under a bound
    above 3 is cut to its first [maxLen - 3] bytes and "...".  For a
    negative bound the call panics, whatever the string. *)
Theorem truncateString_bounds s maxLen :
  (0 ≤ maxLen ->
     ∃ r, truncateString s maxLen = Some r
          ∧ len r = Z.min (len s) maxLen
          ∧ (len s ≤ maxLen -> r = s)
          ∧ (3 < maxLen < len s ->
               ∃ t rest, r = t +:+ "..." ∧ s = t +:+ rest ∧ len t = maxLen - 3))
  ∧ (maxLen < 0 -> truncateString s maxLen = None).
Proof.
  pose proof (len_nonneg s) as Hs. unfold truncateString. split.
  - intros Hm. destruct (Z.leb_spec (len s) maxLen) as [Hfit|Hlong].
    { exists s. split; [done|]. split; [lia|]. split; [done|lia]. }
    destruct (Z.leb_spec maxLen 3) as [Hsmall|Hbig].
    + destruct (sliceToInt_Some s maxLen) as (t & rest & -> & Hl & _); [lia|].
      exists t. split; [done|]. split; [lia|]. split; lia.
    + destruct (sliceToInt_Some s (maxLen - 3)) as (t & rest & -> & Hl & Hrest); [lia|].
      exists (t +:+ "..."). cbn [mbind option_bind]. split; [done|].
      split; [rewrite len_append; change (len "...") with 3; lia|].
      split; [lia|]. intros _. by exists t, rest.
  - intros Hm. destruct (Z.leb_spec (len s) maxLen); [lia|].
    destruct (Z.leb_spec maxLen 3); [|lia]. by apply sliceToInt_negative.
Qed.

(** [truncateString] at "a long topic" and the bound 8. *)
Lemma truncateString_bounds_witness :
  ∃ r, truncateString "a long topic" 8 = Some r
       ∧ len r = Z.min (len "a long topic") 8
       ∧ (len "a long topic" ≤ 8 -> r = "a long topic")
       ∧ (3 < 8 < len "a long topic" ->
            ∃ t rest, r = t +:+ "..." ∧ "a long topic" = t +:+ rest ∧ len t = 8 - 3).
Proof.
  apply (proj1 (truncateString_bounds "a long topic" 8)). lia.
Defined.

Lemma len_padTo s width : len s ≤ width -> len (padTo s width) = width.
Proof.
  intros Hw. unfold padTo. destruct (Z.ltb_spec (len s) width); [|lia].
  rewrite len_append. unfold len at 2. rewrite length_Repeat_space.
  pose proof (len_nonneg s). lia.
Qed.

(** X2.  [truncateAndPad].  For a width that is not negative the call returns
    a string of exactly that many bytes; a string that fits is kept and
    followed by spaces only.  For a negative width the call panics. *)
Theorem truncateAndPad_exact s width :
  (0 ≤ width ->
     ∃ r, truncateAndPad s width = Some r
          ∧ len r = width
          ∧ (len s ≤ width -> r = s +:+ Repeat " " (Z.to_nat (width - len s))))
  ∧ (width < 0 -> truncateAndPad s width = None).
Proof.
  pose proof (len_nonneg s) as Hs. unfold truncateAndPad. split.
  - intros Hw. destruct (Z.ltb_spec width (len s)) as [Hlong|Hfit].
    + destruct (Z.leb_spec width 3) as [Hsmall|Hbig].
      * destruct (sliceToInt_Some s width) as (t & rest & -> & Hl & _); [lia|].
        exists t. split; [done|]. split; [done|lia].
      * destruct (sliceToInt_Some s (width - 3)) as (t & rest & -> & Hl & _); [lia|].
        cbn [mbind option_bind]. eexists. split; [done|].
        split; [|lia]. apply len_padTo. rewrite len_append.
        change (len "...") with 3. lia.
    + eexists. split; [done|]. split; [by apply len_padTo|].
      intros _. unfold padTo. destruct (Z.ltb_spec (len s) width); [done|].
      replace (width - len s) with 0 by lia. cbn.
      clear. induction s as [|a s IH]; [done|]. rewrite append_cons. by rewrite <- IH.
  - intros Hw. destruct (Z.ltb_spec width (len s)); [|lia].
    destruct (Z.leb_spec width 3); [|lia]. by apply sliceToInt_negative.
Qed.

(** [truncateAndPad] at "#go" and the width 20 of the channel column. *)
Lemma truncateAndPad_exact_witness :
  ∃ r, truncateAndPad "#go" 20 = Some r
       ∧ len r = 20
       ∧ (len "#go" ≤ 20 -> r = "#go" +:+ Repeat " " (Z.to_nat (20 - len "#go"))).
Proof.
  apply (proj1 (truncateAndPad_exact "#go" 20)). lia.
Defined.

Lemma ReplaceAll_append s t old new :
  ReplaceAll (s +:+ t) old new = ReplaceAll s old new +:+ ReplaceAll t old new.
Proof.
  unfold ReplaceAll. induction s as [|a s IH]; [reflexivity|].
  rewrite append_cons. cbn [mapBytes]. by rewrite IH.
Qed.

Lemma ReplaceAll_absent s old new : hasByte old s = false -> ReplaceAll s old new = s.
Proof.
  unfold ReplaceAll. induction s as [|a s IH]; [reflexivity|].
  cbn [hasByte mapBytes]. destruct (decide (a = old)); [discriminate|].
  intros Hs. by rewrite IH.
Qed.

Lemma Split_two a b sep :
  hasByte sep a = false -> hasByte sep b = false ->
  Split (a +:+ String sep b) sep = [a; b].
Proof. intros Ha Hb. by rewrite Split_app_sep, (Split_no_sep b). Qed.

Lemma Split_three a b c sep :
  hasByte sep a = false -> hasByte sep b = false -> hasByte sep c = false ->
  Split (a +:+ String sep (b +:+ String sep c)) sep = [a; b; c].
Proof. intros Ha Hb Hc. by rewrite Split_app_sep, Split_two. Qed.

(** X3.  [parseServerAddress].  "host/port" and "host:port" both give the host
    and the port back; an address without separator, and an address with
    two of them, give the whole address (slashes turned into colons) and the
    port 6667, for which [initialModel] does not turn TLS on. *)
Theorem parseServerAddress_round_trip :
  (∀ host port,
     hasByte "/" host = false -> hasByte ":" host = false ->
     hasByte "/" port = false -> hasByte ":" port = false ->
     parseServerAddress (host +:+ "/" +:+ port) = (host, port)
     ∧ parseServerAddress (host +:+ ":" +:+ port) = (host, port))
  ∧ (∀ addr,
       hasByte "/" addr = false -> hasByte ":" addr = false ->
       parseServerAddress addr = (addr, "6667")
       ∧ useTLS (snd (parseServerAddress addr)) = false)
  ∧ (∀ a b c,
       hasByte "/" a = false -> hasByte ":" a = false ->
       hasByte "/" b = false -> hasByte ":" b = false ->
       hasByte "/" c = false -> hasByte ":" c = false ->
       parseServerAddress (a +:+ "/" +:+ b +:+ "/" +:+ c)
         = (a +:+ ":" +:+ b +:+ ":" +:+ c, "6667")).
Proof.
  split; [|split].
  - intros host port Hh1 Hh2 Hp1 Hp2. unfold parseServerAddress.
    rewrite !ReplaceAll_append, !(ReplaceAll_absent host), !(ReplaceAll_absent port) by done.
    change (ReplaceAll "/" "/" ":") with ":". change (ReplaceAll ":" "/" ":") with ":".
    change (":" +:+ port) with (String ":" port).
    by rewrite Split_two.
  - intros addr Ha1 Ha2. unfold parseServerAddress.
    rewrite ReplaceAll_absent, Split_no_sep by done. done.
  - intros a b c Ha1 Ha2 Hb1 Hb2 Hc1 Hc2. unfold parseServerAddress.
    rewrite !ReplaceAll_append, !(ReplaceAll_absent a), !(ReplaceAll_absent b),
      !(ReplaceAll_absent c) by done.
    change (ReplaceAll "/" "/" ":") with ":".
    change (":" +:+ b +:+ ":" +:+ c) with (String ":" (b +:+ String ":" c)).
    by rewrite Split_three.
Qed.

(** [parseServerAddress] at "irc.libera.chat" and "6697". *)
Lemma parseServerAddress_round_trip_witness :
  parseServerAddress "irc.libera.chat/6697" = ("irc.libera.chat", "6697")
  ∧ parseServerAddress "irc.libera.chat:6697" = ("irc.libera.chat", "6697").
Proof.
  apply (proj1 parseServerAddress_round_trip "irc.libera.chat" "6697"); reflexivity.
Defined.

(** ** Lists of names *)

Lemma contains_elem_of slice item : contains slice item = true ↔ item ∈ slice.
Proof.
  induction slice as [|s rest IH]; cbn [contains].
  - split; [discriminate|]. intros Hin. by apply not_elem_of_nil in Hin.
  - rewrite elem_of_cons. destruct (decide (s = item)) as [->|Hne].
    + split; [by left|done].
    + rewrite IH. split; [by right|]. intros [?|?]; [congruence|done].
Qed.

Lemma contains_false slice item : contains slice item = false ↔ item ∉ slice.
Proof.
  rewrite <- contains_elem_of. destruct (contains slice item); split; (done || tauto).
Qed.

Lemma elem_of_without slice item x : x ∈ without slice item ↔ x ∈ slice ∧ x ≠ item.
Proof.
  induction slice as [|s rest IH]; cbn [without].
  - split; [intros Hin; by apply not_elem_of_nil in Hin|].
    intros [Hin _]. by apply not_elem_of_nil in Hin.
  - destruct (decide (s ≠ item)) as [Hne|Heq]; rewrite ?elem_of_cons, IH, ?elem_of_cons.
    + split; [intros [->|[? ?]]; [split; [by left|done]|split; [by right|done]]|].
      intros [[->|?] ?]; [by left|by right].
    + apply dec_stable in Heq. subst s.
      split; [intros [? ?]; split; [by right|done]|].
      intros [[->|?] ?]; [done|done].
Qed.

Lemma NoDup_without slice item : NoDup slice -> NoDup (without slice item).
Proof.
  induction 1 as [|s rest Hs _ IH]; cbn [without]; [apply NoDup_nil_2|].
  destruct (decide (s ≠ item)); [|done].
  apply NoDup_cons. split; [|done]. rewrite elem_of_without. tauto.
Qed.

Lemma without_absent slice item : item ∉ slice -> without slice item = slice.
Proof.
  induction slice as [|s rest IH]; cbn [without]; [done|].
  rewrite not_elem_of_cons. intros [Hne Hrest].
  destruct (decide (s ≠ item)) as [_|Hn]; [by rewrite IH|].
  exfalso. apply Hn. intros ->. by apply Hne.
Qed.

Lemma without_snoc slice item : item ∉ slice -> without (slice ++ [item]) item = slice.
Proof.
  induction slice as [|s rest IH]; cbn [without app].
  - intros _. destruct (decide (item ≠ item)); [done|done].
  - rewrite not_elem_of_cons. intros [Hne Hrest].
    destruct (decide (s ≠ item)) as [_|Hn]; [by rewrite IH|].
    exfalso. apply Hn. intros ->. by apply Hne.
Qed.

Lemma NoDup_snoc_fresh (l : list string) x : NoDup l -> x ∉ l -> NoDup (l ++ [x]).
Proof.
  intros Hl Hx. apply NoDup_app. split; [done|]. split; [|apply NoDup_singleton].
  intros y Hy Hy'. apply list_elem_of_singleton in Hy'. by subst.
Qed.

End HelperFacts.

(* ===================================================================== *)
(** * The handlers of main.go *)
(* ===================================================================== *)

Module FrontFacts.
Import GoStrings GoStringsFacts IRC CodecFacts App NamesFacts Front HelperFacts.

Section Handlers.
Context `{Renderer}.

Implicit Types (u : ui) (m : model) (data : gmap string string) (ts msg ch : string).

Lemma addMessage_rest u msg :
  base (addMessage u msg) = base u ∧ nick (addMessage u msg) = nick u
  ∧ selectedChanIdx (addMessage u msg) = selectedChanIdx u
  ∧ tls (addMessage u msg) = tls u.
Proof. by destruct u. Qed.

Lemma addMessage_base u msg : base (addMessage u msg) = base u.
Proof. by destruct u. Qed.

Lemma addMessage_nick u msg : nick (addMessage u msg) = nick u.
Proof. by destruct u. Qed.

(** X4.  [addMessage].  The chat keeps the last 500 lines: after a call there
    is one line more, but never more than 500; the lines kept are the end
    of the old lines followed by the new one, which is last. *)
Theorem addMessage_cap u msg :
  length (messages (addMessage u msg)) = Nat.min (S (length (messages u))) 500
  ∧ messages (addMessage u msg) `suffix_of` (messages u ++ [msg])
  ∧ last (messages (addMessage u msg)) = Some msg.
Proof.
  unfold addMessage. destruct u as [b n ms sel t]. cbn [messages withMessages].
  rewrite length_app. cbn [length].
  destruct (Nat.ltb_spec 500 (length ms + 1)) as [Hbig|Hsmall].
  - split; [rewrite length_drop, length_app, Nat.min_r by lia; cbn [length]; lia|].
    split; [eexists; symmetry; apply take_drop|].
    rewrite drop_app_le by lia. apply last_snoc.
  - split; [rewrite length_app, Nat.min_l by lia; cbn [length]; lia|].
    split; [done|apply last_snoc].
Qed.

Lemma addMessage_bound u msg :
  length (messages u) ≤ 500 -> length (messages (addMessage u msg)) ≤ 500.
Proof. intros _. destruct (addMessage_cap u msg) as [-> _]. apply Nat.le_min_r. Qed.

(** A model whose channel list is in order. *)
Lemma tidy_intro u u0 msg :
  NoDup (channels (base u)) ->
  channel (base u) = "" ∨ channel (base u) ∈ channels (base u) ->
  length (messages u) ≤ 500 ->
  tidy (addMessage u msg).
Proof.
  intros Hnd Hcur Hlen. unfold tidy. rewrite addMessage_base.
  split; [done|]. split; [done|by apply addMessage_bound].
Qed.

Lemma tidy_addMessage u msg : tidy u -> tidy (addMessage u msg).
Proof. intros (?&?&?). by apply (tidy_intro u u). Qed.

Lemma tidy_same_channels u u' :
  channels (base u') = channels (base u) -> channel (base u') = channel (base u) ->
  messages u' = messages u -> tidy u -> tidy u'.
Proof. unfold tidy. intros -> -> ->. done. Qed.

Lemma first_elem_of (l : list string) x rest : l = x :: rest -> x ∈ l.
Proof. intros ->. by left. Qed.

(** Leaving a channel keeps the channel list in order, as [handlePart] for
    ourselves and [removeChannel] do it. *)
Lemma leave_channel_ok m ch :
  NoDup (channels m) -> (channel m = "" ∨ channel m ∈ channels m) ->
  let m1 := withChannels m (without (channels m) ch) in
  let m2 := if decide (channel m1 = ch) then
              match channels m1 with
              | first :: _ => withChannel m1 first
              | [] => withChannel m1 ""
              end
            else m1 in
  channels m2 = without (channels m) ch
  ∧ NoDup (channels m2)
  ∧ (channel m2 = "" ∨ channel m2 ∈ channels m2)
  ∧ channelUsers m2 = channelUsers m
  ∧ (ch ≠ "" -> channel m2 ≠ ch).
Proof.
  intros Hnd Hcur. destruct m as [cu chs cur]. cbn in *.
  destruct (decide (cur = ch)) as [->|Hne].
  - destruct (without chs ch) as [|first rest] eqn:Hw; cbn.
    + split; [done|]. split; [apply NoDup_nil_2|]. split; [by left|].
      split; [done|]. congruence.
    + assert (Hin : first ∈ without chs ch) by (rewrite Hw; by left).
      split; [done|]. split; [rewrite <- Hw; by apply NoDup_without|].
      split; [right; by left|]. split; [done|].
      intros _. apply elem_of_without in Hin. tauto.
  - cbn. split; [done|]. split; [by apply NoDup_without|]. split; [|done].
    destruct Hcur as [?|Hin]; [by left|]. right. apply elem_of_without. done.
Qed.

Lemma tidy_handleJoin u ts data : tidy u -> tidy (handleJoin u ts data).
Proof.
  intros (Hnd & Hcur & Hlen). unfold handleJoin.
  match goal with |- tidy (addMessage ?u1 _) => apply (tidy_intro u1 u) end;
    [| |by destruct u].
  - destruct u as [[cu chs cur] me ms sel t]; cbn in *.
    destruct (decide (field data "nick" = me)); cbn.
    + destruct (contains chs (field data "channel")) eqn:Hc; cbn; [done|].
      apply NoDup_snoc_fresh; [done|by apply contains_false].
    + destruct (cu !! field data "channel"); cbn; [|done].
      by destruct (negb _).
  - destruct u as [[cu chs cur] me ms sel t]; cbn in *.
    destruct (decide (field data "nick" = me)); cbn.
    + destruct (contains chs (field data "channel")) eqn:Hc; cbn.
      * right. by apply contains_elem_of.
      * right. apply elem_of_app. right. by left.
    + destruct (cu !! field data "channel"); cbn; [|done].
      by destruct (negb _).
Qed.

Lemma tidy_handleQuit u ts data : tidy u -> tidy (handleQuit u ts data).
Proof.
  intros (Hnd & Hcur & Hlen). unfold handleQuit.
  destruct (decide (field data "reason" ≠ ""));
    match goal with |- tidy (addMessage ?u1 _) => apply (tidy_intro u1 u) end;
    by destruct u as [[cu chs cur] me ms sel t].
Qed.

Lemma tidy_handlePart u ts data : tidy u -> tidy (handlePart u ts data).
Proof.
  intros (Hnd & Hcur & Hlen). unfold handlePart.
  destruct (decide (field data "nick" = nick u)) as [Hme|Hother].
  - pose proof (leave_channel_ok (base u) (field data "channel") Hnd Hcur) as Hl.
    cbn zeta in Hl.
    destruct (decide (channel (withChannels (base u)
                (without (channels (base u)) (field data "channel")))
              = field data "channel"));
      [destruct (channels (withChannels (base u)
                  (without (channels (base u)) (field data "channel"))))|];
      destruct Hl as (Hch & Hnd' & Hcur' & _);
      match goal with |- tidy (addMessage ?u1 _) => apply (tidy_intro u1 u) end;
      try (by destruct u as [[cu chs cur] me ms sel t]).
  - destruct (channelUsers (base u) !! field data "channel");
      match goal with |- tidy (addMessage ?u1 _) => apply (tidy_intro u1 u) end;
      by destruct u as [[cu chs cur] me ms sel t].
Qed.

Lemma tidy_handlePrivmsg u ts data : tidy u -> tidy (handlePrivmsg u ts data).
Proof.
  intros (Hnd & Hcur & Hlen). unfold handlePrivmsg.
  destruct u as [[cu chs cur] me ms sel t]; cbn in *.
  destruct (decide (field data "target" = me)).
  - destruct (contains chs (field data "nick")) eqn:Hc; cbn;
      match goal with |- tidy (addMessage ?u1 _) => apply (tidy_intro u1 u1) end; cbn;
      try done.
    + apply NoDup_snoc_fresh; [done|by apply contains_false].
    + destruct Hcur as [?|?]; [by left|right]. apply elem_of_app. by left.
  - destruct (HasPrefix (field data "target") "#").
    + destruct (cu !! field data "target"); [destruct (negb _)|];
        match goal with |- tidy (addMessage ?u1 _) => apply (tidy_intro u1 u1) end;
        by cbn.
    + destruct (contains chs (field data "target")) eqn:Hc; cbn;
        match goal with |- tidy (addMessage ?u1 _) => apply (tidy_intro u1 u1) end; cbn;
        try done.
      * apply NoDup_snoc_fresh; [done|by apply contains_false].
      * destruct Hcur as [?|?]; [by left|right]. apply elem_of_app. by left.
Qed.

(** X5.  [removeChannel].  The channel is gone from the channel list, whose
    other entries keep their order, and its users are forgotten; unless it
    is the empty name, it is no longer the current channel; a selected row
    that was not negative is a row of the list again when the list is not
    empty; the chat is not touched; and a model in order stays in order. *)
Theorem removeChannel_post u ch :
  channels (base (removeChannel u ch)) = without (channels (base u)) ch
  ∧ (ch ∉ channels (base (removeChannel u ch)))
  ∧ channelUsers (base (removeChannel u ch)) = delete ch (channelUsers (base u))
  ∧ (ch ≠ "" -> channel (base (removeChannel u ch)) ≠ ch)
  ∧ (0 ≤ selectedChanIdx u -> channels (base (removeChannel u ch)) ≠ [] ->
       0 ≤ selectedChanIdx (removeChannel u ch)
         < Z.of_nat (length (channels (base (removeChannel u ch)))))%Z
  ∧ messages (removeChannel u ch) = messages u
  ∧ (tidy u -> tidy (removeChannel u ch)).
Proof.
  destruct u as [[cu chs cur] me ms sel t]. unfold removeChannel, tidy. cbn.
  assert (Hout : ch ∉ without chs ch) by (rewrite elem_of_without; tauto).
  destruct (decide (cur = ch)) as [->|Hne].
  - destruct (without chs ch) as [|first rest] eqn:Hw; cbn -[Z.of_nat Z.leb Z.ltb].
    + split; [done|]. split; [done|]. split; [done|]. split; [congruence|].
      split; [done|]. split; [done|]. intros (Hnd & _ & Hlen).
      split; [apply NoDup_nil_2|]. split; [by left|done].
    + assert (Hin : first ∈ without chs ch) by (rewrite Hw; by left).
      split; [done|]. split; [done|]. split; [done|].
      split; [intros _ ->; apply Hout; by left|].
      split.
      { intros _ _. cbn [length].
        destruct (Z.leb_spec (Z.of_nat (S (length rest))) 0);
          destruct (Z.ltb_spec 0 (Z.of_nat (S (length rest)))); cbn [andb]; lia. }
      split; [done|]. intros (Hnd & _ & Hlen).
      split; [rewrite <- Hw; by apply NoDup_without|]. split; [right; by left|done].
  - cbn. split; [done|]. split; [done|]. split; [done|]. split; [done|].
    split.
    { intros Hsel Hnil.
      destruct (without chs ch) as [|first rest]; [done|]. cbn [length] in *.
      destruct (Z.leb_spec (Z.of_nat (S (length rest))) sel);
        destruct (Z.ltb_spec 0 (Z.of_nat (S (length rest)))); cbn [andb]; lia. }
    split; [done|]. intros (Hnd & Hcur & Hlen).
    split; [by apply NoDup_without|]. split; [|done].
    destruct Hcur as [?|Hin]; [by left|]. right. by apply elem_of_without.
Qed.


Lemma tidy_removeChannel u ch : tidy u -> tidy (removeChannel u ch).
Proof.
  intros (Hnd & Hcur & Hlen).
  destruct u as [[cu chs cur] me ms sel t]. unfold removeChannel, tidy. cbn in *.
  destruct (decide (cur = ch)) as [->|Hne].
  - destruct (without chs ch) as [|first rest] eqn:Hw; cbn.
    + split; [apply NoDup_nil_2|]. split; [by left|done].
    + split; [rewrite <- Hw; by apply NoDup_without|]. split; [right; by left|done].
  - cbn. split; [by apply NoDup_without|]. split; [|done].
    destruct Hcur as [?|Hin]; [by left|]. right. by apply elem_of_without.
Qed.

Lemma removeChannel_channelUsers u ch :
  channelUsers (base (removeChannel u ch)) = delete ch (channelUsers (base u)).
Proof.
  destruct u as [[cu chs cur] me ms sel t]. unfold removeChannel. cbn.
  destruct (decide (cur = ch)); [destruct (without chs ch)|]; done.
Qed.

Lemma tidy_handleError u ts data : tidy u -> tidy (handleError u ts data).
Proof.
  intros Ht. unfold handleError.
  destruct (decide (field data "remove_channel" = "true")); [|by apply tidy_addMessage].
  destruct (decide (field data "channel" ≠ "")); [|by apply tidy_addMessage].
  by apply tidy_removeChannel, tidy_addMessage.
Qed.

Lemma tidy_handleNames u data : tidy u -> tidy (handleNames u data).
Proof.
  apply tidy_same_channels; [| |by destruct u];
    destruct u as [[cu chs cur] me ms sel t]; unfold handleNames, App.handleNames; cbn;
    by destruct (cu !! _).
Qed.

Lemma tidy_handleEndOfNames u data : tidy u -> tidy (handleEndOfNames u data).
Proof.
  apply tidy_same_channels; [| |by destruct u];
    destruct u as [[cu chs cur] me ms sel t];
    unfold handleEndOfNames, App.handleEndOfNames, updateSidebars; cbn;
    by destruct (cu !! _).
Qed.

Lemma truncateAndPad_returns s width : (0 ≤ width)%Z -> is_Some (truncateAndPad s width).
Proof.
  intros Hw. pose proof (len_nonneg s). unfold truncateAndPad.
  destruct (Z.ltb_spec width (len s)); [|by eauto].
  destruct (Z.leb_spec width 3).
  - destruct (sliceToInt_Some s width) as (t & rest & -> & _); [lia|]. by eauto.
  - destruct (sliceToInt_Some s (width - 3)) as (t & rest & -> & _); [lia|]. by eauto.
Qed.

Lemma truncateString_returns s maxLen : (0 ≤ maxLen)%Z -> is_Some (truncateString s maxLen).
Proof.
  intros Hw. pose proof (len_nonneg s). unfold truncateString.
  destruct (Z.leb_spec (len s) maxLen); [by eauto|].
  destruct (Z.leb_spec maxLen 3).
  - destruct (sliceToInt_Some s maxLen) as (t & rest & -> & _); [lia|]. by eauto.
  - destruct (sliceToInt_Some s (maxLen - 3)) as (t & rest & -> & _); [lia|]. by eauto.
Qed.

(** [handleList] never panics: its three columns have widths 20, 8 and at
    least 10. *)
Lemma handleList_returns u ts chatWidth data :
  ∃ line, handleList u ts chatWidth data = Some (addMessage u line).
Proof.
  unfold handleList.
  destruct (truncateAndPad_returns (field data "channel") 20) as [a ->]; [lia|].
  destruct (truncateAndPad_returns ("[" +:+ field data "users" +:+ "]") 8) as [b ->]; [lia|].
  cbn [mbind option_bind].
  match goal with |- context [truncateString ?s ?w] =>
    destruct (truncateString_returns s w) as [c ->] end.
  { destruct (Z.leb_spec chatWidth 0);
      match goal with |- context [(?x <? 10)%Z] => destruct (Z.ltb_spec x 10) end; lia. }
  cbn. by eexists.
Qed.

(** X6.  [handleIRCMessage].  Whatever the event, the call returns, and a
    model in order (no channel twice in the list, the current channel in
    the list or empty, at most 500 chat lines) is in order afterwards; the
    model [initialModel] builds is in order. *)
Theorem handleIRCMessage_keeps_tidy u ts chatWidth (msg : ircMessage) :
  (∀ port me, tidy (initialModel port me))
  ∧ (tidy u ->
     ∃ u' later, handleIRCMessage u ts chatWidth msg = Some (u', later) ∧ tidy u').
Proof.
  split.
  { intros port me. unfold tidy, initialModel. cbn.
    split; [apply NoDup_nil_2|]. split; [by left|lia]. }
  intros Ht. unfold handleIRCMessage.
  destruct (bool_decide _);
    [eexists _, _; split; [done|]; by apply tidy_addMessage|].
  repeat case_decide;
    try (match goal with
         | |- context [handleList ?a ?b ?c ?d] =>
             destruct (handleList_returns a b c d) as [line ->]
         end; cbn [mbind option_bind]);
    try (unfold handleTLSError; destruct (tls _));
    eexists _, _; (split; [reflexivity|]);
    first [ done
          | by repeat apply tidy_addMessage
          | by apply tidy_handlePrivmsg | by apply tidy_handleJoin
          | by apply tidy_handlePart | by apply tidy_handleQuit
          | by apply tidy_handleError
          | by apply tidy_handleNames | by apply tidy_handleEndOfNames ].
Qed.


(** ** The user lists *)

Lemma usersTidy_alt u :
  usersTidy u ↔ map_Forall (fun _ users => NoDup users) (channelUsers (base u)).
Proof. done. Qed.

Lemma usersTidy_same u u' :
  channelUsers (base u') = channelUsers (base u) -> usersTidy u -> usersTidy u'.
Proof. unfold usersTidy. by intros ->. Qed.

Lemma usersTidy_addMessage u msg : usersTidy u -> usersTidy (addMessage u msg).
Proof. apply usersTidy_same. by destruct u. Qed.

(** Noting a user in a channel, as [handleJoin] and [handlePrivmsg] do it. *)
Lemma note_user_ok (cu : gmap string (list string)) ch who :
  map_Forall (fun _ users => NoDup users) cu ->
  map_Forall (fun _ users => NoDup users)
    (channelUsers
       (match cu !! ch with
        | Some users =>
            if negb (contains users who)
            then withChannelUsers (mkModel cu [] "") (<[ch := users ++ [who]]> cu)
            else mkModel cu [] ""
        | None => withChannelUsers (mkModel cu [] "") (<[ch := [who]]> cu)
        end)).
Proof.
  intros Hcu. destruct (cu !! ch) as [users|] eqn:Hch.
  - destruct (contains users who) eqn:Hc; cbn; [done|].
    apply map_Forall_insert_2; [|done].
    apply NoDup_snoc_fresh; [by apply (Hcu _ _ Hch)|by apply contains_false].
  - cbn. apply map_Forall_insert_2; [apply NoDup_singleton|done].
Qed.

Lemma usersTidy_handleJoin u ts data : usersTidy u -> usersTidy (handleJoin u ts data).
Proof.
  rewrite !usersTidy_alt. intros Hcu. unfold handleJoin. rewrite addMessage_base.
  destruct u as [[cu chs cur] me ms sel t]; cbn in *.
  destruct (decide (field data "nick" = me)); cbn.
  - by destruct (negb _).
  - pose proof (note_user_ok cu (field data "channel") (field data "nick") Hcu) as Hn.
    destruct (cu !! field data "channel"); [destruct (negb _)|]; exact Hn.
Qed.

Lemma usersTidy_handleQuit u ts data : usersTidy u -> usersTidy (handleQuit u ts data).
Proof.
  rewrite !usersTidy_alt. intros Hcu. unfold handleQuit.
  destruct (decide (field data "reason" ≠ "")); rewrite addMessage_base;
    destruct u as [[cu chs cur] me ms sel t]; cbn in *;
    apply map_Forall_fmap; (eapply map_Forall_impl; [exact Hcu|]);
    intros ch users Hnd; by apply NoDup_without.
Qed.

Lemma usersTidy_handlePart u ts data : usersTidy u -> usersTidy (handlePart u ts data).
Proof.
  rewrite !usersTidy_alt. intros Hcu. unfold handlePart.
  destruct u as [[cu chs cur] me ms sel t]; cbn in *.
  destruct (decide (field data "nick" = me)).
  - destruct (decide (cur = field data "channel"));
      [destruct (without chs (field data "channel"))|];
      rewrite addMessage_base; cbn; by apply map_Forall_delete.
  - destruct (cu !! field data "channel") as [users|] eqn:Hch;
      rewrite addMessage_base; cbn; [|done].
    apply map_Forall_insert_2; [|done]. apply NoDup_without. by apply (Hcu _ _ Hch).
Qed.

Lemma usersTidy_handlePrivmsg u ts data :
  usersTidy u -> usersTidy (handlePrivmsg u ts data).
Proof.
  rewrite !usersTidy_alt. intros Hcu. unfold handlePrivmsg.
  destruct u as [[cu chs cur] me ms sel t]; cbn in *.
  destruct (decide (field data "target" = me)).
  - rewrite addMessage_base. cbn. by destruct (negb _).
  - destruct (HasPrefix (field data "target") "#").
    + rewrite addMessage_base. cbn.
      pose proof (note_user_ok cu (field data "target") (field data "nick") Hcu) as Hn.
      destruct (cu !! field data "target"); [destruct (negb _)|]; exact Hn.
    + rewrite addMessage_base. cbn. by destruct (negb _).
Qed.

Lemma usersTidy_removeChannel u ch : usersTidy u -> usersTidy (removeChannel u ch).
Proof.
  rewrite !usersTidy_alt. intros Hcu.
  rewrite removeChannel_channelUsers. by apply map_Forall_delete.
Qed.

Lemma usersTidy_handleError u ts data : usersTidy u -> usersTidy (handleError u ts data).
Proof.
  intros Ht. unfold handleError.
  destruct (decide (field data "remove_channel" = "true")); [|by apply usersTidy_addMessage].
  destruct (decide (field data "channel" ≠ "")); [|by apply usersTidy_addMessage].
  by apply usersTidy_removeChannel, usersTidy_addMessage.
Qed.

(** ENDOFNAMES puts the list of its channel in order, whatever it was. *)
Lemma handleEndOfNames_tidies u data :
  (∀ ch users, ch ≠ field data "channel" ->
     channelUsers (base u) !! ch = Some users -> NoDup users) ->
  usersTidy (handleEndOfNames u data).
Proof.
  intros Hcu. unfold handleEndOfNames, App.handleEndOfNames, updateSidebars.
  destruct u as [[cu chs cur] me ms sel t]; cbn in *.
  destruct (cu !! field data "channel") as [users|] eqn:Hch;
    unfold usersTidy; cbn.
  - intros ch us. destruct (decide (ch = field data "channel")) as [->|Hne].
    + rewrite lookup_insert_eq. intros [= <-]. apply cleanUsers_clean.
    + rewrite lookup_insert_ne by done. by apply Hcu.
  - intros ch us Hl. apply (Hcu ch); [|done]. intros ->. congruence.
Qed.

(** X7.  The user lists.  Whatever the event, other than NAMES, a model in
    which no user appears twice in the list of a channel is still so after
    [handleIRCMessage]; and after a NAMES for a channel, which may break
    this, the ENDOFNAMES for the channel restores it. *)
Theorem handleIRCMessage_keeps_usersTidy u ts chatWidth (msg : ircMessage) u' later :
  usersTidy u ->
  handleIRCMessage u ts chatWidth msg = Some (u', later) ->
  (msgType msg ≠ "NAMES" -> usersTidy u')
  ∧ (∀ ch names,
       usersTidy (handleEndOfNames (handleNames u (namesData ch names))
                                   (endOfNamesData ch))).
Proof.
  intros Ht Hrun. split.
  - intros Hne. revert Hrun. unfold handleIRCMessage.
    destruct (bool_decide _);
      [intros [= <- <-]; by apply usersTidy_addMessage|].
    repeat case_decide;
      try (match goal with
           | |- context [handleList ?a ?b ?c ?d] =>
               destruct (handleList_returns a b c d) as [line ->]
           end; cbn [mbind option_bind]);
      try (unfold handleTLSError; destruct (tls _));
      intros [= <- <-];
      first [ done
            | by repeat apply usersTidy_addMessage
            | by apply usersTidy_handlePrivmsg | by apply usersTidy_handleJoin
            | by apply usersTidy_handlePart | by apply usersTidy_handleQuit
            | by apply usersTidy_handleError
            | apply handleEndOfNames_tidies; intros; by eapply Ht ].
  - intros ch names. apply handleEndOfNames_tidies.
    rewrite field_channel_end. intros ch' users Hne.
    unfold handleNames, App.handleNames. rewrite field_channel_names.
    destruct u as [[cu chs cur] me ms sel t]; cbn.
    destruct (cu !! ch); cbn; rewrite lookup_insert_ne by done; by apply Ht.
Qed.

(** X8.  [handleQuit].  The user who quit is in no list afterwards; every list
    keeps its other users in order; the channels are the same. *)
Theorem handleQuit_removes_everywhere u ts data :
  (∀ ch, channelUsers (base (handleQuit u ts data)) !! ch
         = (fun users => without users (field data "nick"))
             <$> channelUsers (base u) !! ch)
  ∧ (∀ ch users, channelUsers (base (handleQuit u ts data)) !! ch = Some users ->
       field data "nick" ∉ users)
  ∧ channels (base (handleQuit u ts data)) = channels (base u)
  ∧ channel (base (handleQuit u ts data)) = channel (base u).
Proof.
  assert (Hb : base (handleQuit u ts data)
               = withChannelUsers (base u)
                   ((fun users => without users (field data "nick"))
                      <$> channelUsers (base u))).
  { unfold handleQuit. destruct (decide (field data "reason" ≠ ""));
      rewrite addMessage_base; by destruct u as [[cu chs cur] me ms sel t]. }
  rewrite Hb. destruct u as [[cu chs cur] me ms sel t]; cbn.
  split; [intros ch; by rewrite lookup_fmap|]. split; [|done].
  intros ch users. rewrite lookup_fmap. destruct (cu !! ch); [|discriminate].
  cbn. intros [= <-]. rewrite elem_of_without. tauto.
Qed.


(** X9.  A JOIN and then a PART of another user.  When the user was not in
    the list of the channel, the JOIN puts him at its end and the PART
    gives the list back as it was. *)
Theorem join_then_part_restores u ts ts' data users :
  field data "nick" ≠ nick u ->
  channelUsers (base u) !! field data "channel" = Some users ->
  field data "nick" ∉ users ->
  channelUsers (base (handleJoin u ts data)) !! field data "channel"
    = Some (users ++ [field data "nick"])
  ∧ channelUsers (base (handlePart (handleJoin u ts data) ts' data))
      !! field data "channel" = Some users
  ∧ channels (base (handlePart (handleJoin u ts data) ts' data)) = channels (base u).
Proof.
  intros Hother Hch Hfresh.
  assert (Hj : base (handleJoin u ts data)
               = withChannelUsers (base u)
                   (<[field data "channel" := users ++ [field data "nick"]]>
                      (channelUsers (base u)))
               ∧ nick (handleJoin u ts data) = nick u).
  { unfold handleJoin. rewrite addMessage_base, addMessage_nick.
    destruct (decide (field data "nick" = nick u)); [done|]. rewrite Hch.
    apply contains_false in Hfresh. rewrite Hfresh. by destruct u. }
  destruct Hj as [Hj Hn]. rewrite Hj.
  split; [destruct u as [[cu chs cur] me ms sel t]; cbn; by rewrite lookup_insert_eq|].
  unfold handlePart. rewrite Hn, Hj.
  destruct (decide (field data "nick" = nick u)); [done|].
  destruct u as [[cu chs cur] me ms sel t]; cbn in *.
  rewrite lookup_insert_eq. rewrite addMessage_base. cbn.
  rewrite lookup_insert_eq, without_snoc by done. done.
Qed.


End Handlers.

(** [handleQuit] of "bob" on a model with two channels. *)
Lemma handleQuit_removes_everywhere_witness :
  field (<["nick" := "bob"]> ∅) "nick" ∉ ["alice"].
Proof.
  apply (proj1 (proj2 (handleQuit_removes_everywhere (H := plainRenderer)
           (mkUi (mkModel (<["#a" := ["alice"; "bob"]]> (<["#b" := ["bob"]]> ∅)) ["#a"; "#b"] "#a")
                 "me" [] 0 false)
           "12:00" (<["nick" := "bob"]> ∅))) "#a" ["alice"]).
  vm_compute. reflexivity.
Defined.

(** A PRIVMSG from "bob" on a model where "#go" has "alice". *)
Lemma handleIRCMessage_keeps_usersTidy_witness :
  usersTidy (handlePrivmsg (H := plainRenderer)
               (mkUi (mkModel (<["#go" := ["alice"]]> ∅) ["#go"] "#go") "me" [] 0 false)
               "12:00"
               (<["nick" := "bob"]> (<["target" := "#go"]> (<["message" := "hi"]> ∅)))).
Proof.
  apply (proj1 (handleIRCMessage_keeps_usersTidy (H := plainRenderer)
           (mkUi (mkModel (<["#go" := ["alice"]]> ∅) ["#go"] "#go") "me" [] 0 false)
           "12:00" 80
           (mkMsg "PRIVMSG"
              (<["nick" := "bob"]> (<["target" := "#go"]> (<["message" := "hi"]> ∅))))
           _ []
           ltac:(intros ch users Hl; cbn [channelUsers base] in Hl;
                 destruct (decide (ch = "#go")) as [->|Hne];
                 [ rewrite lookup_insert_eq in Hl; injection Hl as <-;
                   apply NoDup_singleton
                 | rewrite lookup_insert_ne in Hl by done; discriminate ])
           ltac:(reflexivity))).
  discriminate.
Defined.

(** A JOIN and a PART of "bob" in "#go", where "alice" is. *)
Lemma join_then_part_restores_witness :
  channelUsers
    (base (handlePart (H := plainRenderer)
             (handleJoin (H := plainRenderer)
                (mkUi (mkModel (<["#go" := ["alice"]]> ∅) ["#go"] "#go") "me" [] 0 false)
                "12:00" (<["nick" := "bob"]> (<["channel" := "#go"]> ∅)))
             "12:01" (<["nick" := "bob"]> (<["channel" := "#go"]> ∅))))
    !! "#go" = Some ["alice"].
Proof.
  refine (proj1 (proj2 (join_then_part_restores (H := plainRenderer)
           (mkUi (mkModel (<["#go" := ["alice"]]> ∅) ["#go"] "#go") "me" [] 0 false)
           "12:00" "12:01" (<["nick" := "bob"]> (<["channel" := "#go"]> ∅)) ["alice"]
           _ _ _))).
  - vm_compute. discriminate.
  - reflexivity.
  - intros Hin. apply list_elem_of_singleton in Hin. vm_compute in Hin. discriminate.
Defined.

(** [removeChannel] of "#b" on a model with three channels, "#b" current
    and the last row selected. *)
Lemma removeChannel_post_witness :
  channel (base (removeChannel
                   (mkUi (mkModel ∅ ["#a"; "#b"; "#c"] "#b") "me" [] 2 false) "#b"))
    ≠ "#b"
  ∧ (0 ≤ selectedChanIdx
           (removeChannel (mkUi (mkModel ∅ ["#a"; "#b"; "#c"] "#b") "me" [] 2 false) "#b")
       < 2)%Z.
Proof.
  pose proof (removeChannel_post
                (mkUi (mkModel ∅ ["#a"; "#b"; "#c"] "#b") "me" [] 2 false) "#b")
    as (_ & _ & _ & Hcur & Hsel & _).
  split; [apply Hcur; discriminate|].
  apply Hsel; [cbn; lia|discriminate].
Defined.

(** [handleIRCMessage] on the initial model and a JOIN of our own. *)
Lemma handleIRCMessage_keeps_tidy_witness :
  ∃ u' later,
    handleIRCMessage (H := plainRenderer) (initialModel "6697" "me") "12:00" 80
      (mkMsg "JOIN" (<["nick" := "me"]> (<["channel" := "#go"]> ∅))) = Some (u', later)
    ∧ tidy u'.
Proof.
  apply (proj2 (handleIRCMessage_keeps_tidy (H := plainRenderer) (initialModel "6697" "me") "12:00" 80
                  (mkMsg "JOIN" (<["nick" := "me"]> (<["channel" := "#go"]> ∅))))).
  unfold tidy. cbn. split; [apply NoDup_nil_2|]. split; [by left|lia].
Defined.

End FrontFacts.

(* ===================================================================== *)
(** * main.go: what the event bridge sends *)
(* ===================================================================== *)

Module BridgeFacts.
Import GoStrings IRC App Front.



Lemma closuresUnder_app {A} tag (l1 l2 : list (string * A)) :
  closuresUnder tag (l1 ++ l2) = closuresUnder tag l1 ++ closuresUnder tag l2.
Proof.
  induction l1 as [|[e h] l1 IH]; [done|]. cbn [closuresUnder app].
  destruct (decide (e = tag)); by rewrite IH.
Qed.

Lemma elem_of_closuresUnder {A} tag (h : A) regs :
  h ∈ closuresUnder tag regs ↔ (tag, h) ∈ regs.
Proof.
  induction regs as [|[e k] regs IH]; cbn [closuresUnder].
  - by rewrite !elem_of_nil.
  - destruct (decide (e = tag)) as [->|Hne]; rewrite !elem_of_cons, IH.
    + split; (intros [Heq|Hin]; [left|by right]); congruence.
    + split; [by right|]. intros [Heq|Hin]; [congruence|done].
Qed.

Lemma closuresUnder_absent {A} tag (regs : list (string * A)) :
  tag ∉ map fst regs -> closuresUnder tag regs = [].
Proof.
  induction regs as [|[e k] regs IH]; [done|]. cbn [closuresUnder map fst].
  rewrite not_elem_of_cons. intros [Hne Hout].
  destruct (decide (e = tag)); [congruence|by apply IH].
Qed.

(** The events of the handlers of a command, one by one. *)
Lemma elem_of_emitted_false msg line :
  msg ∈ emitted false line ↔
  ∃ h, (Cmd line, h) ∈ setupIRCHandlers false ∧ h line = Some msg.
Proof.
  unfold emitted.
  replace (closuresUnder "*" (setupIRCHandlers false)) with
    (@nil (Line -> option ircMessage)) by reflexivity.
  rewrite app_nil_r, list_elem_of_omap. split.
  - intros [h [Hin Hh]]. exists h. by rewrite <- elem_of_closuresUnder.
  - intros [h [Hin Hh]]. exists h. by rewrite elem_of_closuresUnder.
Qed.

(** The handlers of a line, written out. *)
Ltac handler_cases Hin :=
  unfold setupIRCHandlers in Hin; cbn [app map] in Hin;
  repeat (apply elem_of_cons in Hin as [Hin|Hin];
          [injection Hin as ? ?; subst|]);
  [..|by apply elem_of_nil in Hin].

Ltac split_args :=
  repeat match goal with
         | H : context [match ?a with [] => _ | _ :: _ => _ end] |- _ =>
             is_var a; destruct a
         | H : context [if ?b then _ else _] |- _ => destruct b eqn:?
         end.

(** X10.  Which events ask for a channel to be removed.  The bridge marks an
    event "remove_channel" only for a 401 or 403 line with a second
    argument: the event is an ERROR, the mark is "true" and its channel is
    that argument.  Every 401 and 403 line with two arguments gives such an
    event; no other numeric, 404 included, does. *)
Theorem emitted_remove_channel verbose line :
  (∀ msg, msg ∈ emitted verbose line ->
     msgData msg !! "remove_channel" ≠ None ->
     (Cmd line = "401" ∨ Cmd line = "403")
     ∧ msgType msg = "ERROR"
     ∧ msgData msg !! "remove_channel" = Some "true"
     ∧ ∃ a0 target rest, Args line = a0 :: target :: rest
                         ∧ msgData msg !! "channel" = Some target)
  ∧ ((Cmd line = "401" ∨ Cmd line = "403") ->
     ∀ a0 target rest, Args line = a0 :: target :: rest ->
     ∃ msg, msg ∈ emitted verbose line
            ∧ msgType msg = "ERROR"
            ∧ msgData msg !! "remove_channel" = Some "true"
            ∧ msgData msg !! "channel" = Some target).
Proof.
  assert (Hstar : ∀ msg, msg ∈ emitted verbose line ->
            msg ∈ emitted false line ∨ msgType msg = "DEBUG" ∧ msgData msg !! "remove_channel" = None).
  { intros msg. unfold emitted. rewrite !list_elem_of_omap.
    intros [h [Hin Hh]]. destruct verbose; [|left; by exists h].
    apply elem_of_app in Hin as [Hin|Hin].
    - unfold setupIRCHandlers in Hin. rewrite closuresUnder_app in Hin.
      apply elem_of_app in Hin as [Hin|Hin].
      + cbn [closuresUnder] in Hin. destruct (decide ("*" = Cmd line)); [|by apply elem_of_nil in Hin].
        apply list_elem_of_singleton in Hin as ->. injection Hh as <-. by right.
      + left. exists h. split; [|done]. apply elem_of_app. by left.
    - replace (closuresUnder "*" (setupIRCHandlers true))
        with (closuresUnder "*" (take 1 (setupIRCHandlers true))) in Hin by reflexivity.
      cbn in Hin. apply list_elem_of_singleton in Hin as ->. injection Hh as <-. by right. }
  split.
  - intros msg Hin Hflag. apply Hstar in Hin as [Hin|[_ Hnone]]; [|done].
    apply elem_of_emitted_false in Hin as [h [Hin Hh]].
    destruct line as [n s c args]; cbn [Cmd Args Nick Src] in *.
    handler_cases Hin;
      unfold sendServerInfo, sendMOTD, channelErrorHandler, sendChannelError,
        sendError, namesData, endOfNamesData in Hh;
      cbn [Cmd Args Nick Src] in Hh; split_args; simplify_eq;
      cbn [msgData msgType] in *;
      try (exfalso; apply Hflag; vm_compute; reflexivity);
      (split; [by (left + right)|]); (split; [done|]); (split; [by vm_compute|]);
      eexists _, _, _; (split; [reflexivity|]); by vm_compute.
  - intros Hc a0 target rest Hargs.
    destruct line as [n s c args]; cbn [Cmd Args] in *. subst args.
    destruct Hc as [-> | ->].
    + exists (sendChannelError "401" ("No such nick: " +:+ target) target).
      split; [|by vm_compute].
      unfold emitted. apply list_elem_of_omap.
      exists (channelErrorHandler "401" "No such nick: "). split; [|done].
      apply elem_of_app. left. apply elem_of_closuresUnder. cbn [Cmd].
      destruct verbose; unfold setupIRCHandlers; cbn [app map];
        repeat (first [by apply list_elem_of_here | apply list_elem_of_further]).
    + exists (sendChannelError "403" ("No such channel: " +:+ target) target).
      split; [|by vm_compute].
      unfold emitted. apply list_elem_of_omap.
      exists (channelErrorHandler "403" "No such channel: "). split; [|done].
      apply elem_of_app. left. apply elem_of_closuresUnder. cbn [Cmd].
      destruct verbose; unfold setupIRCHandlers; cbn [app map];
        repeat (first [by apply list_elem_of_here | apply list_elem_of_further]).
Qed.





Lemma closuresUnder_only {A} tag (h : A) l1 l2 :
  tag ∉ map fst l1 -> tag ∉ map fst l2 ->
  closuresUnder tag (l1 ++ (tag, h) :: l2) = [h].
Proof.
  intros H1 H2. rewrite closuresUnder_app, (closuresUnder_absent _ _ H1).
  cbn [closuresUnder app]. rewrite decide_True by done.
  by rewrite (closuresUnder_absent _ _ H2).
Qed.




End BridgeFacts.

(* ===================================================================== *)
(** * irc.go: more of the codec *)
(* ===================================================================== *)

Module CodecMore.
Import GoStrings GoStringsFacts IRC CodecFacts.

Lemma hasByte_app c a b : hasByte c (a +:+ b) = hasByte c a || hasByte c b.
Proof.
  induction a as [|x a IH]; [reflexivity|].
  rewrite append_cons. cbn [hasByte]. by destruct (decide (x = c)).
Qed.

(** A string either has no byte [c], or is cut at its first [c]. *)
Lemma first_byte c s :
  hasByte c s = false
  ∨ ∃ a b, s = a +:+ String c b ∧ hasByte c a = false.
Proof.
  induction s as [|x s IH]; [by left|]. cbn [hasByte].
  destruct (decide (x = c)) as [->|Hne].
  - right. by exists "", s.
  - destruct IH as [Hno|(a & b & -> & Ha)]; [by left|].
    right. exists (String x a), b. split; [reflexivity|].
    cbn [hasByte]. by rewrite decide_False.
Qed.

Lemma Index_absent s c : hasByte c s = false -> Index s c = (-1)%Z.
Proof.
  induction s as [|x s IH]; [reflexivity|]. cbn [hasByte Index].
  destruct (decide (x = c)); [discriminate|]. intros Hs. by rewrite (IH Hs).
Qed.

Lemma Index_first a b c :
  hasByte c a = false -> Index (a +:+ String c b) c = Z.of_nat (String.length a).
Proof.
  induction a as [|x a IH].
  - intros _. change ("" +:+ String c b) with (String c b). cbn [Index String.length].
    by destruct (decide (c = c)).
  - rewrite append_cons. cbn [hasByte Index String.length].
    destruct (decide (x = c)); [discriminate|]. intros Ha. rewrite (IH Ha).
    destruct (Z.eqb_spec (Z.of_nat (String.length a)) (-1)); lia.
Qed.

Lemma sliceTo_app a b : sliceTo (a +:+ b) (String.length a) = Some a.
Proof.
  induction a as [|x a IH]; [by destruct b|].
  rewrite append_cons. cbn [sliceTo String.length]. by rewrite IH.
Qed.

Lemma Split_pieces s sep :
  Forall (fun p => hasByte sep p = false) (Split s sep).
Proof.
  induction s as [|x s IH]; cbn [Split].
  - by repeat constructor.
  - destruct (decide (x = sep)) as [->|Hne]; [by constructor|].
    destruct (Split s sep) as [|w ws]; inversion IH; subst;
      constructor; try done; cbn [hasByte]; by rewrite decide_False.
Qed.






Section Codec.
Context `{UnicodeTables}.

Lemma parseLine_plain_start raw :
  HasPrefix raw ":" = false -> parseLine raw = parseCommand (mkLine "" "" "" []) raw.
Proof. intros Hp. unfold parseLine. by rewrite Hp. Qed.

(** The first half of [parseLine] on a line with a prefix and a space
    after it. *)
Lemma parseLine_prefixed src rest :
  hasByte " " src = false ->
  parseLine (String ":" (src +:+ String " " rest))
  = (line ← (if decide (Index src "!" ≠ (-1)%Z)
             then nick ← sliceTo src (Z.to_nat (Index src "!"));
                  Some (mkLine nick src "" [])
             else Some (mkLine "" src "" []));
     parseCommand line rest).
Proof.
  intros Hsrc. unfold parseLine.
  rewrite HasPrefix_colon_cons, bool_decide_eq_true_2 by reflexivity.
  rewrite sliceFrom_1_cons. cbn [mbind option_bind].
  rewrite (SplitN2_app_sep _ _ _ Hsrc).
  cbn [length Nat.ltb Nat.leb lookup list_lookup mbind option_bind].
  unfold withSrc, withNick. cbn [Src Nick Cmd Args].
  destruct (decide _); [|reflexivity].
  by destruct (sliceTo src _).
Qed.

Lemma parseLine_from_user n userhost rest :
  hasByte " " n = false -> hasByte "!" n = false -> hasByte " " userhost = false ->
  parseLine (":" +:+ n +:+ "!" +:+ userhost +:+ " " +:+ rest)
    = parseCommand (mkLine n (n +:+ "!" +:+ userhost) "" []) rest.
Proof.
  intros Hn Hbang Hu.
  change (":" +:+ ?x) with (String ":" x).
  replace (n +:+ "!" +:+ userhost +:+ " " +:+ rest)
    with ((n +:+ String "!" userhost) +:+ String " " rest)
    by (by rewrite append_assoc).
  rewrite parseLine_prefixed
    by (rewrite hasByte_app; cbn [hasByte]; rewrite decide_False by done;
        by rewrite Hn, Hu).
  rewrite (Index_first _ _ _ Hbang), decide_True by lia.
  by rewrite Nat2Z.id, sliceTo_app.
Qed.

Lemma parseLine_from_server src rest :
  hasByte " " src = false -> hasByte "!" src = false ->
  parseLine (":" +:+ src +:+ " " +:+ rest) = parseCommand (mkLine "" src "" []) rest.
Proof.
  intros Hsrc Hbang.
  change (":" +:+ ?x) with (String ":" x). change (" " +:+ rest) with (String " " rest).
  rewrite (parseLine_prefixed _ _ Hsrc), (Index_absent _ _ Hbang).
  by rewrite decide_False by (intros Hne; by apply Hne).
Qed.

(** X13.  The prefix.  In a line ":nick!user@host rest" the source is the
    whole prefix and the nick is what stands before its first "!"; in a
    line ":server rest", whose prefix has no "!", the nick is empty.  What
    follows the prefix is parsed as the command and its parameters. *)
Theorem parseLine_nick_of_prefix rest :
  (∀ n userhost,
     hasByte " " n = false -> hasByte "!" n = false -> hasByte " " userhost = false ->
     parseLine (":" +:+ n +:+ "!" +:+ userhost +:+ " " +:+ rest)
       = parseCommand (mkLine n (n +:+ "!" +:+ userhost) "" []) rest)
  ∧ (∀ src,
       hasByte " " src = false -> hasByte "!" src = false ->
       parseLine (":" +:+ src +:+ " " +:+ rest)
         = parseCommand (mkLine "" src "" []) rest).
Proof.
  split.
  - intros n userhost. apply parseLine_from_user.
  - intros src. apply parseLine_from_server.
Qed.

(** X14.  What the outbound commands send parses back to what they were
    given.  The line of [Privmsg] gives PRIVMSG with the target and the
    message, whatever the message; the lines of [Join] and [Part] give the
    channel; the line of [Quit] gives the message, or no argument. *)
Theorem outbound_lines_parse_back :
  (∀ target message, plainParam target ->
     parseLine ("PRIVMSG " +:+ target +:+ " :" +:+ message)
       = Some (mkLine "" "" "PRIVMSG" [target; message]))
  ∧ (∀ channel, plainParam channel ->
       parseLine ("JOIN " +:+ channel) = Some (mkLine "" "" "JOIN" [channel])
       ∧ parseLine ("PART " +:+ channel) = Some (mkLine "" "" "PART" [channel]))
  ∧ (∀ message,
       parseLine (quitCmd message)
         = Some (mkLine "" "" "QUIT" (if decide (message = "") then [] else [message]))).
Proof.
  split; [|split].
  - intros target message Ht.
    rewrite parseLine_plain_start by reflexivity.
    change ("PRIVMSG " +:+ target +:+ " :" +:+ message)
      with (Join ["PRIVMSG"; target] " " +:+ " :" +:+ message).
    rewrite parseCommand_trailing by first [reflexivity | by constructor | by repeat constructor]. reflexivity.
  - intros channel Hc. split; rewrite parseLine_plain_start by reflexivity.
    + change ("JOIN " +:+ channel) with (Join ["JOIN"; channel] " ").
      rewrite parseCommand_plain by first [reflexivity | by constructor | by repeat constructor]. reflexivity.
    + change ("PART " +:+ channel) with (Join ["PART"; channel] " ").
      rewrite parseCommand_plain by first [reflexivity | by constructor | by repeat constructor]. reflexivity.
  - intros message. unfold quitCmd. destruct (decide (message = "")).
    + rewrite parseLine_plain_start by reflexivity.
      change "QUIT" with (Join ["QUIT"] " ") at 1.
      rewrite parseCommand_plain by first [reflexivity | by constructor | by repeat constructor]. reflexivity.
    + rewrite parseLine_plain_start by reflexivity.
      change ("QUIT :" +:+ message) with (Join ["QUIT"] " " +:+ " :" +:+ message).
      rewrite parseCommand_trailing by first [reflexivity | by constructor | by repeat constructor]. reflexivity.
Qed.

Lemma parseArgs_shape parts : ∀ args r,
  Forall (fun p => hasByte " " p = false) parts ->
  parseArgs parts args = Some r ->
  ∃ pre, Forall plainParam pre
         ∧ (r = args ++ pre ∨ ∃ trailing, r = args ++ pre ++ [trailing]).
Proof.
  induction parts as [|p rest IH]; intros args r Hp; cbn [parseArgs].
  - intros [= <-]. exists []. split; [constructor|left; by rewrite app_nil_r].
  - destruct (HasPrefix p ":") eqn:Hc.
    + destruct (sliceFrom _ 1) as [t|]; [|discriminate]. cbn. intros [= <-].
      exists []. split; [constructor|right; by exists t].
    + intros Hr. inversion Hp; subst. apply IH in Hr as (pre & Hpre & Hcase); [|done].
      exists (p :: pre). split; [constructor; [by split|done]|].
      destruct Hcase as [->|[t ->]]; [left|right; exists t]; by rewrite <- app_assoc.
Qed.

Lemma parseCommand_shape l0 raw line :
  parseCommand l0 raw = Some line ->
  Nick line = Nick l0 ∧ Src line = Src l0
  ∧ ∃ pre, Forall plainParam pre
           ∧ (Args line = Args l0 ++ pre
              ∨ ∃ trailing, Args line = Args l0 ++ pre ++ [trailing]).
Proof.
  destruct (Split raw " ") as [|p0 ps] eqn:E; [by destruct (Split_nonempty _ _ E)|].
  rewrite (parseCommand_split _ _ _ _ E).
  destruct (parseArgs ps (Args l0)) as [args|] eqn:Ha; [|discriminate].
  cbn. intros [= <-]. cbn. split; [done|]. split; [done|].
  apply parseArgs_shape in Ha; [done|].
  pose proof (Split_pieces raw " ") as Hp. rewrite E in Hp. by inversion Hp.
Qed.

(** X15.  The shape of a parsed line, whatever the input.  The source has no
    space; the nick has no "!" and, unless it is empty, the source is the
    nick, a "!" and a rest; every argument but the last has no space and no
    leading colon, so that only the last argument can hold a text with
    spaces. *)
Theorem parseLine_shape raw line :
  parseLine raw = Some line ->
  hasByte " " (Src line) = false
  ∧ hasByte "!" (Nick line) = false
  ∧ (Nick line = "" ∨ ∃ rest, Src line = Nick line +:+ "!" +:+ rest)
  ∧ ∃ pre, Forall plainParam pre
           ∧ (Args line = pre ∨ ∃ trailing, Args line = pre ++ [trailing]).
Proof.
  destruct (HasPrefix raw ":") eqn:Hp.
  - destruct raw as [|a r]; [discriminate|].
    rewrite HasPrefix_colon_cons in Hp. apply bool_decide_eq_true_1 in Hp as ->.
    destruct (first_byte " " r) as [Hno|(src & rest & -> & Hsrc)].
    + rewrite (parseLine_prefix_only _ Hno). intros [= <-]. cbn.
      repeat split; try done; [by left|]. exists []. split; [constructor|by left].
    + rewrite (parseLine_prefixed _ _ Hsrc).
      destruct (first_byte "!" src) as [Hnb|(n & uh & -> & Hn)].
      * rewrite (Index_absent _ _ Hnb), decide_False by (intros Hne; by apply Hne).
        cbn [mbind option_bind]. intros Hl.
        apply parseCommand_shape in Hl as (-> & -> & Hargs). cbn.
        repeat split; try done. by left.
      * rewrite (Index_first _ _ _ Hn), decide_True by lia.
        rewrite Nat2Z.id, sliceTo_app. cbn [mbind option_bind]. intros Hl.
        apply parseCommand_shape in Hl as (-> & -> & Hargs). cbn.
        repeat split; try done. right. by exists uh.
  - rewrite (parseLine_plain_start _ Hp). intros Hl.
    apply parseCommand_shape in Hl as (-> & -> & Hargs). cbn.
    repeat split; try done. by left.
Qed.


End Codec.

(** The line [Privmsg "#go" "hello : world"] sends. *)
Lemma outbound_lines_parse_back_witness :
  parseLine (H := asciiTables) ("PRIVMSG " +:+ "#go" +:+ " :" +:+ "hello : world")
    = Some (mkLine "" "" "PRIVMSG" ["#go"; "hello : world"]).
Proof.
  apply (proj1 (outbound_lines_parse_back (H := asciiTables)) "#go" "hello : world").
  split; reflexivity.
Defined.

(** The prefix "alice!a@host". *)
Lemma parseLine_nick_of_prefix_witness :
  parseLine (H := asciiTables) (":" +:+ "alice" +:+ "!" +:+ "a@host" +:+ " " +:+ "JOIN #go")
    = parseCommand (H := asciiTables) (mkLine "alice" ("alice" +:+ "!" +:+ "a@host") "" []) "JOIN #go".
Proof.
  apply (proj1 (parseLine_nick_of_prefix (H := asciiTables) "JOIN #go") "alice" "a@host");
    reflexivity.
Defined.

(** A server line with a trailing text. *)
Lemma parseLine_shape_witness :
  hasByte " " "irc.example.org" = false
  ∧ hasByte "!" "" = false
  ∧ ("" = "" ∨ ∃ rest, "irc.example.org" = "" +:+ "!" +:+ rest)
  ∧ ∃ pre, Forall (plainParam) pre
           ∧ (["me"; "=" ; "#go"; "@alice bob"] = pre
              ∨ ∃ trailing, ["me"; "="; "#go"; "@alice bob"] = pre ++ [trailing]).
Proof.
  apply (parseLine_shape (H := asciiTables)
           ":irc.example.org 353 me = #go :@alice bob"
           (mkLine "" "irc.example.org" "353" ["me"; "="; "#go"; "@alice bob"])).
  vm_compute. reflexivity.
Defined.


End CodecMore.

(* ===================================================================== *)
(** * irc.go: more of the connection *)
(* ===================================================================== *)

Module ConnMore.
Import GoStrings IRC Calls CodecFacts ConnFacts.

Section Connection.
Context {W : Type} `{Transport W} `{UnicodeTables}.

(** ** Connect *)

(** The connection as [Connect] has it when it starts the handshake. *)
Lemma Connect_run w c :
  let c0 := mkConn (cfg c) (Some SockOpen) true (handlers c) (Some w) (quit c) (done c)
              (debugSendFn c) (reading c) (trace c ++ [EvSetConnected true]) in
  ∃ e1 e2 c1 c2 evs1 evs2,
    sendRaw ("NICK " +:+ cfg_Nick (cfg c)) c0 = Ok e1 c1
    ∧ sendRaw ("USER " +:+ cfg_User (cfg c) +:+ " 0 * :" +:+ cfg_RealName (cfg c)) c1
      = Ok e2 c2
    ∧ Connect (inr w) c
      = Ok None (withTrace (withReading c2 true) (trace c2 ++ [EvGoReadLoop]))
    ∧ sameControl c0 c2 ∧ quit c2 = quit c
    ∧ trace c2 = trace c0 ++ evs1 ++ evs2
    ∧ Forall sendEvent (evs1 ++ evs2)
    ∧ writesOf evs1 = ["NICK " +:+ cfg_Nick (cfg c) +:+ CRLF]
    ∧ writesOf evs2
      = [("USER " +:+ cfg_User (cfg c) +:+ " 0 * :" +:+ cfg_RealName (cfg c)) +:+ CRLF]
    ∧ wf c2.
Proof.
  intros c0.
  assert (Hwf0 : wf c0) by (intros _; by eexists).
  destruct (sendRaw_returns ("NICK " +:+ cfg_Nick (cfg c)) c0 Hwf0)
    as (e1 & c1 & Hs1 & Hwf1).
  pose proof (sendRaw_frame ("NICK " +:+ cfg_Nick (cfg c)) c0) as (Hsame1 & Hq1 & He1).
  rewrite Hs1 in Hsame1, Hq1, He1. cbn [stateOf] in Hsame1, Hq1, He1.
  destruct He1 as (evs1 & Ht1 & Hf1).
  pose proof (sendRaw_writes _ _ _ _ _ Hs1 Ht1) as Hw1.
  set (user := "USER " +:+ cfg_User (cfg c) +:+ " 0 * :" +:+ cfg_RealName (cfg c)).
  destruct (sendRaw_returns user c1 Hwf1) as (e2 & c2 & Hs2 & Hwf2).
  pose proof (sendRaw_frame user c1) as (Hsame2 & Hq2 & He2).
  rewrite Hs2 in Hsame2, Hq2, He2. cbn [stateOf] in Hsame2, Hq2, He2.
  destruct He2 as (evs2 & Ht2 & Hf2).
  pose proof (sendRaw_writes _ _ _ _ _ Hs2 Ht2) as Hw2.
  assert (Hc1 : connected c1 = true) by (by destruct Hsame1 as (_ & _ & -> & _)).
  rewrite Hc1 in Hw2.
  exists e1, e2, c1, c2, evs1, evs2.
  split; [done|]. split; [done|]. split.
  { change (Connect (inr w) c)
      with (bind (sendRaw ("NICK " +:+ cfg_Nick (cfg c))) (fun _ =>
              bind (sendRaw user) (fun _ =>
                bind (modify (fun c => withReading c true)) (fun _ =>
                  bind (emit EvGoReadLoop) (fun _ => ret (None : option error))))) c0).
    unfold bind at 1. rewrite Hs1. unfold bind at 1. rewrite Hs2. reflexivity. }
  split; [exact (sameControl_trans _ _ _ Hsame1 Hsame2)|].
  split; [by rewrite Hq2, Hq1|].
  split; [by rewrite Ht2, Ht1, <- app_assoc|].
  split; [by apply Forall_app|]. done.
Qed.

(** X17.  [Connect].  When the dial fails, [Connect] returns the error with
    "failed to connect: " in front and leaves the connection as it was.
    When it succeeds, [Connect] returns nil, whether the handshake could be
    written or not; the connection is marked connected over an open socket
    before anything is written; the NICK line and then the USER line are
    the two writes, each ended by CR LF; the read loop is started last; and
    the handlers and the two channels are as before. *)
Theorem Connect_handshake dial c :
  match dial with
  | inl err => Connect dial c = Ok (Some ("failed to connect: " +:+ err)) c
  | inr w =>
      ∃ c' sends,
        Connect dial c = Ok None c'
        ∧ Connected c' = true ∧ conn c' = Some SockOpen ∧ reading c' = true
        ∧ handlers c' = handlers c ∧ quit c' = quit c ∧ done c' = done c
        ∧ trace c' = trace c ++ [EvSetConnected true] ++ sends ++ [EvGoReadLoop]
        ∧ Forall sendEvent sends
        ∧ writesOf sends
          = [ "NICK " +:+ cfg_Nick (cfg c) +:+ CRLF;
              ("USER " +:+ cfg_User (cfg c) +:+ " 0 * :" +:+ cfg_RealName (cfg c))
                +:+ CRLF ]
  end.
Proof.
  destruct dial as [err|w]; [reflexivity|].
  destruct (Connect_run w c)
    as (e1 & e2 & c1 & c2 & evs1 & evs2 & _ & _ & Hrun & Hsame & Hq & Ht & Hf & Hw1 & Hw2 & _).
  destruct Hsame as (_ & Hconn & Hcd & Hh & Hd & _ & _).
  eexists _, (evs1 ++ evs2). split; [exact Hrun|].
  unfold Connected. destruct c2; cbn in *. subst.
  repeat split; try done.
  - by rewrite <- !app_assoc.
  - unfold writesOf in *. by rewrite omap_app, Hw1, Hw2.
Qed.

(** ** Which calls can panic *)

Lemma Quit_returns sched message c :
  wf c -> quit c = false -> ∃ c', quitSteps sched message c = Ok tt c'.
Proof.
  intros Hwf Hq.
  destruct (sendRaw_returns (quitCmd message) c Hwf) as (err & c1 & Hs & _).
  pose proof (sendRaw_frame (quitCmd message) c) as (_ & Hq1 & _).
  rewrite Hs in Hq1. cbn [stateOf] in Hq1.
  destruct (awaitDone_run sched (withTrace (withQuit c1 true) (trace c1 ++ [EvCloseQuit])))
    as (c3 & exit & Hw & _).
  eexists. unfold quitSteps. unfold bind at 1. rewrite Hs. unfold bind at 1.
  rewrite closeQuit_run by congruence. unfold bind at 1. rewrite Hw.
  apply closeConn_run.
Qed.

(** X18.  The calls that can panic.  On a connection a program can come
    to, every call of the package whose writes return does return, and
    leaves such a connection, but one: [Quit] on a connection whose [quit]
    channel is closed, that is a second [Quit], which panics with "close of
    closed channel". *)
Theorem only_repeated_Quit_panics (k : call W) c :
  reachable c ->
  ((∀ sched message, k = CallQuit sched message -> quit c = false) ->
     ∃ c', run k c = Ok tt c' ∧ reachable c')
  ∧ (∀ sched message, k = CallQuit sched message -> quit c = true ->
       ∃ c', run k c = Panic "close of closed channel" c').
Proof.
  intros Hreach. pose proof (reachable_wf c Hreach) as Hwf. split.
  - intros Hq.
    assert (Hok : ∃ c', run k c = Ok tt c').
    { destruct k as [tag h|fn|dial|cmd|channel|channel|target message|sched message];
        cbn [run].
      - by eexists.
      - by eexists.
      - destruct dial as [err|w]; [by eexists|].
        destruct (Connect_run w c) as (e1 & e2 & c1 & c2 & evs1 & evs2 & _ & _ & Hrun & _).
        unfold bind. rewrite Hrun. by eexists.
      - eexists. by apply discard_run.
      - eexists. by apply discard_run.
      - eexists. by apply discard_run.
      - eexists. by apply discard_run.
      - apply Quit_returns; [done|]. by eapply Hq. }
    destruct Hok as [c' Hrun]. exists c'. split; [done|].
    change c' with (stateOf (Ok (W := W) tt c')). rewrite <- Hrun.
    by apply reachable_call.
  - intros sched message -> Hq. cbn [run]. by apply Quit_again_panics.
Qed.

(** ** The read loop *)

Lemma readLoopBody_returns ins : ∀ c r,
  wf c -> readLoopBody ins c = Some r -> ∃ c', r = Ok tt c'.
Proof.
  induction ins as [|i ins IH]; intros c r Hwf; cbn [readLoopBody].
  - destruct (quit c); [|discriminate]. intros [= <-]. by eexists.
  - destruct (quit c); [intros [= <-]; by eexists|].
    destruct i as [|[s| |]].
    + apply IH. intros Hc. destruct c; cbn in *. by apply Hwf.
    + destruct (decide (TrimSpace s = "")); [by apply IH|].
      destruct (parseLine_total (TrimSpace s)) as [parsed ->].
      destruct (dispatch_returns (Cmd parsed) parsed c Hwf) as (c' & -> & Hwf').
      by apply IH.
    + by apply IH.
    + intros [= <-]. by eexists.
Qed.

(** X19.  The end of a read loop on a connection that had one before.  A read
    loop never panics while it reads.  When it ends on a connection whose
    [done] channel is open it returns; when [done] is closed already, as it
    is after an earlier read loop of the same connection ended, its
    deferred [close(c.done)] panics with "close of closed channel", after
    the flag is cleared and the DISCONNECTED handlers are launched. *)
Theorem readLoop_end_by_done ins c r :
  wf c -> readLoop ins c = Some r ->
  (done c = false -> ∃ c', r = Ok tt c' ∧ done c' = true)
  ∧ (done c = true ->
       ∃ c' body,
         r = Panic "close of closed channel" c'
         ∧ Connected c' = false
         ∧ trace c' = trace c ++ body ++ [EvSetConnected false]
                        ++ launches c "DISCONNECTED" disconnectedLine).
Proof.
  intros Hwf Hr. unfold readLoop in Hr.
  destruct (readLoopBody ins c) as [rb|] eqn:Hb; [|discriminate].
  destruct (readLoopBody_returns _ _ _ Hwf Hb) as [cb ->].
  destruct (readLoopBody_frame _ _ _ Hb) as [Hs (body & Ht & _)].
  cbn [stateOf] in *.
  assert (Hl : launches cb "DISCONNECTED" disconnectedLine
               = launches c "DISCONNECTED" disconnectedLine)
    by (by apply launches_sameControl).
  destruct Hs as (_ & _ & _ & _ & Hdone & _).
  split; intros Hd.
  - rewrite readLoopDeferred_run in Hr by congruence. injection Hr as <-. by eexists.
  - rewrite readLoopDeferred_closed in Hr by congruence. injection Hr as <-.
    eexists _, body. split; [reflexivity|]. split; [reflexivity|].
    cbn [trace]. by rewrite Ht, Hl, <- !app_assoc.
Qed.

Lemma readLoopBody_skips ins : ∀ c,
  readLoopBody (filter (fun i => skipped i = false) ins) c = readLoopBody ins c.
Proof.
  induction ins as [|i ins IH]; intros c; [done|].
  rewrite filter_cons. destruct (decide (skipped i = false)) as [Hk|Hk].
  - cbn [readLoopBody]. destruct (quit c); [done|].
    destruct i as [|[s| |]]; try done.
    destruct (decide _); [by apply IH|].
    destruct (parseLine _); [|done]. by destruct (dispatch _ _ _).
  - rewrite IH. cbn [readLoopBody]. destruct (quit c) eqn:Hq.
    + clear IH Hk. destruct ins; cbn [readLoopBody]; by rewrite Hq.
    + destruct i as [|[s| |]]; cbn [skipped] in Hk; try done.
      by rewrite decide_True by (by destruct (bool_decide_reflect (TrimSpace s = ""))).
Qed.

Lemma readLoopBody_ended ins : ∀ c r more,
  readLoopBody ins c = Some r -> readLoopBody (ins ++ more) c = Some r.
Proof.
  induction ins as [|i ins IH]; intros c r more; cbn [app readLoopBody].
  - destruct (quit c) eqn:Hq; [|discriminate]. intros <-.
    destruct more; cbn [readLoopBody]; by rewrite Hq.
  - destruct (quit c); [done|].
    destruct i as [|[s| |]]; try done; try apply IH.
    destruct (decide _); [apply IH|].
    destruct (parseLine _); [|done]. destruct (dispatch _ _ _); [apply IH|done].
Qed.

Lemma readLoopBody_last ins last : ∀ c more,
  last = Cancel ∨ last = Read ReadFailed ->
  readLoopBody (ins ++ last :: more) c = readLoopBody (ins ++ [last]) c.
Proof.
  intros c more Hlast. revert c.
  induction ins as [|i ins IH]; intros c; cbn [app readLoopBody].
  - destruct (quit c); [done|]. destruct Hlast as [-> | ->]; [|done].
    destruct more; cbn [readLoopBody]; by destruct c.
  - destruct (quit c); [done|].
    destruct i as [|[s| |]]; try done; try apply IH.
    destruct (decide _); [apply IH|].
    destruct (parseLine _); [|done]. destruct (dispatch _ _ _); [apply IH|done].
Qed.

(** X20.  What the read loop passes over.  A read that times out and a line
    that is empty once trimmed change nothing: the loop does on its input
    what it does on the input without them.  And the loop reads nothing
    after a cancellation or a failed read: what follows in the input makes
    no difference. *)
Theorem readLoop_passes_over ins c :
  readLoop (filter (fun i => skipped i = false) ins) c = readLoop ins c
  ∧ (∀ more, readLoop (ins ++ Cancel :: more) c = readLoop (ins ++ [Cancel]) c)
  ∧ (∀ more, readLoop (ins ++ Read ReadFailed :: more) c
             = readLoop (ins ++ [Read ReadFailed]) c).
Proof.
  unfold readLoop. split; [by rewrite readLoopBody_skips|].
  split; intros more; by rewrite (readLoopBody_last ins _ c more) by auto.
Qed.

(** ** The registry of handlers *)

Lemma leaves_handlers_sendRaw cmd : leaves handlers (sendRaw cmd).
Proof. intros c. by destruct (sendRaw_frame cmd c) as ((_ & _ & _ & -> & _) & _). Qed.

Lemma leaves_handlers_dispatch tag line : leaves handlers (dispatch tag line).
Proof. intros c. by destruct (dispatch_frame tag line c) as ((_ & _ & _ & -> & _) & _). Qed.

Lemma leaves_handlers_readLoopDeferred : leaves handlers readLoopDeferred.
Proof.
  intros c. destruct (done c) eqn:Hd.
  - by rewrite readLoopDeferred_closed.
  - by rewrite readLoopDeferred_run.
Qed.

Lemma leaves_handlers_Quit sched message : leaves handlers (quitSteps sched message).
Proof.
  unfold quitSteps.
  apply leaves_bind; [apply leaves_handlers_sendRaw|intros _].
  apply leaves_bind.
  { intros c. unfold closeQuit, bind, get. destruct (quit c); [done|]. by destruct c. }
  intros _. apply leaves_bind.
  { unfold awaitDone. apply leaves_get. intros c.
    destruct (done c); [done|]. destruct (reading c); [|done].
    destruct sched; [apply leaves_handlers_readLoopDeferred|done]. }
  intros _ c. rewrite closeConn_run. cbn [stateOf]. destruct (conn c); [|done].
  by destruct c.
Qed.

Lemma leaves_handlers_Connect dial : leaves handlers (Connect dial).
Proof.
  intros c. destruct dial as [err|w]; [done|].
  destruct (Connect_run w c)
    as (e1 & e2 & c1 & c2 & evs1 & evs2 & _ & _ & -> & Hsame & _).
  destruct Hsame as (_ & _ & _ & Hh & _). cbn [stateOf]. destruct c2; cbn in *. done.
Qed.

(** X21.  The registry only grows.  [HandleFunc] puts the handler at the end
    of the list of its event and leaves the other lists alone; no other
    call, no [dispatch] and no read loop changes the registry: a handler,
    once registered, is never removed or moved. *)
Theorem handlers_only_grow c :
  (∀ event h tag,
     default [] (handlers (stateOf (HandleFunc event h c)) !! tag)
     = default [] (handlers c !! tag) ++ (if decide (event = tag) then [h] else []))
  ∧ (∀ k : call W, (∀ event h, k ≠ CallHandleFunc event h) ->
       handlers (stateOf (run k c)) = handlers c)
  ∧ (∀ tag line, handlers (stateOf (dispatch tag line c)) = handlers c)
  ∧ (∀ ins r, readLoop ins c = Some r -> handlers (stateOf r) = handlers c).
Proof.
  split; [|split; [|split]].
  - intros event h tag. unfold HandleFunc, modify. cbn [stateOf].
    destruct c as [cf cn cd hs wr q d dbg rd tr]; cbn.
    destruct (decide (event = tag)) as [->|Hne].
    + by rewrite lookup_insert_eq.
    + by rewrite lookup_insert_ne, app_nil_r.
  - intros k Hk.
    destruct k as [tag h|fn|dial|cmd|channel|channel|target message|sched message];
      cbn [run].
    + by destruct (Hk tag h).
    + by destruct c.
    + apply (leaves_bind handlers); [apply leaves_handlers_Connect|done].
    + apply (leaves_bind handlers); [apply leaves_handlers_sendRaw|done].
    + apply (leaves_bind handlers); [apply leaves_handlers_sendRaw|done].
    + apply (leaves_bind handlers); [apply leaves_handlers_sendRaw|done].
    + apply (leaves_bind handlers); [apply leaves_handlers_sendRaw|done].
    + apply leaves_handlers_Quit.
  - intros tag line. apply leaves_handlers_dispatch.
  - intros ins r Hr. unfold readLoop in Hr.
    destruct (readLoopBody ins c) as [rb|] eqn:Hb; [|discriminate].
    destruct (readLoopBody_frame _ _ _ Hb) as [(_ & _ & _ & Hh & _) _].
    pose proof (leaves_handlers_readLoopDeferred (stateOf rb)) as Hl.
    destruct rb as [[] cb|why cb]; cbn [stateOf] in *; injection Hr as <-;
      cbn [stateOf]; congruence.
Qed.

End Connection.

(** ** Over a buffered wire *)

Lemma append_empty_r (s : string) : s +:+ "" = s.
Proof. induction s as [|a s IH]; [done|]. by rewrite GoStringsFacts.append_cons, IH. Qed.

Lemma accepted_sendRaw cmd (c : Conn wire) w :
  connected c = true -> writer c = Some w ->
  ∃ c' w', sendRaw cmd c = Ok None c'
           ∧ connected c' = true ∧ writer c' = Some w'
           ∧ buffered w' = ""
           ∧ accepted w' = accepted w +:+ cmd +:+ CRLF.
Proof.
  intros Hc Hw. rewrite (sendRaw_connected cmd c w Hc Hw). cbn.
  eexists _, _. split; [reflexivity|]. split; [by destruct c|].
  split; [reflexivity|]. split; [reflexivity|].
  unfold accepted. cbn. by rewrite !GoStringsFacts.append_assoc, append_empty_r.
Qed.

(** X22.  A series of commands over a buffered writer that does not fail.
    Each [Raw] call flushes: after a series of calls nothing is left in the
    buffer, and what the wire was given is what it had before and then each
    command with CR LF after it, in the order of the calls.  [Join], [Part]
    and [Privmsg] are [Raw] of their line. *)
Theorem raw_series_on_wire cmds (c : Conn wire) w :
  connected c = true -> writer c = Some w -> buffered w = "" ->
  (∃ c' w',
     runAll (map CallRaw cmds) c = Ok tt c'
     ∧ connected c' = true ∧ writer c' = Some w'
     ∧ buffered w' = ""
     ∧ sent w' = sent w +:+ foldr (fun cmd rest => cmd +:+ CRLF +:+ rest) "" cmds)
  ∧ (∀ channel, Join_ (W := wire) channel = Raw ("JOIN " +:+ channel))
  ∧ (∀ channel, Part (W := wire) channel = Raw ("PART " +:+ channel))
  ∧ (∀ target message,
       Privmsg (W := wire) target message
       = Raw ("PRIVMSG " +:+ target +:+ " :" +:+ message)).
Proof.
  intros Hc Hw Hb. split; [|done].
  revert c w Hc Hw Hb. induction cmds as [|cmd cmds IH]; intros c w Hc Hw Hb.
  - exists c, w. cbn. by rewrite append_empty_r.
  - destruct (accepted_sendRaw cmd c w Hc Hw) as (c1 & w1 & Hs & Hc1 & Hw1 & Hb1 & Ha).
    destruct (IH c1 w1 Hc1 Hw1 Hb1) as (c' & w' & Hrun & Hc' & Hw' & Hb' & Hsent).
    exists c', w'. split.
    { cbn [map runAll run]. unfold bind at 1, Raw, bind at 1. by rewrite Hs. }
    repeat split; try done.
    rewrite Hsent. cbn [foldr]. unfold accepted in Ha. rewrite Hb, Hb1, !append_empty_r in Ha.
    by rewrite Ha, !GoStringsFacts.append_assoc.
Qed.

(** A [Join] on a client that was never connected. *)
Lemma only_repeated_Quit_panics_witness :
  ∃ c', run (CallJoin "#go") (Client (W := wire) (NewConfig "me")) = Ok tt c'
        ∧ reachable (H := wire_transport) (H0 := asciiTables) c'.
Proof.
  apply (proj1 (only_repeated_Quit_panics (H0 := asciiTables)
                  (CallJoin "#go") (Client (NewConfig "me"))
                  (reachable_Client _))).
  discriminate.
Defined.

(** The read loop of the example connection. *)
Lemma readLoop_end_by_done_witness :
  ∃ c', exampleExit = Ok tt c' ∧ done c' = true.
Proof.
  assert (Hrun : readLoop (H0 := asciiTables) exampleInput exampleConn = Some exampleExit)
    by (vm_compute; reflexivity).
  apply (proj1 (readLoop_end_by_done (H0 := asciiTables) exampleInput exampleConn
                  exampleExit wf_exampleConn Hrun)).
  reflexivity.
Defined.

(** Two commands on the example connection. *)
Lemma raw_series_on_wire_witness :
  ∃ c' w',
    runAll (map CallRaw ["JOIN #go"; "PRIVMSG #go :hi"]) exampleConn
      = Ok tt c'
    ∧ connected c' = true ∧ writer c' = Some w'
    ∧ buffered w' = ""
    ∧ sent w' = ("NICK me" +:+ CRLF +:+ "USER me 0 * :me" +:+ CRLF)
                +:+ foldr (fun cmd rest => cmd +:+ CRLF +:+ rest) ""
                      ["JOIN #go"; "PRIVMSG #go :hi"].
Proof.
  assert (Hw : writer exampleConn
               = Some (mkWire "" ("NICK me" +:+ CRLF +:+ "USER me 0 * :me" +:+ CRLF)))
    by (vm_compute; reflexivity).
  apply (proj1 (raw_series_on_wire ["JOIN #go"; "PRIVMSG #go :hi"]
                  exampleConn _ eq_refl Hw eq_refl)).
Defined.

End ConnMore.

(* ===================================================================== *)
(** * main.go: more of the clean-up, and the channel index *)
(* ===================================================================== *)

Module NamesMore.
Import GoStrings IRC App Front NamesFacts HelperFacts.

Lemma cleanLoop_elem x users : ∀ cleaned acc,
  tracks cleaned acc ->
  x ∈ cleanLoop users cleaned acc
  ↔ x ∈ acc ∨ (x ≠ "" ∧ ∃ u, u ∈ users ∧ TrimLeft u "@+%~&" = x).
Proof.
  induction users as [|u rest IH]; intros cleaned acc Ht; cbn [cleanLoop].
  - split; [by left|]. intros [Hin|(_ & u & Hu & _)]; [done|by apply elem_of_nil in Hu].
  - destruct (bool_decide (TrimLeft u "@+%~&" ≠ "")) eqn:Hne; cbn [andb].
    + apply bool_decide_eq_true_1 in Hne.
      destruct (default false (cleaned !! TrimLeft u "@+%~&")) eqn:Hseen; cbn [negb].
      * rewrite (IH _ _ Ht). apply Ht in Hseen. split.
        -- intros [Hin|(Hx & u' & Hu' & Heq)]; [by left|].
           right. split; [done|]. exists u'. split; [by right|done].
        -- intros [Hin|(Hx & u' & Hu' & Heq)]; [by left|].
           apply elem_of_cons in Hu' as [->|Hu']; [left; by subst x|].
           right. split; [done|]. by exists u'.
      * rewrite (IH _ _ (tracks_insert _ _ _ Ht)), elem_of_app, list_elem_of_singleton.
        split.
        -- intros [[Hin | ->] | (Hx & u' & Hu' & Heq)]; [by left| |].
           ++ right. split; [done|]. exists u. split; [by left|done].
           ++ right. split; [done|]. exists u'. split; [by right|done].
        -- intros [Hin|(Hx & u' & Hu' & Heq)]; [left; by left|].
           apply elem_of_cons in Hu' as [->|Hu']; [left; by right|].
           right. split; [done|]. by exists u'.
    + apply bool_decide_eq_false_1 in Hne.
      assert (Hempty : TrimLeft u "@+%~&" = "")
        by (by destruct (decide (TrimLeft u "@+%~&" = ""))).
      rewrite (IH _ _ Ht). split.
      * intros [Hin|(Hx & u' & Hu' & Heq)]; [by left|].
        right. split; [done|]. exists u'. split; [by right|done].
      * intros [Hin|(Hx & u' & Hu' & Heq)]; [by left|].
        apply elem_of_cons in Hu' as [->|Hu']; [congruence|].
        right. split; [done|]. by exists u'.
Qed.

(** X23.  The clean-up loses no one and invents no one.  A name is in the
    cleaned list exactly when it is not empty and is what is left of one of
    the names given once the leading @, +, %, ~ and & are stripped: the
    empty pieces that a doubled or trailing space gives are dropped, and so
    is a name made of prefix signs only. *)
Theorem cleanUsers_members users x :
  x ∈ cleanUsers users ↔ x ≠ "" ∧ ∃ u, u ∈ users ∧ TrimLeft u "@+%~&" = x.
Proof.
  unfold cleanUsers. rewrite (cleanLoop_elem _ _ _ _ tracks_empty).
  split; [|by right]. intros [Hin|Hx]; [by apply elem_of_nil in Hin|done].
Qed.

Lemma indexFrom_spec slice item : ∀ i,
  (indexFrom i slice item = (-1)%Z ∧ item ∉ slice ∨
   ∃ n, indexFrom i slice item = (i + Z.of_nat n)%Z
        ∧ slice !! n = Some item ∧ item ∉ take n slice)
  ∨ (i < 0)%Z.
Proof.
  induction slice as [|s rest IH]; intros i; cbn [indexFrom].
  - left. left. split; [done|apply not_elem_of_nil].
  - destruct (Z.ltb_spec i 0) as [Hneg|Hpos]; [by right|]. left.
    destruct (decide (s = item)) as [->|Hne].
    + right. exists 0. split; [lia|]. split; [done|apply not_elem_of_nil].
    + destruct (IH (i + 1)%Z) as [[[Hi Hout]|(n & Hi & Hl & Hbefore)]|Hneg]; [| |lia].
      * left. split; [done|]. rewrite not_elem_of_cons. by split; [congruence|].
      * right. exists (S n). split; [lia|]. split; [done|].
        cbn [take]. rewrite not_elem_of_cons. by split; [congruence|].
Qed.

(** X24.  [findChannelIndex].  The result is -1 exactly when the channel is
    not in the list; otherwise it is the index of its first occurrence. *)
Theorem findChannelIndex_first u ch :
  (findChannelIndex u ch = (-1)%Z ↔ ch ∉ channels (base u))
  ∧ (ch ∈ channels (base u) ->
     ∃ n, findChannelIndex u ch = Z.of_nat n
          ∧ channels (base u) !! n = Some ch
          ∧ ch ∉ take n (channels (base u))).
Proof.
  unfold findChannelIndex.
  destruct (indexFrom_spec (channels (base u)) ch 0)
    as [[[Hi Hout]|(n & Hi & Hl & Hbefore)]|Hneg]; [| |lia].
  - split; [by split|]. intros Hin. by destruct Hout.
  - split.
    + split; [lia|]. intros Hout. destruct Hout. by eapply list_elem_of_lookup_2.
    + intros _. exists n. by rewrite Hi.
Qed.

(** The names "@alice" and "+@bob": "bob" is in the cleaned list. *)
Lemma cleanUsers_members_witness :
  "bob" ∈ cleanUsers ["@alice"; "+@bob"].
Proof.
  apply (proj2 (cleanUsers_members ["@alice"; "+@bob"] "bob")).
  split; [discriminate|]. exists "+@bob". split; [|reflexivity].
  apply list_elem_of_further, list_elem_of_here.
Defined.

(** The channel "#b" among "#a", "#b", "#c". *)
Lemma findChannelIndex_first_witness :
  ∃ n, findChannelIndex (mkUi (mkModel ∅ ["#a"; "#b"; "#c"] "#a") "me" [] 0 false) "#b"
       = Z.of_nat n
       ∧ ["#a"; "#b"; "#c"] !! n = Some "#b"
       ∧ "#b" ∉ take n ["#a"; "#b"; "#c"].
Proof.
  apply (proj2 (findChannelIndex_first
                  (mkUi (mkModel ∅ ["#a"; "#b"; "#c"] "#a") "me" [] 0 false) "#b")).
  apply list_elem_of_further, list_elem_of_here.
Defined.

End NamesMore.

(* ===================================================================== *)
(** * From a line on the wire to the model *)
(* ===================================================================== *)

Module PipelineFacts.
Import GoStrings GoStringsFacts IRC App Front CodecFacts NamesFacts HelperFacts
       FrontFacts BridgeFacts CodecMore.

(** The events of a line whose command has one handler. *)
Lemma emitted_only line l1 h l2 :
  setupIRCHandlers false = l1 ++ (Cmd line, h) :: l2 ->
  Cmd line ∉ map fst l1 -> Cmd line ∉ map fst l2 ->
  emitted false line = match h line with Some msg => [msg] | None => [] end.
Proof.
  intros Heq H1 H2. unfold emitted.
  replace (closuresUnder "*" (setupIRCHandlers false))
    with (@nil (Line -> option ircMessage)) by reflexivity.
  rewrite Heq, closuresUnder_only by done. cbn [app omap list_omap].
  by destruct (h line).
Qed.

Ltac only_handler n :=
  eapply eq_trans;
  [ eapply (emitted_only _ (take n (setupIRCHandlers false)) _
              (drop (S n) (setupIRCHandlers false)));
    [ reflexivity
    | apply (bool_decide_unpack _); vm_compute; exact I
    | apply (bool_decide_unpack _); vm_compute; exact I ]
  | reflexivity ].



Lemma emitted_403 n s a0 a1 rest :
  emitted false (mkLine n s "403" (a0 :: a1 :: rest))
  = [sendChannelError "403" ("No such channel: " +:+ a1) a1].
Proof. only_handler 29. Qed.

Lemma emitted_404 n s a0 a1 rest :
  emitted false (mkLine n s "404" (a0 :: a1 :: rest))
  = [sendChannelError "404" ("Cannot send to channel: " +:+ a1) a1].
Proof. only_handler 30. Qed.

Ltac plain_side :=
  first [ reflexivity | assumption
        | repeat (apply Forall_cons_2; [assumption|]); apply Forall_nil_2 ].

Section Pipeline.
Context `{UnicodeTables} `{Renderer}.

(** A numeric reply of a server, with a text at its end. *)
Lemma parseLine_numeric server code pre text :
  hasByte " " server = false -> hasByte "!" server = false ->
  hasByte " " code = false -> Forall plainParam pre ->
  parseLine (":" +:+ server +:+ " " +:+ Join (code :: pre) " " +:+ " :" +:+ text)
  = Some (mkLine "" server (ToUpper code) (pre ++ [text])).
Proof.
  intros Hs Hb Hc Hpre.
  rewrite (parseLine_from_server _ _ Hs Hb).
  by rewrite parseCommand_trailing.
Qed.



Lemma handleIRCMessage_ERROR u ts w msg :
  msgType msg = "ERROR" ->
  handleIRCMessage u ts w msg = Some (handleError u ts (msgData msg), []).
Proof. destruct msg as [t data]. cbn [msgType msgData]. by intros ->. Qed.



(** X26.  From an error reply on the wire to the channel list.  A 403 line of
    a server for a channel takes the channel out of the channel list and
    drops its users; a 404 line for the same channel leaves the channel
    list and every user list as they were.  Each writes one error line to
    the chat. *)
Theorem error_reply_to_channel_list u ts w server me ch text :
  hasByte " " server = false -> hasByte "!" server = false ->
  plainParam me -> plainParam ch -> ch ≠ "" ->
  ∃ l403 l404 e403 e404 u403 u404,
    parseLine (":" +:+ server +:+ " 403 " +:+ me +:+ " " +:+ ch +:+ " :" +:+ text)
      = Some l403
    ∧ parseLine (":" +:+ server +:+ " 404 " +:+ me +:+ " " +:+ ch +:+ " :" +:+ text)
      = Some l404
    ∧ emitted false l403 = [e403] ∧ emitted false l404 = [e404]
    ∧ handleIRCMessage u ts w e403 = Some (u403, [])
    ∧ handleIRCMessage u ts w e404 = Some (u404, [])
    ∧ (ch ∉ channels (base u403)) ∧ channelUsers (base u403) !! ch = None
    ∧ (∀ other, other ≠ ch ->
         (other ∈ channels (base u403) ↔ other ∈ channels (base u))
         ∧ channelUsers (base u403) !! other = channelUsers (base u) !! other)
    ∧ base u404 = base u
    ∧ messages u404
      = messages (addMessage u (fmtErr u ts ("Cannot send to channel: " +:+ ch))).
Proof.
  intros Hs Hb Hme Hch Hne.
  exists (mkLine "" server "403" [me; ch; text]), (mkLine "" server "404" [me; ch; text]),
         (sendChannelError "403" ("No such channel: " +:+ ch) ch),
         (sendChannelError "404" ("Cannot send to channel: " +:+ ch) ch).
  exists (removeChannel (addMessage u (fmtErr u ts ("No such channel: " +:+ ch))) ch),
         (addMessage u (fmtErr u ts ("Cannot send to channel: " +:+ ch))).
  split.
  { replace (":" +:+ server +:+ " 403 " +:+ me +:+ " " +:+ ch +:+ " :" +:+ text)
      with (":" +:+ server +:+ " " +:+ Join ["403"; me; ch] " " +:+ " :" +:+ text)
      by (cbn [Join]; by rewrite !append_assoc).
    rewrite parseLine_numeric by plain_side. reflexivity. }
  split.
  { replace (":" +:+ server +:+ " 404 " +:+ me +:+ " " +:+ ch +:+ " :" +:+ text)
      with (":" +:+ server +:+ " " +:+ Join ["404"; me; ch] " " +:+ " :" +:+ text)
      by (cbn [Join]; by rewrite !append_assoc).
    rewrite parseLine_numeric by plain_side. reflexivity. }
  split; [apply emitted_403|]. split; [apply emitted_404|].
  assert (H403 : handleError u ts (msgData (sendChannelError "403" ("No such channel: " +:+ ch) ch))
                 = removeChannel (addMessage u (fmtErr u ts ("No such channel: " +:+ ch))) ch).
  { unfold handleError.
    replace (field (msgData (sendChannelError "403" ("No such channel: " +:+ ch) ch))
                   "remove_channel") with "true" by reflexivity.
    replace (field (msgData (sendChannelError "403" ("No such channel: " +:+ ch) ch))
                   "channel") with ch by reflexivity.
    replace (field (msgData (sendChannelError "403" ("No such channel: " +:+ ch) ch))
                   "message") with ("No such channel: " +:+ ch) by reflexivity.
    rewrite decide_True by done. by rewrite decide_True by done. }
  assert (H404 : handleError u ts (msgData (sendChannelError "404" ("Cannot send to channel: " +:+ ch) ch))
                 = addMessage u (fmtErr u ts ("Cannot send to channel: " +:+ ch))).
  { unfold handleError.
    replace (field (msgData (sendChannelError "404" ("Cannot send to channel: " +:+ ch) ch))
                   "remove_channel") with "" by reflexivity.
    replace (field (msgData (sendChannelError "404" ("Cannot send to channel: " +:+ ch) ch))
                   "message") with ("Cannot send to channel: " +:+ ch) by reflexivity.
    by rewrite decide_False by discriminate. }
  split; [by rewrite handleIRCMessage_ERROR, H403|].
  split; [by rewrite handleIRCMessage_ERROR, H404|].
  assert (Hchs : ∀ x, x ∈ channels (base (removeChannel
                   (addMessage u (fmtErr u ts ("No such channel: " +:+ ch))) ch))
                 ↔ x ∈ channels (base u) ∧ x ≠ ch).
  { intros x. rewrite <- elem_of_without.
    destruct u as [[cu chs cur] me' ms sel t]. unfold removeChannel. cbn.
    destruct (decide (cur = ch)); [destruct (without chs ch)|]; done. }
  split; [rewrite Hchs; tauto|].
  rewrite removeChannel_channelUsers, addMessage_base.
  split; [by rewrite lookup_delete_eq|].
  split; [|split; [by rewrite addMessage_base|done]].
  intros other Hother. split; [rewrite Hchs; tauto|].
  by rewrite lookup_delete_ne.
Qed.

End Pipeline.


(** The replies 403 and 404 of "irc.example.org" for "#go". *)
Lemma error_reply_to_channel_list_witness :
  ∃ l403 l404 e403 e404 u403 u404,
    parseLine (H := asciiTables)
      (":" +:+ "irc.example.org" +:+ " 403 " +:+ "me" +:+ " " +:+ "#go" +:+ " :" +:+ "No such channel")
      = Some l403
    ∧ parseLine (H := asciiTables)
        (":" +:+ "irc.example.org" +:+ " 404 " +:+ "me" +:+ " " +:+ "#go" +:+ " :" +:+ "No such channel")
      = Some l404
    ∧ emitted false l403 = [e403] ∧ emitted false l404 = [e404]
    ∧ handleIRCMessage (H := plainRenderer) (initialModel "6667" "me") "12:00" 80 e403
      = Some (u403, [])
    ∧ handleIRCMessage (H := plainRenderer) (initialModel "6667" "me") "12:00" 80 e404
      = Some (u404, [])
    ∧ ("#go" ∉ channels (base u403)) ∧ channelUsers (base u403) !! "#go" = None
    ∧ (∀ other, other ≠ "#go" ->
         (other ∈ channels (base u403) ↔ other ∈ channels (base (initialModel "6667" "me")))
         ∧ channelUsers (base u403) !! other
           = channelUsers (base (initialModel "6667" "me")) !! other)
    ∧ base u404 = base (initialModel "6667" "me")
    ∧ messages u404
      = messages (addMessage (initialModel "6667" "me")
                    (fmtErr (Renderer := plainRenderer) (initialModel "6667" "me") "12:00"
                            ("Cannot send to channel: " +:+ "#go"))).
Proof.
  apply (error_reply_to_channel_list (H := asciiTables) (H0 := plainRenderer)
           (initialModel "6667" "me") "12:00" 80 "irc.example.org" "me" "#go"
           "No such channel");
    first [reflexivity | discriminate | split; reflexivity].
Defined.

End PipelineFacts.

(* ===================================================================== *)
(** * main.go: our own JOIN and PART *)
(* ===================================================================== *)

Module FrontMore.
Import GoStrings IRC App Front HelperFacts FrontFacts.

Section Handlers.
Context `{Renderer}.

(** X27.  Our own JOIN and then PART of a channel we were not in.  The JOIN
    puts the channel at the end of the channel list and makes it the
    current one.  The PART gives the channel list back as it was and drops
    the users of the channel; the current channel is then the first of the
    list, or none when the list is empty, and not the one that was current
    before the JOIN. *)
Theorem own_join_then_part u ts ts' data :
  field data "nick" = nick u ->
  field data "channel" ∉ channels (base u) ->
  let u1 := handleJoin u ts data in
  let u2 := handlePart u1 ts' data in
  channels (base u1) = channels (base u) ++ [field data "channel"]
  ∧ channel (base u1) = field data "channel"
  ∧ channels (base u2) = channels (base u)
  ∧ channel (base u2) = default "" (head (channels (base u)))
  ∧ channelUsers (base u2) !! field data "channel" = None
  ∧ (∀ other, other ≠ field data "channel" ->
       channelUsers (base u2) !! other = channelUsers (base u) !! other).
Proof.
  intros Hme Hfresh u1 u2.
  assert (H1 : base u1 = mkModel (channelUsers (base u))
                           (channels (base u) ++ [field data "channel"])
                           (field data "channel")
               ∧ nick u1 = nick u).
  { subst u1. unfold handleJoin. rewrite addMessage_base, addMessage_nick.
    rewrite decide_True by done. cbn zeta.
    apply contains_false in Hfresh.
    destruct u as [[cu chs cur] me ms sel t]; cbn in *. by rewrite Hfresh. }
  destruct H1 as [Hb1 Hn1].
  assert (H2 : base u2 = mkModel (delete (field data "channel") (channelUsers (base u)))
                           (channels (base u))
                           (default "" (head (channels (base u))))).
  { subst u2. unfold handlePart. rewrite Hn1, Hb1.
    rewrite decide_True by done. cbn [channels channel channelUsers withChannels].
    rewrite without_snoc by done. rewrite decide_True by done.
    destruct (channels (base u)); by rewrite addMessage_base. }
  rewrite Hb1, H2. cbn.
  repeat split; try done; [by rewrite lookup_delete_eq|].
  intros other Hne. by rewrite lookup_delete_ne.
Qed.

End Handlers.

(** Our JOIN and PART of "#new" with "#go" in the list. *)
Lemma own_join_then_part_witness :
  channels (base (handlePart (H := plainRenderer)
                    (handleJoin (H := plainRenderer)
                       (mkUi (mkModel ∅ ["#go"] "#go") "me" [] 0 false)
                       "12:00" (<["nick" := "me"]> (<["channel" := "#new"]> ∅)))
                    "12:01" (<["nick" := "me"]> (<["channel" := "#new"]> ∅))))
  = ["#go"].
Proof.
  refine (proj1 (proj2 (proj2 (own_join_then_part (H := plainRenderer)
           (mkUi (mkModel ∅ ["#go"] "#go") "me" [] 0 false)
           "12:00" "12:01" (<["nick" := "me"]> (<["channel" := "#new"]> ∅)) _ _)))).
  - reflexivity.
  - intros Hin. apply list_elem_of_singleton in Hin. vm_compute in Hin. discriminate.
Defined.

End FrontMore.
